(** * Verification of the dependency engine of the multi-agent MVP

    A shallow embedding of [src/core/topological_sort.py],
    [src/core/ready_tasks.py] and [src/core/conditional_branching.py],
    followed by the properties the specification states about them.

    Python dictionaries keep insertion order and the sequencer's output
    depends on it, so dictionaries are association lists here: iteration
    walks the list from its head, a store to a present key keeps the key's
    place, a store to a new key appends. *)

From Stdlib Require Import List String ZArith Lia Bool Arith PeanoNat.
From Stdlib Require Import Relations.Relation_Operators.
From Stdlib Require Import Relations.Operators_Properties.
Import ListNotations.

Local Open Scope string_scope.
Local Open Scope list_scope.

(* ================================================================== *)
(** * Part I: the embedding *)
(* ================================================================== *)

(** ** Python values shared by the three files *)

(** [x in xs] for a list of strings. *)
Definition mem (x : string) (xs : list string) : bool :=
  existsb (String.eqb x) xs.

(** [not xs]: the truth value of an empty container is false. *)
Definition is_empty {A : Type} (xs : list A) : bool :=
  match xs with
  | [] => true
  | _ :: _ => false
  end.

(** The exceptions the three files can raise. *)
Inductive exn : Type :=
  | ValueError
  | AttributeError.

(** A computation that returns a value or raises. *)
Inductive py (A : Type) : Type :=
  | Return (a : A)
  | Raise (e : exn).

Arguments Return {A} a.
Arguments Raise {A} e.

Definition bind {A B : Type} (m : py A) (k : A -> py B) : py B :=
  match m with
  | Return a => k a
  | Raise e => Raise e
  end.

Notation "x <- m ;; k" := (bind m (fun x => k))
  (at level 61, m at next level, right associativity).

(** ** Insertion-ordered dictionaries with string keys *)

Module Dict.

Definition t (V : Type) : Type := list (string * V).

Section Ops.
Context {V : Type}.

(** [d.get(k)], also the test [k in d] and the read [d[k]]. *)
Fixpoint get (d : t V) (k : string) : option V :=
  match d with
  | [] => None
  | (k', v) :: d' => if String.eqb k k' then Some v else get d' k
  end.

Definition contains (d : t V) (k : string) : bool :=
  match get d k with
  | Some _ => true
  | None => false
  end.

(** [d[k] = v] *)
Fixpoint set (d : t V) (k : string) (v : V) : t V :=
  match d with
  | [] => [(k, v)]
  | (k', v') :: d' =>
      if String.eqb k k' then (k', v) :: d' else (k', v') :: set d' k v
  end.

Definition keys (d : t V) : list string := map fst d.

Definition values (d : t V) : list V := map snd d.

(** A dictionary holds each key once. *)
Definition wf (d : t V) : Prop := NoDup (keys d).

End Ops.

End Dict.

(** ** [ready_tasks.py] *)

Module TaskState.
Definition PENDING : string := "pending".
Definition IN_PROGRESS : string := "in_progress".
Definition COMPLETED : string := "completed".
Definition FAILED : string := "failed".

End TaskState.

(** The result dictionary [{"success": bool, "output": str}]; either key
    may be absent. *)
Record task_result : Type := mk_result {
  success : option bool;
  output : option string
}.

(** A task dictionary. A field is [None] when its key is absent; for
    ["result"] also when the stored value is Python's [None]: the code
    reads it only through [.get("result")], which cannot tell the two
    apart. *)
Record task : Type := mk_task {
  state : option string;
  dependencies : option (list string);
  result : option task_result;
  condition : option string
}.

Definition task_queue : Type := Dict.t task.

(** [task_info.get("state", "pending")] *)
Definition get_state (task_info : task) : string :=
  match state task_info with
  | Some s => s
  | None => TaskState.PENDING
  end.

(** [task_info.get("dependencies", [])] *)
Definition get_dependencies (task_info : task) : list string :=
  match dependencies task_info with
  | Some ds => ds
  | None => []
  end.

(** [dep_result.get("success", False)] *)
Definition get_success (r : task_result) : bool :=
  match success r with
  | Some b => b
  | None => false
  end.

(** The states that [get_ready_tasks] and [get_blocked_tasks] skip. *)
Definition claimed_or_done (st : string) : bool :=
  mem st [TaskState.IN_PROGRESS; TaskState.COMPLETED; TaskState.FAILED].

(** The [for dep_id in dependencies] loop of
    [_check_dependencies_satisfied]; each [return False] ends it. *)
Fixpoint deps_all_succeeded (q : task_queue) (deps : list string) : bool :=
  match deps with
  | [] => true
  | dep_id :: rest =>
      match Dict.get q dep_id with
      | None => false
      | Some dep_task =>
          if negb (String.eqb (get_state dep_task) TaskState.COMPLETED)
          then false
          else
            match result dep_task with
            | None => false
            | Some dep_result =>
                if negb (get_success dep_result) then false
                else deps_all_succeeded q rest
            end
      end
  end.

Definition _check_dependencies_satisfied
    (task_id : string) (q : task_queue) (deps : list string) : bool :=
  if is_empty deps then true else deps_all_succeeded q deps.

(** The body of the loop of [get_ready_tasks] for one item. *)
Definition ready_step (q : task_queue) (ready : list string)
    (item : string * task) : list string :=
  let '(task_id, task_info) := item in
  if claimed_or_done (get_state task_info) then ready
  else
    if _check_dependencies_satisfied task_id q (get_dependencies task_info)
    then ready ++ [task_id]
    else ready.

Definition get_ready_tasks (q : task_queue) : list string :=
  if is_empty q then [] else fold_left (ready_step q) q [].



(** [prev_task_queue.get(task_id, {}).get("state", "pending")] *)
Definition prev_state_of (prev : task_queue) (task_id : string) : string :=
  match Dict.get prev task_id with
  | Some task_info => get_state task_info
  | None => TaskState.PENDING
  end.

(** The inner loop of [get_ready_tasks_incremental] for one dependent. *)
Definition dependent_step (updated : task_queue) (task_id : string)
    (newly_ready : list string) (item : string * task) : list string :=
  let '(dependent_id, dependent_info) := item in
  if String.eqb dependent_id task_id then newly_ready
  else
    let deps := get_dependencies dependent_info in
    if mem task_id deps then
      if String.eqb (get_state dependent_info) TaskState.PENDING then
        if _check_dependencies_satisfied dependent_id updated deps
        then newly_ready ++ [dependent_id]
        else newly_ready
      else newly_ready
    else newly_ready.

(** The outer loop of [get_ready_tasks_incremental] for one task. *)
Definition completed_step (prev updated : task_queue)
    (newly_ready : list string) (item : string * task) : list string :=
  let '(task_id, task_info) := item in
  let prev_state := prev_state_of prev task_id in
  let new_state := get_state task_info in
  if String.eqb prev_state new_state
     || negb (String.eqb new_state TaskState.COMPLETED)
  then newly_ready
  else fold_left (dependent_step updated task_id) updated newly_ready.

Definition get_ready_tasks_incremental (prev updated : task_queue)
    : list string :=
  fold_left (completed_step prev updated) updated [].

(** [set(xs) != set(ys)], negated. *)
Definition same_set (xs ys : list string) : bool :=
  forallb (fun x => mem x ys) xs && forallb (fun y => mem y xs) ys.

(** The loop of [validate_ready_state] over the claimed tasks. *)
Fixpoint ready_claims_ok (q : task_queue) (ready_tasks : list string)
    : bool :=
  match ready_tasks with
  | [] => true
  | task_id :: rest =>
      match Dict.get q task_id with
      | None => false
      | Some task_info =>
          if negb (String.eqb (get_state task_info) TaskState.PENDING)
          then false
          else
            if negb (_check_dependencies_satisfied task_id q
                       (get_dependencies task_info))
            then false
            else ready_claims_ok q rest
      end
  end.

Definition validate_ready_state (q : task_queue) (ready_tasks : list string)
    : bool :=
  if negb (same_set (get_ready_tasks q) ready_tasks) then false
  else ready_claims_ok q ready_tasks.

(** The [for dep_id in dependencies] loop of [get_blocked_tasks].
    [dep_result.get] is evaluated only when the state test left of [or]
    is false, and raises [AttributeError] when [dep_result] is [None]. *)
Fixpoint incomplete_deps_loop (q : task_queue) (deps : list string)
    (incomplete_deps : list string) : py (list string) :=
  match deps with
  | [] => Return incomplete_deps
  | dep_id :: rest =>
      match Dict.get q dep_id with
      | None => incomplete_deps_loop q rest (incomplete_deps ++ [dep_id])
      | Some dep_task =>
          let dep_state := get_state dep_task in
          let dep_result := result dep_task in
          if negb (String.eqb dep_state TaskState.COMPLETED)
          then incomplete_deps_loop q rest (incomplete_deps ++ [dep_id])
          else
            match dep_result with
            | None => Raise AttributeError
            | Some r =>
                if negb (get_success r)
                then incomplete_deps_loop q rest (incomplete_deps ++ [dep_id])
                else incomplete_deps_loop q rest incomplete_deps
            end
      end
  end.

Fixpoint blocked_loop (q : task_queue) (items : list (string * task))
    (blocked : Dict.t (list string)) : py (Dict.t (list string)) :=
  match items with
  | [] => Return blocked
  | (task_id, task_info) :: rest =>
      if claimed_or_done (get_state task_info) then blocked_loop q rest blocked
      else
        incomplete_deps <-
          incomplete_deps_loop q (get_dependencies task_info) [] ;;
        if is_empty incomplete_deps then blocked_loop q rest blocked
        else blocked_loop q rest (Dict.set blocked task_id incomplete_deps)
  end.

Definition get_blocked_tasks (q : task_queue) : py (Dict.t (list string)) :=
  blocked_loop q q [].

(** ** [conditional_branching.py] *)

Module ConditionType.
Definition SUCCESS : string := "success".
Definition FAILURE : string := "failure".
Definition ALWAYS : string := "always".

(** [{c.value for c in ConditionType}] *)
Definition valid_conditions : list string := [SUCCESS; FAILURE; ALWAYS].
End ConditionType.

(** [task_info.get("condition", ConditionType.ALWAYS.value)] *)
Definition get_condition (task_info : task) : string :=
  match condition task_info with
  | Some c => c
  | None => ConditionType.ALWAYS
  end.

Definition evaluate_condition (cond : string) (parent_state : string)
    (parent_result : option task_result) : py bool :=
  if String.eqb cond ConditionType.ALWAYS then
    Return (mem parent_state [TaskState.COMPLETED; TaskState.FAILED])
  else if String.eqb cond ConditionType.SUCCESS then
    if negb (String.eqb parent_state TaskState.COMPLETED) then Return false
    else
      match parent_result with
      | None => Return false
      | Some r => Return (get_success r)
      end
  else if String.eqb cond ConditionType.FAILURE then
    if String.eqb parent_state TaskState.FAILED then Return true
    else
      match String.eqb parent_state TaskState.COMPLETED, parent_result with
      | true, Some r => Return (negb (get_success r))
      | _, _ => Return false
      end
  else Raise ValueError.

(** The [for dep_id in dependencies] loop of
    [check_conditional_dependencies_satisfied]. *)
Fixpoint conditional_deps_loop (q : task_queue) (cond : string)
    (deps : list string) : py bool :=
  match deps with
  | [] => Return true
  | dep_id :: rest =>
      match Dict.get q dep_id with
      | None => Return false
      | Some dep_task =>
          let dep_state := get_state dep_task in
          let dep_result := result dep_task in
          if negb (mem dep_state [TaskState.COMPLETED; TaskState.FAILED])
          then Return false
          else
            ok <- evaluate_condition cond dep_state dep_result ;;
            if negb ok then Return false
            else conditional_deps_loop q cond rest
      end
  end.

(** [task_queue.get(task_id, {})] followed by
    [.get("condition", "always")]. *)
Definition condition_of (q : task_queue) (task_id : string) : string :=
  match Dict.get q task_id with
  | Some current_task => get_condition current_task
  | None => ConditionType.ALWAYS
  end.

Definition check_conditional_dependencies_satisfied
    (task_id : string) (q : task_queue) (deps : list string) : py bool :=
  if is_empty deps then Return true
  else conditional_deps_loop q (condition_of q task_id) deps.

Fixpoint conditional_ready_loop (q : task_queue)
    (items : list (string * task)) (ready : list string)
    : py (list string) :=
  match items with
  | [] => Return ready
  | (task_id, task_info) :: rest =>
      if claimed_or_done (get_state task_info)
      then conditional_ready_loop q rest ready
      else
        ok <- check_conditional_dependencies_satisfied task_id q
                (get_dependencies task_info) ;;
        if ok then conditional_ready_loop q rest (ready ++ [task_id])
        else conditional_ready_loop q rest ready
  end.

Definition get_ready_tasks_with_conditions (q : task_queue)
    : py (list string) :=
  if is_empty q then Return [] else conditional_ready_loop q q [].

(** The error messages of [validate_conditional_graph]. *)
Definition invalid_condition_error (task_id cond : string) : string :=
  "Task " ++ task_id ++ ": invalid condition '" ++ cond ++ "'".

Definition missing_dependency_error (task_id dep_id : string) : string :=
  "Task " ++ task_id ++ ": dependency '" ++ dep_id
    ++ "' not found in task queue".

Definition validation_step (q : task_queue) (errors : list string)
    (item : string * task) : list string :=
  let '(task_id, task_info) := item in
  let cond := get_condition task_info in
  let errors1 :=
    if negb (mem cond ConditionType.valid_conditions)
    then errors ++ [invalid_condition_error task_id cond]
    else errors in
  fold_left
    (fun errs dep_id =>
       if negb (Dict.contains q dep_id)
       then errs ++ [missing_dependency_error task_id dep_id]
       else errs)
    (get_dependencies task_info) errors1.

Record validation : Type := mk_validation {
  valid : bool;
  errors : list string
}.

Definition validate_conditional_graph (q : task_queue) : validation :=
  let errs := fold_left (validation_step q) q [] in
  {| valid := Nat.eqb (List.length errs) 0; errors := errs |}.

(** ** [topological_sort.py] *)

(** [{task_id: [dependency_ids]}] *)
Definition task_graph : Type := Dict.t (list string).

(** [task_graph[node]]; the code reads it only at keys of the graph. *)
Definition deps_of (g : task_graph) (node : string) : list string :=
  match Dict.get g node with
  | Some ds => ds
  | None => []
  end.

(** [in_degree[node]]; the code reads it only at keys of [in_degree]. *)
Definition degree (in_degree : Dict.t Z) (node : string) : Z :=
  match Dict.get in_degree node with
  | Some n => n
  | None => 0%Z
  end.

(** [{node: 0 for node in task_graph}] *)
Definition zero_degrees (g : task_graph) : Dict.t Z :=
  fold_left (fun d node => Dict.set d node 0%Z) (Dict.keys g) [].

(** [if dep not in in_degree: in_degree[dep] = 0] *)
Definition add_missing (in_degree : Dict.t Z) (dep : string) : Dict.t Z :=
  if negb (Dict.contains in_degree dep) then Dict.set in_degree dep 0%Z
  else in_degree.

(** The body of the first loop over the graph: store the number of
    dependencies, then enter the dependencies that are not keys yet. *)
Definition count_step (g : task_graph) (in_degree : Dict.t Z)
    (node : string) : Dict.t Z :=
  let deps := deps_of g node in
  fold_left add_missing deps
    (Dict.set in_degree node (Z.of_nat (List.length deps))).

Definition compute_in_degree (g : task_graph) : Dict.t Z :=
  fold_left (count_step g) (Dict.keys g) (zero_degrees g).

(** [[node for node in in_degree if in_degree[node] == 0]] *)
Definition zero_degree_nodes (in_degree : Dict.t Z) : list string :=
  filter (fun node => Z.eqb (degree in_degree node) 0) (Dict.keys in_degree).

(** The loop [for dependent in task_graph] run for a node that leaves
    the queue: every dependent that lists the node loses one from its
    in-degree and joins the queue when it reaches zero. *)
Fixpoint release (g : task_graph) (node : string) (dependents : list string)
    (in_degree : Dict.t Z) (queue : list string)
    : Dict.t Z * list string :=
  match dependents with
  | [] => (in_degree, queue)
  | dependent :: rest =>
      if mem node (deps_of g dependent) then
        let in_degree' :=
          Dict.set in_degree dependent (degree in_degree dependent - 1)%Z in
        if Z.eqb (degree in_degree' dependent) 0
        then release g node rest in_degree' (queue ++ [dependent])
        else release g node rest in_degree' queue
      else release g node rest in_degree queue
  end.

(** The loop [while queue]. The fuel bounds the number of iterations;
    [None] means the fuel ran out before the queue was empty. *)
Fixpoint sort_loop (fuel : nat) (g : task_graph) (in_degree : Dict.t Z)
    (queue result : list string) : option (list string) :=
  match queue with
  | [] => Some result
  | node :: queue' =>
      match fuel with
      | O => None
      | S fuel' =>
          let '(in_degree', queue'') :=
            release g node (Dict.keys g) in_degree queue' in
          sort_loop fuel' g in_degree' queue'' (result ++ [node])
      end
  end.

Definition topological_sort (fuel : nat) (g : task_graph)
    : option (list string) :=
  if is_empty g then Some []
  else
    let in_degree := compute_in_degree g in
    sort_loop fuel g in_degree (zero_degree_nodes in_degree) [].

(** The loop [for node in current_batch] of [get_parallel_batches]. *)
Fixpoint release_batch (g : task_graph) (batch : list string)
    (in_degree : Dict.t Z) (next_batch : list string)
    : Dict.t Z * list string :=
  match batch with
  | [] => (in_degree, next_batch)
  | node :: rest =>
      let '(in_degree', next_batch') :=
        release g node (Dict.keys g) in_degree next_batch in
      release_batch g rest in_degree' next_batch'
  end.

(** The loop [while current_batch]. *)
Fixpoint batch_loop (fuel : nat) (g : task_graph) (in_degree : Dict.t Z)
    (current_batch : list string) (batches : list (list string))
    : option (list (list string)) :=
  match current_batch with
  | [] => Some batches
  | _ :: _ =>
      match fuel with
      | O => None
      | S fuel' =>
          let '(in_degree', next_batch) :=
            release_batch g current_batch in_degree [] in
          batch_loop fuel' g in_degree' next_batch (batches ++ [current_batch])
      end
  end.

Definition get_parallel_batches (fuel : nat) (g : task_graph)
    : option (list (list string)) :=
  if is_empty g then Some []
  else
    let in_degree := compute_in_degree g in
    batch_loop fuel g in_degree (zero_degree_nodes in_degree) [].

(** The keys of the graph and every ID listed as a dependency. *)
Definition graph_nodes (g : task_graph) : list string :=
  Dict.keys g ++ List.concat (Dict.values g).

(** [{task: idx for idx, task in enumerate(ordering)}]: a task that
    occurs twice keeps its last index. *)
Fixpoint enumerate_positions (ordering : list string) (idx : nat)
    (position : Dict.t nat) : Dict.t nat :=
  match ordering with
  | [] => position
  | task_id :: rest =>
      enumerate_positions rest (S idx) (Dict.set position task_id idx)
  end.

(** [position[task]]; read only after the two sets were found equal. *)
Definition position_of (position : Dict.t nat) (task_id : string) : nat :=
  match Dict.get position task_id with
  | Some idx => idx
  | None => 0
  end.

Definition validate_ordering (g : task_graph) (ordering : list string)
    : bool :=
  if is_empty g && is_empty ordering then true
  else if is_empty g || is_empty ordering then false
  else
    if negb (same_set ordering (graph_nodes g)) then false
    else
      let position := enumerate_positions ordering 0 [] in
      forallb
        (fun task_id =>
           let task_position := position_of position task_id in
           forallb
             (fun dependency =>
                negb (Nat.leb task_position (position_of position dependency)))
             (deps_of g task_id))
        (Dict.keys g).

(** ** Vocabulary of the specification *)

(** An edge runs from a dependency to the task that lists it. *)
Definition edge (g : task_graph) (dep dependent : string) : Prop :=
  In dependent (Dict.keys g) /\ In dep (deps_of g dependent).

(** A cycle is a node that reaches itself along one or more edges. *)
Definition has_cycle (g : task_graph) : Prop :=
  exists node, clos_trans string (edge g) node node.

Definition acyclic (g : task_graph) : Prop :=
  forall node, ~ clos_trans string (edge g) node node.

(** No task lists the same dependency twice (the specification's
    dependencies are a set). *)
Definition deps_distinct (g : task_graph) : Prop :=
  forall node, In node (Dict.keys g) -> NoDup (deps_of g node).

(** [dep] stands before [dependent] in [order]. *)
Definition before (order : list string) (dep dependent : string) : Prop :=
  exists i j,
    nth_error order i = Some dep /\ nth_error order j = Some dependent /\
    i < j.


(** ** [ready_tasks.py]: the summary *)

(** [summary[key]] *)
Definition count_of (summary : Dict.t Z) (key : string) : Z :=
  match Dict.get summary key with
  | Some n => n
  | None => 0%Z
  end.

(** [if state in summary: summary[state] += 1] *)
Definition tally_step (summary : Dict.t Z) (item : string * task)
    : Dict.t Z :=
  let st := get_state (snd item) in
  if Dict.contains summary st
  then Dict.set summary st (count_of summary st + 1)%Z
  else summary.

(** The dictionary [get_task_summary] starts from. *)
Definition initial_summary (q : task_queue) : Dict.t Z :=
  [("pending", 0%Z); ("ready", 0%Z); ("in_progress", 0%Z);
   ("completed", 0%Z); ("failed", 0%Z);
   ("total", Z.of_nat (List.length q))].

Definition get_task_summary (q : task_queue) : py (Dict.t Z) :=
  let summary := initial_summary q in
  let ready_count := Z.of_nat (List.length (get_ready_tasks q)) in
  blocked <- get_blocked_tasks q ;;
  let summary1 := fold_left tally_step q summary in
  let summary2 := Dict.set summary1 "ready" ready_count in
  Return (Dict.set summary2 "blocked" (Z.of_nat (List.length blocked))).

(** ** [conditional_branching.py]: conditions, successors, simulation *)

Definition add_condition_to_task (task_def : task) (cond : string)
    : py task :=
  if negb (mem cond ConditionType.valid_conditions) then Raise ValueError
  else
    Return {| state := state task_def;
              dependencies := dependencies task_def;
              result := result task_def;
              condition := Some cond |}.

(** [{"success_path": [], "failure_path": [], "always_path": []}] *)
Record successors : Type := mk_successors {
  success_path : list string;
  failure_path : list string;
  always_path : list string
}.

(** The loop of [get_conditional_successors] over the queue. *)
Fixpoint successors_loop (task_id task_state : string)
    (task_res : task_result) (items : list (string * task))
    (acc : successors) : py successors :=
  match items with
  | [] => Return acc
  | (dependent_id, dependent_info) :: rest =>
      let deps := get_dependencies dependent_info in
      if negb (mem task_id deps)
      then successors_loop task_id task_state task_res rest acc
      else
        let dependent_state := get_state dependent_info in
        let cond := get_condition dependent_info in
        if negb (String.eqb dependent_state "pending")
        then successors_loop task_id task_state task_res rest acc
        else
          ok <- evaluate_condition cond task_state (Some task_res) ;;
          if ok then
            if String.eqb cond ConditionType.SUCCESS then
              successors_loop task_id task_state task_res rest
                {| success_path := success_path acc ++ [dependent_id];
                   failure_path := failure_path acc;
                   always_path := always_path acc |}
            else if String.eqb cond ConditionType.FAILURE then
              successors_loop task_id task_state task_res rest
                {| success_path := success_path acc;
                   failure_path := failure_path acc ++ [dependent_id];
                   always_path := always_path acc |}
            else
              successors_loop task_id task_state task_res rest
                {| success_path := success_path acc;
                   failure_path := failure_path acc;
                   always_path := always_path acc ++ [dependent_id] |}
          else successors_loop task_id task_state task_res rest acc
  end.

Definition get_conditional_successors (task_id : string) (q : task_queue)
    (task_res : task_result) : py successors :=
  let task_state :=
    if get_success task_res then "completed" else "failed" in
  successors_loop task_id task_state task_res q
    {| success_path := []; failure_path := []; always_path := [] |}.

(** [{"executed": [], "skipped": [], "error_handlers": []}] *)
Record simulation : Type := mk_simulation {
  executed : list string;
  skipped : list string;
  error_handlers : list string
}.

(** The loop body of [simulate_execution] when no task fails. *)
Definition all_succeed_step (sim : simulation) (item : string * task)
    : simulation :=
  let '(task_id, task_info) := item in
  let cond := get_condition task_info in
  if mem cond [ConditionType.SUCCESS; ConditionType.ALWAYS]
  then {| executed := executed sim ++ [task_id];
          skipped := skipped sim;
          error_handlers := error_handlers sim |}
  else {| executed := executed sim;
          skipped := skipped sim ++ [task_id];
          error_handlers := error_handlers sim |}.

(** The loop body of [simulate_execution] when [failure_task] fails. *)
Definition failure_step (failure_task : string) (sim : simulation)
    (item : string * task) : simulation :=
  let '(task_id, task_info) := item in
  let cond := get_condition task_info in
  let deps := get_dependencies task_info in
  let depends_on_failed := mem failure_task deps in
  if depends_on_failed then
    if String.eqb cond ConditionType.FAILURE then
      {| executed := executed sim;
         skipped := skipped sim;
         error_handlers := error_handlers sim ++ [task_id] |}
    else if String.eqb cond ConditionType.SUCCESS then
      {| executed := executed sim;
         skipped := skipped sim ++ [task_id];
         error_handlers := error_handlers sim |}
    else
      {| executed := executed sim ++ [task_id];
         skipped := skipped sim;
         error_handlers := error_handlers sim |}
  else if negb (existsb (fun dep => mem dep deps)
                  ([failure_task] ++ skipped sim)) then
    if mem cond [ConditionType.SUCCESS; ConditionType.ALWAYS]
    then {| executed := executed sim ++ [task_id];
            skipped := skipped sim;
            error_handlers := error_handlers sim |}
    else sim
  else sim.

Definition simulate_execution (q : task_queue) (failure_task : option string)
    : simulation :=
  let start := {| executed := []; skipped := []; error_handlers := [] |} in
  match failure_task with
  | None => fold_left all_succeed_step q start
  | Some failed_id => fold_left (failure_step failed_id) q start
  end.

(** ** [conditional_branching.py]: execution paths *)

(** What can stop [get_execution_paths]: a failed lookup
    [task_queue[task_id]], or a recursion deeper than the interpreter
    allows. *)
Inductive trace_error : Type :=
| KeyError
| RecursionError.

Inductive outcome (A : Type) : Type :=
| Done (a : A)
| Stopped (e : trace_error).

Arguments Done {A} a.
Arguments Stopped {A} e.

(** [paths = {"success_path": [], "failure_paths": {}, "always_tasks": []}] *)
Module ExecutionPaths.
Record t : Type := mk {
  success_path : list string;
  failure_paths : Dict.t (list string);
  always_tasks : list string
}.
End ExecutionPaths.

(** [roots = [tid for tid, info in task_queue.items()
              if not info.get("dependencies")]] *)
Definition roots (q : task_queue) : list string :=
  map fst (filter (fun item => is_empty (get_dependencies (snd item))) q).

(** The set [visited_success] and the list [paths["success_path"]] that
    [trace_success_path] updates together. *)
Record success_trace : Type := mk_success_trace {
  visited_success : list string;
  success_so_far : list string
}.

(** The loop of [trace_success_path] over [task_queue.items()]; [trace]
    is the recursive call. *)
Fixpoint success_loop
    (trace : string -> success_trace -> outcome success_trace)
    (task_id : string) (items : list (string * task)) (st : success_trace)
    : outcome success_trace :=
  match items with
  | [] => Done st
  | (dependent_id, dependent_info) :: rest =>
      let deps := get_dependencies dependent_info in
      if mem task_id deps then
        let cond := get_condition dependent_info in
        if mem cond [ConditionType.SUCCESS; ConditionType.ALWAYS] then
          match trace dependent_id st with
          | Done st' => success_loop trace task_id rest st'
          | Stopped e => Stopped e
          end
        else success_loop trace task_id rest st
      else success_loop trace task_id rest st
  end.

(** [limit] is the depth of recursion still available. *)
Fixpoint trace_success_path (limit : nat) (q : task_queue)
    (task_id : string) (st : success_trace) : outcome success_trace :=
  match limit with
  | O => Stopped RecursionError
  | S limit' =>
      if mem task_id (visited_success st) then Done st
      else
        success_loop (trace_success_path limit' q) task_id q
          {| visited_success := task_id :: visited_success st;
             success_so_far := success_so_far st ++ [task_id] |}
  end.

(** The loop of [trace_always_tasks] over the keys of the queue. *)
Fixpoint always_loop
    (trace : string -> list string -> outcome (list string))
    (q : task_queue) (task_id : string) (ids : list string)
    (always : list string) : outcome (list string) :=
  match ids with
  | [] => Done always
  | dependent_id :: rest =>
      match Dict.get q dependent_id with
      | None => Stopped KeyError
      | Some dependent_info =>
          if mem task_id (get_dependencies dependent_info) then
            match trace dependent_id always with
            | Done always' => always_loop trace q task_id rest always'
            | Stopped e => Stopped e
            end
          else always_loop trace q task_id rest always
      end
  end.

Fixpoint trace_always_tasks (limit : nat) (q : task_queue)
    (task_id : string) (always : list string) : outcome (list string) :=
  match limit with
  | O => Stopped RecursionError
  | S limit' =>
      match Dict.get q task_id with
      | None => Stopped KeyError
      | Some task_info =>
          let cond := get_condition task_info in
          let always1 :=
            if String.eqb cond ConditionType.ALWAYS then
              if negb (mem task_id always) then always ++ [task_id]
              else always
            else always in
          always_loop (trace_always_tasks limit' q) q task_id
            (Dict.keys q) always1
      end
  end.

(** [for root in roots: trace_success_path(root); trace_always_tasks(root)] *)
Fixpoint roots_loop (limit : nat) (q : task_queue) (rs : list string)
    (st : success_trace) (always : list string)
    : outcome (success_trace * list string) :=
  match rs with
  | [] => Done (st, always)
  | root :: rest =>
      match trace_success_path limit q root st with
      | Stopped e => Stopped e
      | Done st' =>
          match trace_always_tasks limit q root always with
          | Stopped e => Stopped e
          | Done always' => roots_loop limit q rest st' always'
          end
      end
  end.

Definition get_execution_paths (limit : nat) (q : task_queue)
    : outcome ExecutionPaths.t :=
  match roots_loop limit q (roots q)
          {| visited_success := []; success_so_far := [] |} [] with
  | Stopped e => Stopped e
  | Done (st, always) =>
      Done {| ExecutionPaths.success_path := success_so_far st;
              ExecutionPaths.failure_paths := [];
              ExecutionPaths.always_tasks := always |}
  end.
(** A dependency counts for [get_ready_tasks] when it is a key of the
    queue, its state is [completed] and its result carries a true
    success flag. *)
Definition dep_succeeded (q : task_queue) (dep_id : string) : Prop :=
  exists dep_task dep_result,
    Dict.get q dep_id = Some dep_task /\
    get_state dep_task = TaskState.COMPLETED /\
    result dep_task = Some dep_result /\
    get_success dep_result = true.

(** The state is none of [in_progress], [completed], [failed]. *)
Definition claimable_state (st : string) : Prop :=
  st <> TaskState.IN_PROGRESS /\ st <> TaskState.COMPLETED /\
  st <> TaskState.FAILED.

(** A duplicate-free list, decided. *)
Fixpoint distinct (xs : list string) : bool :=
  match xs with
  | [] => true
  | x :: rest => negb (mem x rest) && distinct rest
  end.

(** The test that [get_ready_tasks] applies to an item. *)
Definition ready_item (q : task_queue) (item : string * task) : bool :=
  negb (claimed_or_done (get_state (snd item)))
  && _check_dependencies_satisfied (fst item) q (get_dependencies (snd item)).


(** Two queues differ by one task's transition to [completed]: the keys
    are the same, every other task is unchanged, and the task was not
    completed before and is completed after. *)
Definition completes_one (before after : task_queue) (task_id : string)
    : Prop :=
  Dict.keys after = Dict.keys before /\
  (forall k, k <> task_id -> Dict.get after k = Dict.get before k) /\
  prev_state_of before task_id <> TaskState.COMPLETED /\
  (exists task_info,
     Dict.get after task_id = Some task_info /\
     get_state task_info = TaskState.COMPLETED).


(** A dependency counts for a FAILURE condition when it is a key of the
    queue and its state is [failed], or [completed] with a result whose
    success flag, read as the code reads it, is false. *)
Definition dep_failed (q : task_queue) (dep_id : string) : Prop :=
  exists dep_task,
    Dict.get q dep_id = Some dep_task /\
    (get_state dep_task = TaskState.FAILED \/
     (get_state dep_task = TaskState.COMPLETED /\
      exists dep_result,
        result dep_task = Some dep_result /\
        get_success dep_result = false)).

(** A dependency, taken alone, satisfies a condition. *)
Definition dep_meets (q : task_queue) (cond dep_id : string) : Prop :=
  exists dep_task,
    Dict.get q dep_id = Some dep_task /\
    evaluate_condition cond (get_state dep_task) (result dep_task)
    = Return true.

(** Every task's condition is one of the three kinds: the first check of
    [validate_conditional_graph]. *)
Definition conditions_valid (q : task_queue) : bool :=
  forallb
    (fun item => mem (get_condition (snd item)) ConditionType.valid_conditions)
    q.

(** The test that [get_ready_tasks_with_conditions] applies to an item. *)
Definition conditional_ready_item (q : task_queue) (item : string * task)
    : bool :=
  negb (claimed_or_done (get_state (snd item)))
  && match check_conditional_dependencies_satisfied (fst item) q
             (get_dependencies (snd item)) with
     | Return ok => ok
     | Raise _ => false
     end.

(** How many of the finished nodes are listed in [deps]. *)
Definition hits (deps done : list string) : nat :=
  List.length (filter (fun d => mem d deps) done).

(** The dependents that reach in-degree zero when [node] leaves the
    queue. *)
Definition released (g : task_graph) (node : string) (in_degree : Dict.t Z)
    (dependents : list string) : list string :=
  filter
    (fun x => mem node (deps_of g x) && Z.eqb (degree in_degree x - 1) 0)
    dependents.

(** Every node of [done] comes after all its dependencies. *)
Definition ordered (g : task_graph) (done : list string) : Prop :=
  forall i node,
    nth_error done i = Some node -> incl (deps_of g node) (firstn i done).

(** The state of Kahn's algorithm between two iterations: [done] are the
    nodes that left the queue, [pending] the nodes waiting in it. *)
Record kahn_inv (g : task_graph) (in_degree : Dict.t Z)
    (done pending : list string) : Prop := {
  inv_nodup : NoDup (done ++ pending);
  inv_nodes : incl (done ++ pending) (graph_nodes g);
  inv_degree : forall node,
    degree in_degree node
    = (Z.of_nat (List.length (deps_of g node))
       - Z.of_nat (hits (deps_of g node) done))%Z;
  inv_zero : forall node,
    In node (graph_nodes g) ->
    (In node (done ++ pending) <-> degree in_degree node = 0%Z);
  inv_deps : forall node,
    In node (done ++ pending) -> incl (deps_of g node) done;
  inv_order : ordered g done
}.

(** Every task of a batch has all its dependencies in earlier batches. *)
Definition layered (g : task_graph) (batches : list (list string)) : Prop :=
  forall k batch task_id,
    nth_error batches k = Some batch -> In task_id batch ->
    incl (deps_of g task_id) (List.concat (firstn k batches)).

(** A walk against the edges, from a node through nodes that satisfy
    [P]: each element of the list is a predecessor of the one before. *)
Fixpoint descending (R : string -> string -> Prop) (P : string -> Prop)
    (node : string) (walk : list string) : Prop :=
  match walk with
  | [] => True
  | d :: walk' => R d node /\ P d /\ descending R P d walk'
  end.

(** A depth for the nodes of [graph_diamond]. *)
Definition diamond_rank (node : string) : nat :=
  if String.eqb node "A" then 0
  else if String.eqb node "D" then 2
  else 1.

(** A depth for the nodes of [graph_repeated_dep]. *)
Definition repeated_rank (node : string) : nat :=
  if String.eqb node "A" then 0 else 1.

(** Every task of a batch after the first has a dependency in the batch
    just before. *)
Definition tight (g : task_graph) (batches : list (list string)) : Prop :=
  forall k prev batch task_id,
    nth_error batches k = Some prev ->
    nth_error batches (S k) = Some batch ->
    In task_id batch ->
    exists dep, In dep prev /\ In dep (deps_of g task_id).

(** The test of [dep_succeeded], decided. *)
Definition dep_ok (q : task_queue) (dep_id : string) : bool :=
  match Dict.get q dep_id with
  | None => false
  | Some dep_task =>
      String.eqb (get_state dep_task) TaskState.COMPLETED
      && match result dep_task with
         | Some dep_result => get_success dep_result
         | None => false
         end
  end.

(** A dependency on which [get_blocked_tasks] raises: a key of the queue
    in state [completed] whose result is [None]. *)
Definition dep_without_result (q : task_queue) (dep_id : string) : bool :=
  match Dict.get q dep_id with
  | None => false
  | Some dep_task =>
      String.eqb (get_state dep_task) TaskState.COMPLETED
      && match result dep_task with
         | Some _ => false
         | None => true
         end
  end.

(** The dependencies of a task that have not succeeded, in listed order. *)
Definition unmet_deps (q : task_queue) (task_info : task) : list string :=
  filter (fun dep_id => negb (dep_ok q dep_id)) (get_dependencies task_info).

(** The item is entered in the dictionary of blocked tasks. *)
Definition blocked_item (q : task_queue) (item : string * task) : bool :=
  negb (claimed_or_done (get_state (snd item)))
  && negb (is_empty (unmet_deps q (snd item))).

(** The item makes [get_blocked_tasks] raise. *)
Definition breaking_item (q : task_queue) (item : string * task) : bool :=
  negb (claimed_or_done (get_state (snd item)))
  && existsb (dep_without_result q) (get_dependencies (snd item)).

(** How many tasks carry the state [st]. *)
Definition count_state (q : task_queue) (st : string) : nat :=
  List.length (filter (fun item => String.eqb (get_state (snd item)) st) q).

(** A task entry passes both checks of [validate_conditional_graph]: its
    condition is one of the three kinds and each of its dependencies is a
    key of the queue. *)
Definition sound_item (q : task_queue) (item : string * task) : bool :=
  mem (get_condition (snd item)) ConditionType.valid_conditions
  && forallb (Dict.contains q) (get_dependencies (snd item)).

(** The test [get_conditional_successors] applies to an item before it
    files it under a path: the item lists the task, is in state pending,
    and its condition holds for the task's outcome. *)
Definition triggers (task_id task_state : string) (task_res : task_result)
    (item : string * task) : bool :=
  mem task_id (get_dependencies (snd item))
  && String.eqb (get_state (snd item)) "pending"
  && match evaluate_condition (get_condition (snd item)) task_state
             (Some task_res) with
     | Return ok => ok
     | Raise _ => false
     end.

(** The state [get_conditional_successors] derives from a result. *)
Definition outcome_state (task_res : task_result) : string :=
  if get_success task_res then "completed" else "failed".

(** The three tests of [simulate_execution] on a task when [failed_id]
    fails: it is reported as an error handler, as skipped, or, given the
    tasks skipped so far, as executed. *)
Definition handles (failed_id : string) (item : string * task) : bool :=
  mem failed_id (get_dependencies (snd item))
  && String.eqb (get_condition (snd item)) ConditionType.FAILURE.

Definition skips (failed_id : string) (item : string * task) : bool :=
  mem failed_id (get_dependencies (snd item))
  && (negb (String.eqb (get_condition (snd item)) ConditionType.FAILURE)
      && String.eqb (get_condition (snd item)) ConditionType.SUCCESS).

Definition runs (failed_id : string) (skipped_so_far : list string)
    (info : task) : bool :=
  if mem failed_id (get_dependencies info)
  then negb (String.eqb (get_condition info) ConditionType.FAILURE)
       && negb (String.eqb (get_condition info) ConditionType.SUCCESS)
  else negb (existsb (fun dep => mem dep (get_dependencies info))
               ([failed_id] ++ skipped_so_far))
       && mem (get_condition info)
            [ConditionType.SUCCESS; ConditionType.ALWAYS].

(** [dependent] lists [task_id] among its dependencies. *)
Definition feeds (q : task_queue) (task_id dependent : string) : Prop :=
  exists info,
    Dict.get q dependent = Some info /\ In task_id (get_dependencies info).

(** [dependent] lists [task_id] and has condition success or always: the
    edges [trace_success_path] follows. *)
Definition feeds_on_success (q : task_queue) (task_id dependent : string)
    : Prop :=
  exists info,
    Dict.get q dependent = Some info /\
    In task_id (get_dependencies info) /\
    (get_condition info = ConditionType.SUCCESS \/
     get_condition info = ConditionType.ALWAYS).

Definition has_condition (q : task_queue) (cond task_id : string) : Prop :=
  exists info, Dict.get q task_id = Some info /\ get_condition info = cond.

(** No task of the queue depends on itself, directly or through other
    tasks. *)
Definition acyclic_queue (q : task_queue) : Prop :=
  forall x, ~ clos_trans string (feeds q) x x.

(** The keys that [trace_success_path] has not visited yet. *)
Definition unvisited (q : task_queue) (visited : list string)
    : list string :=
  filter (fun k => negb (mem k visited)) (Dict.keys q).

(** The test of [trace_success_path] on an item of the queue: the item
    lists [task_id] and has condition success or always. *)
Definition follows (task_id : string) (item : string * task) : bool :=
  mem task_id (get_dependencies (snd item))
  && mem (get_condition (snd item))
       [ConditionType.SUCCESS; ConditionType.ALWAYS].

Definition success_edge (q : task_queue) (a b : string) : Prop :=
  exists info, In (b, info) q /\ follows a (b, info) = true.

(** The visited set and the path hold the same IDs. *)
Definition synced (st : success_trace) : Prop :=
  forall x, In x (visited_success st) <-> In x (success_so_far st).

(** [st'] extends the path of [st] by IDs that satisfy [P], all of whose
    successors are on the path of [st']. *)
Definition grown (q : task_queue) (P : string -> Prop)
    (st st' : success_trace) : Prop :=
  synced st' /\ NoDup (success_so_far st') /\
  exists added,
    success_so_far st' = success_so_far st ++ added /\
    forall x, In x added ->
              P x /\
              forall y, success_edge q x y -> In y (success_so_far st').

(** [always'] extends [always] by IDs of condition always that satisfy
    [P]. *)
Definition collected (q : task_queue) (P : string -> Prop)
    (always always' : list string) : Prop :=
  NoDup always' /\
  exists added,
    always' = always ++ added /\
    forall x, In x added ->
              P x /\ has_condition q ConditionType.ALWAYS x.

(** ** Concrete inputs used below *)

Definition queue_unknown_dep : task_queue :=
  [("A", mk_task (Some "pending") (Some []) None None);
   ("B", mk_task (Some "pending") (Some ["A"; "Z"]) None None)].

Definition queue_ready_sample : task_queue :=
  [("A", mk_task (Some "completed") (Some [])
           (Some (mk_result (Some true) (Some "test output"))) None);
   ("B", mk_task (Some "pending") (Some ["A"]) None None);
   ("C", mk_task (Some "pending") (Some ["A"]) None None)].

Definition queue_before : task_queue :=
  [("A", mk_task (Some "in_progress") (Some []) None None);
   ("B", mk_task (Some "pending") (Some ["A"]) None None);
   ("C", mk_task (Some "pending") (Some ["A"; "B"]) None None)].

Definition queue_after : task_queue :=
  [("A", mk_task (Some "completed") (Some [])
           (Some (mk_result (Some true) (Some "done"))) None);
   ("B", mk_task (Some "pending") (Some ["A"]) None None);
   ("C", mk_task (Some "pending") (Some ["A"; "B"]) None None)].


Definition queue_ready_label : task_queue :=
  [("A", mk_task (Some "ready") (Some []) None None)].

Definition queue_no_result : task_queue :=
  [("A", mk_task (Some "completed") (Some []) None None);
   ("B", mk_task (Some "pending") (Some ["A"]) None None)].

Definition queue_branches : task_queue :=
  [("A", mk_task (Some "completed") (Some [])
           (Some (mk_result (Some false) (Some "error message"))) None);
   ("B", mk_task (Some "pending") (Some ["A"]) None (Some "success"));
   ("C", mk_task (Some "pending") (Some ["A"]) None (Some "failure"));
   ("D", mk_task (Some "pending") (Some ["A"; "C"]) None (Some "failure"))].

Definition graph_two_cycle : task_graph := [("A", ["B"]); ("B", ["A"])].

Definition graph_root_then_cycle : task_graph :=
  [("A", []); ("B", ["A"; "C"]); ("C", ["B"])].

Definition graph_repeated_dep : task_graph := [("A", []); ("B", ["A"; "A"])].

Definition graph_diamond : task_graph :=
  [("A", []); ("B", ["A"]); ("C", ["A"]); ("D", ["B"; "C"])].

Definition graph_unlisted_root : task_graph :=
  [("B", ["A"]); ("C", ["D"; "B"])].

Definition queue_handlers : task_queue :=
  [("A", mk_task (Some "failed") (Some [])
           (Some (mk_result (Some false) (Some "error message"))) None);
   ("B", mk_task (Some "pending") (Some ["A"]) None (Some "success"));
   ("C", mk_task (Some "pending") (Some ["A"]) None (Some "failure"));
   ("D", mk_task (Some "pending") (Some ["B"]) None None);
   ("E", mk_task (Some "pending") (Some ["A"; "D"]) None None)].


(** A root followed by two tasks that wait for each other. *)
Definition queue_root_then_cycle : task_queue :=
  [("R", mk_task (Some "pending") (Some []) None None);
   ("A", mk_task (Some "pending") (Some ["R"; "B"]) None None);
   ("B", mk_task (Some "pending") (Some ["A"]) None (Some "success"))].

(** Every task of [queue_handlers] has a higher rank than the tasks it
    lists. *)
Definition handlers_rank (task_id : string) : nat :=
  if String.eqb task_id "A" then 0
  else if String.eqb task_id "B" then 1
  else if String.eqb task_id "C" then 1
  else if String.eqb task_id "D" then 2
  else 3.
(* ================================================================== *)
(** * Part II: properties *)
(* ================================================================== *)

(** ** Lists of strings *)

Lemma mem_In (x : string) (xs : list string) : mem x xs = true <-> In x xs.
Proof.
  unfold mem. rewrite existsb_exists. split.
  - intros [y [Hy Heq]]. apply String.eqb_eq in Heq. now subst.
  - intros H. exists x. split; [assumption | apply String.eqb_refl].
Qed.

Lemma mem_false (x : string) (xs : list string) :
  mem x xs = false <-> ~ In x xs.
Proof.
  rewrite <- mem_In. destruct (mem x xs); split; intros; congruence.
Qed.

Lemma distinct_NoDup (xs : list string) : distinct xs = true -> NoDup xs.
Proof.
  induction xs as [|x xs IH]; simpl; intros H.
  - constructor.
  - apply andb_true_iff in H as [Hx Hxs]. constructor.
    + apply mem_false. now apply negb_true_iff.
    + auto.
Qed.

(** Closes [NoDup xs] and [Dict.wf d] for a concrete list or dictionary. *)
Ltac distinct_by_computation := apply distinct_NoDup; reflexivity.

Lemma same_set_iff (xs ys : list string) :
  same_set xs ys = true <-> (forall x, In x xs <-> In x ys).
Proof.
  unfold same_set. rewrite andb_true_iff, !forallb_forall. split.
  - intros [H1 H2] x. split; intros H.
    + apply mem_In. auto.
    + apply mem_In. auto.
  - intros H. split; intros x Hx; apply mem_In; now apply H.
Qed.

(** A loop that appends the selected items to an accumulator. *)
Lemma fold_left_select {A : Type} (p : A -> bool) (h : A -> string)
    (xs : list A) (acc : list string) :
  fold_left (fun acc x => if p x then acc ++ [h x] else acc) xs acc
  = acc ++ map h (filter p xs).
Proof.
  revert acc. induction xs as [|x xs IH]; intros acc; simpl.
  - now rewrite app_nil_r.
  - rewrite IH. destruct (p x); simpl.
    + now rewrite <- app_assoc.
    + reflexivity.
Qed.

(** ** Dictionaries *)

Section DictFacts.
Context {V : Type}.
Implicit Types (d : Dict.t V) (k : string) (v : V).

Lemma get_Some_In d k v : Dict.get d k = Some v -> In (k, v) d.
Proof.
  induction d as [|[k' v'] d IH]; simpl; [discriminate|].
  destruct (String.eqb k k') eqn:E.
  - apply String.eqb_eq in E. intros [= ->]. subst. now left.
  - intros H. right. auto.
Qed.

Lemma get_None_keys d k : Dict.get d k = None <-> ~ In k (Dict.keys d).
Proof.
  induction d as [|[k' v'] d IH]; simpl.
  - tauto.
  - destruct (String.eqb k k') eqn:E.
    + apply String.eqb_eq in E. subst. split; [discriminate | tauto].
    + apply String.eqb_neq in E. rewrite IH. split.
      * intros H [H1 | H1]; [congruence | tauto].
      * tauto.
Qed.

Lemma get_Some_keys d k v : Dict.get d k = Some v -> In k (Dict.keys d).
Proof.
  intros H. apply get_Some_In in H.
  unfold Dict.keys. now apply (in_map fst) in H.
Qed.

Lemma keys_get d k : In k (Dict.keys d) -> exists v, Dict.get d k = Some v.
Proof.
  intros H. destruct (Dict.get d k) eqn:E.
  - now exists v.
  - apply get_None_keys in E. contradiction.
Qed.

Lemma In_get d k v : Dict.wf d -> In (k, v) d -> Dict.get d k = Some v.
Proof.
  unfold Dict.wf. induction d as [|[k' v'] d IH]; simpl; [tauto|].
  intros Hnd [H | H].
  - injection H as -> ->. now rewrite String.eqb_refl.
  - inversion Hnd as [|? ? Hnotin Hnd']; subst.
    destruct (String.eqb k k') eqn:E.
    + apply String.eqb_eq in E. subst. exfalso. apply Hnotin.
      now apply (in_map fst) in H.
    + auto.
Qed.

Lemma contains_keys d k : Dict.contains d k = true <-> In k (Dict.keys d).
Proof.
  unfold Dict.contains. destruct (Dict.get d k) eqn:E.
  - split; [intros _; eapply get_Some_keys; eassumption | reflexivity].
  - apply get_None_keys in E. split; [discriminate | contradiction].
Qed.

Lemma get_set_eq d k v : Dict.get (Dict.set d k v) k = Some v.
Proof.
  induction d as [|[k' v'] d IH]; simpl.
  - now rewrite String.eqb_refl.
  - destruct (String.eqb k k') eqn:E; simpl; rewrite E; auto.
Qed.

Lemma get_set_neq d k k0 v :
  k0 <> k -> Dict.get (Dict.set d k v) k0 = Dict.get d k0.
Proof.
  intros Hne. apply String.eqb_neq in Hne.
  induction d as [|[k' v'] d IH]; simpl.
  - now rewrite Hne.
  - destruct (String.eqb k k') eqn:E; simpl.
    + apply String.eqb_eq in E. subst k'. now rewrite Hne.
    + now rewrite IH.
Qed.

Lemma keys_set_present d k v :
  In k (Dict.keys d) -> Dict.keys (Dict.set d k v) = Dict.keys d.
Proof.
  induction d as [|[k' v'] d IH]; simpl; [tauto|].
  intros H. destruct (String.eqb k k') eqn:E; simpl.
  - reflexivity.
  - f_equal. apply IH. destruct H as [H | H]; [|assumption].
    apply String.eqb_neq in E. congruence.
Qed.

Lemma keys_set_absent d k v :
  ~ In k (Dict.keys d) -> Dict.keys (Dict.set d k v) = Dict.keys d ++ [k].
Proof.
  induction d as [|[k' v'] d IH]; simpl; [reflexivity|].
  intros H. destruct (String.eqb k k') eqn:E; simpl.
  - apply String.eqb_eq in E. subst. tauto.
  - f_equal. apply IH. tauto.
Qed.

Lemma wf_set d k v : Dict.wf d -> Dict.wf (Dict.set d k v).
Proof.
  unfold Dict.wf. intros H.
  destruct (in_dec string_dec k (Dict.keys d)) as [Hin | Hout].
  - now rewrite keys_set_present.
  - rewrite keys_set_absent by assumption.
    apply NoDup_app; [assumption | repeat constructor; simpl; tauto |].
    intros x Hx [<- | []]. contradiction.
Qed.

End DictFacts.

(** ** The ready-set evaluator *)

Lemma claimed_or_done_false (st : string) :
  claimed_or_done st = false <-> claimable_state st.
Proof.
  unfold claimed_or_done, claimable_state. rewrite mem_false. simpl.
  intuition congruence.
Qed.

Lemma deps_all_succeeded_iff (q : task_queue) (deps : list string) :
  deps_all_succeeded q deps = true <->
  (forall dep_id, In dep_id deps -> dep_succeeded q dep_id).
Proof.
  induction deps as [|d deps IH]; simpl.
  - split; [intros _ ? [] | reflexivity].
  - destruct (Dict.get q d) as [dep_task|] eqn:Hget.
    + destruct (String.eqb (get_state dep_task) TaskState.COMPLETED) eqn:Hst;
        simpl.
      * destruct (result dep_task) as [r|] eqn:Hres.
        -- destruct (get_success r) eqn:Hok; simpl.
           ++ rewrite IH. split.
              ** intros H x [<- | Hx]; [|now apply H].
                 exists dep_task, r. apply String.eqb_eq in Hst. tauto.
              ** intros H x Hx. apply H. now right.
           ++ split; [discriminate|]. intros H.
              destruct (H d (or_introl eq_refl)) as (t' & r' & H1 & _ & H3 & H4).
              congruence.
        -- split; [discriminate|]. intros H.
           destruct (H d (or_introl eq_refl)) as (t' & r' & H1 & _ & H3 & _).
           congruence.
      * split; [discriminate|]. intros H.
        destruct (H d (or_introl eq_refl)) as (t' & r' & H1 & H2 & _).
        apply String.eqb_neq in Hst. congruence.
    + split; [discriminate|]. intros H.
      destruct (H d (or_introl eq_refl)) as (t' & r' & H1 & _). congruence.
Qed.

Lemma check_dependencies_iff (task_id : string) (q : task_queue)
    (deps : list string) :
  _check_dependencies_satisfied task_id q deps = true <->
  (forall dep_id, In dep_id deps -> dep_succeeded q dep_id).
Proof.
  unfold _check_dependencies_satisfied. destruct deps as [|d deps].
  - simpl. split; [intros _ ? [] | reflexivity].
  - simpl is_empty. cbv iota. apply deps_all_succeeded_iff.
Qed.

Lemma ready_loop_select (q : task_queue) (items : list (string * task))
    (ready : list string) :
  fold_left (ready_step q) items ready
  = ready ++ map fst (filter (ready_item q) items).
Proof.
  revert ready. induction items as [|[task_id task_info] items IH];
    intros ready; simpl.
  - now rewrite app_nil_r.
  - rewrite IH. unfold ready_item. simpl.
    destruct (claimed_or_done (get_state task_info)); simpl; [reflexivity|].
    destruct (_check_dependencies_satisfied _ _ _); simpl.
    + now rewrite <- app_assoc.
    + reflexivity.
Qed.

Lemma get_ready_tasks_select (q : task_queue) :
  get_ready_tasks q = map fst (filter (ready_item q) q).
Proof.
  unfold get_ready_tasks. destruct q as [|item q']; [reflexivity|].
  simpl is_empty. cbv iota. apply ready_loop_select.
Qed.

Lemma NoDup_keys_filter {V : Type} (p : string * V -> bool) (d : Dict.t V) :
  Dict.wf d -> NoDup (map fst (filter p d)).
Proof.
  unfold Dict.wf, Dict.keys. induction d as [|[k v] d IH]; simpl; intros H.
  - constructor.
  - inversion H as [|? ? Hnotin Hnd]; subst.
    destruct (p (k, v)); simpl; [|auto].
    constructor; [|auto].
    intros Hin. apply Hnotin. apply in_map_iff in Hin as [[k' v'] [Hk Hin]].
    apply filter_In in Hin as [Hin _]. simpl in Hk. subst.
    now apply (in_map fst) in Hin.
Qed.

Lemma In_get_ready_tasks (q : task_queue) (task_id : string) :
  Dict.wf q ->
  (In task_id (get_ready_tasks q) <->
   exists task_info,
     Dict.get q task_id = Some task_info /\
     claimable_state (get_state task_info) /\
     (forall dep_id, In dep_id (get_dependencies task_info) ->
                     dep_succeeded q dep_id)).
Proof.
  intros Hwf. rewrite get_ready_tasks_select, in_map_iff. split.
  - intros [[k info] [Hk Hin]]. simpl in Hk. subst k.
    apply filter_In in Hin as [Hin Hp]. unfold ready_item in Hp. simpl in Hp.
    apply andb_true_iff in Hp as [Hst Hdeps].
    exists info. split; [now apply In_get|]. split.
    + apply claimed_or_done_false. now apply negb_true_iff.
    + exact (proj1 (check_dependencies_iff _ _ _) Hdeps).
  - intros (info & Hget & Hst & Hdeps). exists (task_id, info).
    split; [reflexivity|]. apply filter_In. split; [now apply get_Some_In|].
    unfold ready_item. simpl. apply andb_true_iff. split.
    + apply negb_true_iff. now apply claimed_or_done_false.
    + now apply check_dependencies_iff.
Qed.

(** C2. For a task queue, [get_ready_tasks] returns exactly the set of
    task IDs whose state is none of in_progress, completed, failed and all
    of whose dependencies are in state completed with a result whose
    success flag is true; the list holds no ID twice, and a task without
    dependencies in such a state is always in it. *)
Theorem get_ready_tasks_exact (q : task_queue) :
  Dict.wf q ->
  NoDup (get_ready_tasks q) /\
  (forall task_id,
     In task_id (get_ready_tasks q) <->
     exists task_info,
       Dict.get q task_id = Some task_info /\
       claimable_state (get_state task_info) /\
       (forall dep_id, In dep_id (get_dependencies task_info) ->
                       dep_succeeded q dep_id)) /\
  (forall task_id task_info,
     Dict.get q task_id = Some task_info ->
     get_dependencies task_info = [] ->
     claimable_state (get_state task_info) ->
     In task_id (get_ready_tasks q)).
Proof.
  intros Hwf. split; [|split].
  - rewrite get_ready_tasks_select. now apply NoDup_keys_filter.
  - intros task_id. now apply In_get_ready_tasks.
  - intros task_id task_info Hget Hdeps Hst.
    apply In_get_ready_tasks; [assumption|].
    exists task_info. repeat split; try assumption; try apply Hst.
    rewrite Hdeps. intros ? [].
Qed.

Lemma get_ready_tasks_exact_witness :
  Dict.wf queue_ready_sample /\
  NoDup (get_ready_tasks queue_ready_sample) /\
  (forall task_id,
     In task_id (get_ready_tasks queue_ready_sample) <->
     exists task_info,
       Dict.get queue_ready_sample task_id = Some task_info /\
       claimable_state (get_state task_info) /\
       (forall dep_id, In dep_id (get_dependencies task_info) ->
                       dep_succeeded queue_ready_sample dep_id)) /\
  (forall task_id task_info,
     Dict.get queue_ready_sample task_id = Some task_info ->
     get_dependencies task_info = [] ->
     claimable_state (get_state task_info) ->
     In task_id (get_ready_tasks queue_ready_sample)).
Proof.
  assert (Hwf : Dict.wf queue_ready_sample)
    by distinct_by_computation.
  split; [exact Hwf|].
  exact (get_ready_tasks_exact queue_ready_sample Hwf).
Defined.

(** ** Unknown dependencies *)

Lemma missing_errors_incl (q : task_queue) (task_id : string)
    (deps : list string) (acc : list string) :
  incl acc
    (fold_left
       (fun errs dep_id =>
          if negb (Dict.contains q dep_id)
          then errs ++ [missing_dependency_error task_id dep_id]
          else errs) deps acc).
Proof.
  revert acc. induction deps as [|d deps IH]; intros acc; simpl.
  - apply incl_refl.
  - eapply incl_tran; [|apply IH].
    destruct (negb (Dict.contains q d)); [apply incl_appl|]; apply incl_refl.
Qed.

Lemma missing_errors_reported (q : task_queue) (task_id dep_id : string)
    (deps : list string) (acc : list string) :
  In dep_id deps -> Dict.contains q dep_id = false ->
  In (missing_dependency_error task_id dep_id)
    (fold_left
       (fun errs dep_id =>
          if negb (Dict.contains q dep_id)
          then errs ++ [missing_dependency_error task_id dep_id]
          else errs) deps acc).
Proof.
  revert acc. induction deps as [|d deps IH]; intros acc; simpl; [tauto|].
  intros [-> | Hin] Hmiss.
  - rewrite Hmiss. simpl. apply missing_errors_incl.
    apply in_or_app. right. now left.
  - now apply IH.
Qed.

Lemma validation_step_incl (q : task_queue) (acc : list string)
    (item : string * task) :
  incl acc (validation_step q acc item).
Proof.
  destruct item as [task_id task_info]. unfold validation_step.
  eapply incl_tran; [|apply missing_errors_incl].
  destruct (negb (mem _ _)); [apply incl_appl|]; apply incl_refl.
Qed.

Lemma validation_loop_incl (q : task_queue) (items : list (string * task))
    (acc : list string) :
  incl acc (fold_left (validation_step q) items acc).
Proof.
  revert acc. induction items as [|item items IH]; intros acc; simpl.
  - apply incl_refl.
  - eapply incl_tran; [apply validation_step_incl | apply IH].
Qed.

Lemma validation_loop_reports (q : task_queue) (items : list (string * task))
    (acc : list string) (task_id dep_id : string) (task_info : task) :
  In (task_id, task_info) items ->
  In dep_id (get_dependencies task_info) ->
  Dict.contains q dep_id = false ->
  In (missing_dependency_error task_id dep_id)
    (fold_left (validation_step q) items acc).
Proof.
  revert acc. induction items as [|item items IH]; intros acc; simpl; [tauto|].
  intros [-> | Hin] Hdep Hmiss.
  - apply validation_loop_incl. unfold validation_step.
    now apply missing_errors_reported.
  - now apply IH.
Qed.

(** C10. When a task lists a dependency that is not a key of the queue,
    [get_ready_tasks] (a total function: nothing in it raises) leaves the
    task out of the ready set, and [validate_conditional_graph] is the one
    that reports the unknown ID: it returns [valid = False] with the
    message for that task and dependency among its errors. *)
Theorem unknown_dependency_excluded (q : task_queue)
    (task_id dep_id : string) (task_info : task) :
  Dict.wf q ->
  Dict.get q task_id = Some task_info ->
  In dep_id (get_dependencies task_info) ->
  Dict.get q dep_id = None ->
  ~ In task_id (get_ready_tasks q) /\
  valid (validate_conditional_graph q) = false /\
  In (missing_dependency_error task_id dep_id)
     (errors (validate_conditional_graph q)).
Proof.
  intros Hwf Hget Hdep Hmiss. split; [|split].
  - intros Hin. apply In_get_ready_tasks in Hin; [|assumption].
    destruct Hin as (info & Hget' & _ & Hdeps).
    rewrite Hget in Hget'. injection Hget' as <-.
    destruct (Hdeps dep_id Hdep) as (dep_task & r & Hd & _). congruence.
  - assert (Hin : In (missing_dependency_error task_id dep_id)
                    (errors (validate_conditional_graph q))).
    { simpl. eapply validation_loop_reports; eauto using get_Some_In.
      unfold Dict.contains. now rewrite Hmiss. }
    simpl in *. destruct (fold_left (validation_step q) q []); [contradiction|].
    reflexivity.
  - simpl. eapply validation_loop_reports; eauto using get_Some_In.
    unfold Dict.contains. now rewrite Hmiss.
Qed.

Lemma unknown_dependency_excluded_witness :
  Dict.wf queue_unknown_dep /\
  ~ In "B" (get_ready_tasks queue_unknown_dep) /\
  valid (validate_conditional_graph queue_unknown_dep) = false /\
  In (missing_dependency_error "B" "Z")
     (errors (validate_conditional_graph queue_unknown_dep)).
Proof.
  assert (Hwf : Dict.wf queue_unknown_dep)
    by distinct_by_computation.
  split; [exact Hwf|].
  apply (unknown_dependency_excluded queue_unknown_dep "B" "Z"
           (mk_task (Some "pending") (Some ["A"; "Z"]) None None)).
  - exact Hwf.
  - reflexivity.
  - simpl. tauto.
  - reflexivity.
Defined.

(** ** Incremental evaluation *)

Lemma dependent_loop_In (updated : task_queue) (task_id : string)
    (items : list (string * task)) (acc : list string) (d : string) :
  In d (fold_left (dependent_step updated task_id) items acc) ->
  In d acc \/
  exists info,
    In (d, info) items /\ d <> task_id /\
    In task_id (get_dependencies info) /\
    get_state info = TaskState.PENDING /\
    _check_dependencies_satisfied d updated (get_dependencies info) = true.
Proof.
  revert acc. induction items as [|[k info] items IH]; intros acc; simpl.
  - tauto.
  - intros H. apply IH in H as [H | (info' & Hin & Hrest)].
    + destruct (String.eqb k task_id) eqn:Ek; [tauto|].
      destruct (mem task_id (get_dependencies info)) eqn:Hm; [|tauto].
      destruct (String.eqb (get_state info) TaskState.PENDING) eqn:Hst;
        [|tauto].
      destruct (_check_dependencies_satisfied k updated _) eqn:Hc; [|tauto].
      apply in_app_or in H as [H | [<- | []]]; [tauto|].
      right. exists info. apply String.eqb_neq in Ek.
      apply String.eqb_eq in Hst. apply mem_In in Hm. tauto.
    + right. exists info'. tauto.
Qed.

Lemma incremental_loop_In (prev updated : task_queue)
    (items : list (string * task)) (acc : list string) (d : string) :
  In d (fold_left (completed_step prev updated) items acc) ->
  In d acc \/
  exists task_id task_info info,
    In (task_id, task_info) items /\
    prev_state_of prev task_id <> get_state task_info /\
    get_state task_info = TaskState.COMPLETED /\
    In (d, info) updated /\ d <> task_id /\
    In task_id (get_dependencies info) /\
    get_state info = TaskState.PENDING /\
    _check_dependencies_satisfied d updated (get_dependencies info) = true.
Proof.
  revert acc. induction items as [|[k kinfo] items IH]; intros acc; simpl.
  - tauto.
  - intros H. apply IH in H as [H | (t & ti & info & Hin & Hrest)].
    + destruct (String.eqb (prev_state_of prev k) (get_state kinfo)) eqn:E1;
        simpl in H; [tauto|].
      destruct (String.eqb (get_state kinfo) TaskState.COMPLETED) eqn:E2;
        simpl in H; [|tauto].
      apply dependent_loop_In in H as [H | (info & Hin & Hrest)]; [tauto|].
      right. exists k, kinfo, info. apply String.eqb_neq in E1.
      apply String.eqb_eq in E2. tauto.
    + right. exists t, ti, info. tauto.
Qed.

(** C5. When two queues differ by exactly one task's transition to
    completed, every task reported by [get_ready_tasks_incremental] is
    ready in the queue after the transition and was not ready before:
    the report is a subset of the full evaluation's newly ready tasks. *)
Theorem incremental_subset_of_full (before after : task_queue)
    (task_id : string) :
  Dict.wf before -> Dict.wf after ->
  completes_one before after task_id ->
  forall d,
    In d (get_ready_tasks_incremental before after) ->
    In d (get_ready_tasks after) /\ ~ In d (get_ready_tasks before).
Proof.
  intros Hwb Hwa (Hkeys & Hsame & Hprev & _) d Hd.
  apply incremental_loop_In in Hd as [[] | Hd].
  destruct Hd as (t & ti & info & Hti & Hchg & Hdone & Hinfo & Hne & Hdep
                  & Hst & Hck).
  assert (Ht : t = task_id).
  { destruct (string_dec t task_id) as [|Hneq]; [assumption|].
    exfalso. apply Hchg. unfold prev_state_of.
    rewrite <- (Hsame t Hneq). now rewrite (In_get _ _ _ Hwa Hti). }
  subst t. split.
  - apply In_get_ready_tasks; [assumption|]. exists info.
    split; [now apply In_get|]. split.
    + apply claimed_or_done_false. now rewrite Hst.
    + exact (proj1 (check_dependencies_iff _ _ _) Hck).
  - intros Hin. apply In_get_ready_tasks in Hin; [|assumption].
    destruct Hin as (info' & Hget & _ & Hdeps).
    rewrite <- (Hsame d Hne), (In_get _ _ _ Hwa Hinfo) in Hget.
    injection Hget as <-.
    destruct (Hdeps task_id Hdep) as (dt & r & Hg & Hs & _).
    apply Hprev. unfold prev_state_of. now rewrite Hg.
Qed.

Lemma incremental_subset_of_full_witness :
  Dict.wf queue_before /\ Dict.wf queue_after /\
  completes_one queue_before queue_after "A" /\
  In "B" (get_ready_tasks_incremental queue_before queue_after) /\
  In "B" (get_ready_tasks queue_after) /\
  ~ In "B" (get_ready_tasks queue_before).
Proof.
  assert (Hwb : Dict.wf queue_before) by distinct_by_computation.
  assert (Hwa : Dict.wf queue_after) by distinct_by_computation.
  assert (Hone : completes_one queue_before queue_after "A").
  { split; [reflexivity|]. split; [|split].
    - intros k Hk. apply String.eqb_neq in Hk. simpl. now rewrite Hk.
    - discriminate.
    - eexists. split; reflexivity. }
  assert (Hin : In "B" (get_ready_tasks_incremental queue_before queue_after))
    by (simpl; tauto).
  split; [exact Hwb|]. split; [exact Hwa|]. split; [exact Hone|].
  split; [exact Hin|].
  exact (incremental_subset_of_full queue_before queue_after "A"
           Hwb Hwa Hone "B" Hin).
Defined.

(** ** State updates *)




(** ** Validation of a claimed ready list *)

(** When every task that [get_ready_tasks] reports is in state
    [pending], the validator accepts the report. *)
Lemma validate_ready_state_accepts_pending (q : task_queue) :
  Dict.wf q ->
  (forall task_id task_info,
     In task_id (get_ready_tasks q) ->
     Dict.get q task_id = Some task_info ->
     get_state task_info = TaskState.PENDING) ->
  validate_ready_state q (get_ready_tasks q) = true.
Proof.
  intros Hwf Hpending. unfold validate_ready_state.
  replace (same_set (get_ready_tasks q) (get_ready_tasks q)) with true
    by (symmetry; apply same_set_iff; tauto).
  cbn [negb].
  assert (H : forall claimed,
            incl claimed (get_ready_tasks q) ->
            ready_claims_ok q claimed = true).
  { induction claimed as [|t claimed IH]; intros Hincl; [reflexivity|].
    assert (Ht : In t (get_ready_tasks q)) by (apply Hincl; now left).
    destruct (proj1 (In_get_ready_tasks q t Hwf) Ht)
      as (info & Hget & _ & Hdeps).
    cbn [ready_claims_ok]. rewrite Hget.
    rewrite (Hpending t info Ht Hget). cbn [negb String.eqb].
    replace (_check_dependencies_satisfied t q (get_dependencies info))
      with true by (symmetry; now apply check_dependencies_iff).
    apply IH. intros x Hx. apply Hincl. now right. }
  apply H, incl_refl.
Qed.

(** C9 fails at the queue whose only task carries the state [ready]:
    [get_ready_tasks] reports the task, and [validate_ready_state]
    rejects that report because the task's state is not [pending]. *)
Theorem validate_ready_state_rejects_ready_label :
  get_ready_tasks queue_ready_label = ["A"] /\
  validate_ready_state queue_ready_label (get_ready_tasks queue_ready_label)
  = false.
Proof. split; reflexivity. Qed.

(** ** Dependencies without a result *)

(** C8 fails at a queue with a completed dependency whose result is
    [None]: the two evaluators return, [get_blocked_tasks] raises
    [AttributeError]. *)
Theorem get_blocked_tasks_raises_without_result :
  get_ready_tasks queue_no_result = [] /\
  get_ready_tasks_with_conditions queue_no_result = Return ["B"] /\
  get_blocked_tasks queue_no_result = Raise AttributeError.
Proof. repeat split; reflexivity. Qed.

(** ** The conditional evaluator *)

Lemma evaluate_condition_returns (cond st : string)
    (res : option task_result) :
  In cond ConditionType.valid_conditions ->
  exists ok, evaluate_condition cond st res = Return ok.
Proof.
  unfold evaluate_condition.
  intros [<- | [<- | [<- | []]]]; simpl.
  - destruct (negb (String.eqb st TaskState.COMPLETED)); [eauto|].
    destruct res; eauto.
  - destruct (String.eqb st TaskState.FAILED); [eauto|].
    destruct (String.eqb st TaskState.COMPLETED), res; eauto.
  - eauto.
Qed.

Lemma evaluate_condition_true_terminal (cond st : string)
    (res : option task_result) :
  evaluate_condition cond st res = Return true ->
  mem st [TaskState.COMPLETED; TaskState.FAILED] = true.
Proof.
  unfold evaluate_condition.
  destruct (String.eqb cond ConditionType.ALWAYS); [congruence|].
  destruct (String.eqb cond ConditionType.SUCCESS).
  - destruct (String.eqb st TaskState.COMPLETED) eqn:E; simpl;
      [|discriminate].
    intros _. apply String.eqb_eq in E. subst. reflexivity.
  - destruct (String.eqb cond ConditionType.FAILURE); [|discriminate].
    destruct (String.eqb st TaskState.FAILED) eqn:E1.
    + intros _. apply String.eqb_eq in E1. subst. reflexivity.
    + destruct (String.eqb st TaskState.COMPLETED) eqn:E2.
      * intros _. apply String.eqb_eq in E2. subst. reflexivity.
      * discriminate.
Qed.

Lemma evaluate_failure_iff (st : string) (res : option task_result) :
  evaluate_condition ConditionType.FAILURE st res = Return true <->
  st = TaskState.FAILED \/
  (st = TaskState.COMPLETED /\
   exists r, res = Some r /\ get_success r = false).
Proof.
  unfold evaluate_condition. simpl.
  destruct (String.eqb st TaskState.FAILED) eqn:E1.
  - apply String.eqb_eq in E1. tauto.
  - apply String.eqb_neq in E1.
    destruct (String.eqb st TaskState.COMPLETED) eqn:E2.
    + apply String.eqb_eq in E2. destruct res as [r|].
      * split.
        -- intros [= H]. apply negb_true_iff in H. right. eauto.
        -- intros [H | (_ & r' & [= <-] & H)]; [contradiction|].
           now rewrite H.
      * split; [discriminate|].
        intros [H | (_ & r' & H & _)]; [contradiction | discriminate].
    + apply String.eqb_neq in E2. split; [destruct res; discriminate|].
      intros [H | (H & _)]; contradiction.
Qed.

Lemma conditional_deps_loop_true (q : task_queue) (cond : string)
    (deps : list string) :
  conditional_deps_loop q cond deps = Return true <->
  (forall dep_id, In dep_id deps -> dep_meets q cond dep_id).
Proof.
  induction deps as [|d deps IH]; cbn [conditional_deps_loop].
  - split; [intros _ ? [] | reflexivity].
  - destruct (Dict.get q d) as [dep_task|] eqn:Hget.
    + destruct (evaluate_condition cond (get_state dep_task)
                  (result dep_task)) as [[|]|e] eqn:Hev.
      * rewrite (evaluate_condition_true_terminal _ _ _ Hev). simpl.
        rewrite IH. split.
        -- intros H x [<- | Hx]; [|now apply H]. now exists dep_task.
        -- intros H x Hx. apply H. now right.
      * assert (Hno : ~ dep_meets q cond d).
        { intros (t' & Hg & He). congruence. }
        destruct (negb (mem _ _)); simpl;
          (split; [discriminate | intros H; exfalso; apply Hno, H; now left]).
      * assert (Hno : ~ dep_meets q cond d).
        { intros (t' & Hg & He). congruence. }
        destruct (negb (mem _ _)); simpl;
          (split; [discriminate | intros H; exfalso; apply Hno, H; now left]).
    + split; [discriminate|]. intros H.
      destruct (H d (or_introl eq_refl)) as (t' & Hg & _). congruence.
Qed.

Lemma conditional_deps_loop_returns (q : task_queue) (cond : string)
    (deps : list string) :
  In cond ConditionType.valid_conditions ->
  exists ok, conditional_deps_loop q cond deps = Return ok.
Proof.
  intros Hc. induction deps as [|d deps IH]; cbn [conditional_deps_loop];
    [eauto|].
  destruct (Dict.get q d) as [dep_task|]; [|eauto].
  destruct (negb (mem _ _)); [eauto|].
  destruct (evaluate_condition_returns cond (get_state dep_task)
              (result dep_task) Hc) as [ok ->]. simpl.
  destruct ok; simpl; eauto.
Qed.

Lemma conditions_valid_condition_of (q : task_queue) (task_id : string) :
  conditions_valid q = true ->
  In (condition_of q task_id) ConditionType.valid_conditions.
Proof.
  unfold conditions_valid, condition_of. rewrite forallb_forall. intros H.
  destruct (Dict.get q task_id) as [info|] eqn:Hget.
  - apply get_Some_In in Hget. apply H in Hget. now apply mem_In in Hget.
  - simpl. tauto.
Qed.

Lemma check_conditional_returns (q : task_queue) (task_id : string)
    (deps : list string) :
  conditions_valid q = true ->
  exists ok,
    check_conditional_dependencies_satisfied task_id q deps = Return ok.
Proof.
  intros H. unfold check_conditional_dependencies_satisfied.
  destruct (is_empty deps); [eauto|].
  apply conditional_deps_loop_returns.
  now apply conditions_valid_condition_of.
Qed.

Lemma check_conditional_true (q : task_queue) (task_id : string)
    (deps : list string) :
  check_conditional_dependencies_satisfied task_id q deps = Return true <->
  (forall dep_id, In dep_id deps ->
                  dep_meets q (condition_of q task_id) dep_id).
Proof.
  unfold check_conditional_dependencies_satisfied. destruct deps as [|d deps].
  - simpl. split; [intros _ ? [] | reflexivity].
  - simpl is_empty. cbv iota. apply conditional_deps_loop_true.
Qed.

Lemma conditional_ready_loop_select (q : task_queue)
    (items : list (string * task)) (ready : list string) :
  conditions_valid q = true ->
  conditional_ready_loop q items ready
  = Return (ready ++ map fst (filter (conditional_ready_item q) items)).
Proof.
  intros Hv. revert ready.
  induction items as [|[task_id task_info] items IH]; intros ready; simpl.
  - now rewrite app_nil_r.
  - unfold conditional_ready_item. simpl.
    destruct (claimed_or_done (get_state task_info)); simpl; [apply IH|].
    destruct (check_conditional_returns q task_id
                (get_dependencies task_info) Hv) as [ok ->]. simpl.
    destruct ok; rewrite IH; simpl; [now rewrite <- app_assoc | reflexivity].
Qed.

Lemma get_ready_tasks_with_conditions_select (q : task_queue) :
  conditions_valid q = true ->
  get_ready_tasks_with_conditions q
  = Return (map fst (filter (conditional_ready_item q) q)).
Proof.
  intros Hv. unfold get_ready_tasks_with_conditions.
  destruct q as [|item q'] eqn:Hq; [reflexivity|].
  simpl is_empty. cbv iota. rewrite <- Hq in *.
  now rewrite conditional_ready_loop_select.
Qed.

Lemma In_conditional_ready (q : task_queue) (task_id : string)
    (task_info : task) :
  Dict.wf q ->
  Dict.get q task_id = Some task_info ->
  (In task_id (map fst (filter (conditional_ready_item q) q)) <->
   claimable_state (get_state task_info) /\
   (forall dep_id, In dep_id (get_dependencies task_info) ->
                   dep_meets q (get_condition task_info) dep_id)).
Proof.
  intros Hwf Hget.
  assert (Hcond : condition_of q task_id = get_condition task_info)
    by (unfold condition_of; now rewrite Hget).
  rewrite in_map_iff. split.
  - intros [[k info] [Hk Hin]]. simpl in Hk. subst k.
    apply filter_In in Hin as [Hin Hp].
    rewrite (In_get _ _ _ Hwf Hin) in Hget. injection Hget as ->.
    unfold conditional_ready_item in Hp. simpl in Hp.
    apply andb_true_iff in Hp as [Hst Hdeps]. split.
    + apply claimed_or_done_false. now apply negb_true_iff.
    + rewrite <- Hcond. apply check_conditional_true.
      destruct (check_conditional_dependencies_satisfied _ _ _);
        [now subst | discriminate].
  - intros [Hst Hdeps]. exists (task_id, task_info).
    split; [reflexivity|]. apply filter_In. split; [now apply get_Some_In|].
    unfold conditional_ready_item. simpl. apply andb_true_iff. split.
    + apply negb_true_iff. now apply claimed_or_done_false.
    + rewrite <- Hcond in Hdeps. apply check_conditional_true in Hdeps.
      now rewrite Hdeps.
Qed.

Lemma conditional_ready_loop_result (q : task_queue)
    (items : list (string * task)) (ready result : list string) :
  conditional_ready_loop q items ready = Return result ->
  result = ready ++ map fst (filter (conditional_ready_item q) items).
Proof.
  revert ready. induction items as [|[task_id task_info] items IH];
    intros ready; simpl.
  - intros [= <-]. now rewrite app_nil_r.
  - unfold conditional_ready_item. simpl.
    destruct (claimed_or_done (get_state task_info)); simpl; [apply IH|].
    destruct (check_conditional_dependencies_satisfied task_id q
                (get_dependencies task_info)) as [[|]|e]; simpl.
    + intros H. apply IH in H. now rewrite <- app_assoc in H.
    + apply IH.
    + discriminate.
Qed.

Lemma get_ready_tasks_with_conditions_result (q : task_queue)
    (ready : list string) :
  get_ready_tasks_with_conditions q = Return ready ->
  ready = map fst (filter (conditional_ready_item q) q).
Proof.
  unfold get_ready_tasks_with_conditions.
  destruct q as [|item q'] eqn:Hq; [now intros [= <-]|].
  simpl is_empty. cbv iota. rewrite <- Hq in *.
  apply conditional_ready_loop_result.
Qed.

(** C3. [get_ready_tasks_with_conditions] returns on every queue whose
    conditions are all of the three kinds, and whenever it returns, a task
    with condition FAILURE is in the returned list iff its state is none
    of in_progress, completed, failed and every one of its dependencies is
    in state failed, or in state completed with a false success flag (read
    as the code reads it, absent meaning false); and, for any condition, a
    task is in the list iff its state is such and every one of its
    dependencies, taken alone, satisfies the task's one condition. *)
Theorem conditional_ready_per_dependency (q : task_queue) :
  Dict.wf q ->
  (conditions_valid q = true ->
   exists ready, get_ready_tasks_with_conditions q = Return ready) /\
  (forall ready,
     get_ready_tasks_with_conditions q = Return ready ->
     (forall task_id task_info,
        Dict.get q task_id = Some task_info ->
        get_condition task_info = ConditionType.FAILURE ->
        (In task_id ready <->
         claimable_state (get_state task_info) /\
         (forall dep_id, In dep_id (get_dependencies task_info) ->
                         dep_failed q dep_id))) /\
     (forall task_id task_info,
        Dict.get q task_id = Some task_info ->
        (In task_id ready <->
         claimable_state (get_state task_info) /\
         (forall dep_id, In dep_id (get_dependencies task_info) ->
                         dep_meets q (get_condition task_info) dep_id)))).
Proof.
  intros Hwf. split.
  - intros Hv. eexists. now apply get_ready_tasks_with_conditions_select.
  - intros ready Hrun.
    apply get_ready_tasks_with_conditions_result in Hrun. subst ready. split.
    + intros task_id task_info Hget Hcond.
      rewrite (In_conditional_ready q task_id task_info Hwf Hget), Hcond.
      split; intros [Hst Hdeps]; (split; [assumption|]); intros d Hd;
        destruct (Hdeps d Hd) as (dt & Hg & H); exists dt;
        (split; [assumption|]); now apply evaluate_failure_iff.
    + intros task_id task_info Hget. now apply In_conditional_ready.
Qed.

Lemma conditional_ready_per_dependency_witness :
  Dict.wf queue_branches /\
  get_ready_tasks_with_conditions queue_branches = Return ["C"] /\
  (forall task_id task_info,
     Dict.get queue_branches task_id = Some task_info ->
     get_condition task_info = ConditionType.FAILURE ->
     (In task_id ["C"] <->
      claimable_state (get_state task_info) /\
      (forall dep_id, In dep_id (get_dependencies task_info) ->
                      dep_failed queue_branches dep_id))) /\
  (forall task_id task_info,
     Dict.get queue_branches task_id = Some task_info ->
     (In task_id ["C"] <->
      claimable_state (get_state task_info) /\
      (forall dep_id, In dep_id (get_dependencies task_info) ->
                      dep_meets queue_branches (get_condition task_info)
                        dep_id))).
Proof.
  assert (Hwf : Dict.wf queue_branches)
    by distinct_by_computation.
  split; [exact Hwf|]. split; [reflexivity|].
  exact (proj2 (conditional_ready_per_dependency queue_branches Hwf)
           ["C"] eq_refl).
Defined.

(** ** Cycles *)

Lemma edge_intro (g : task_graph) (dep dependent : string)
    (deps : list string) :
  Dict.get g dependent = Some deps -> In dep deps -> edge g dep dependent.
Proof.
  intros Hget Hin. split.
  - eapply get_Some_keys; eassumption.
  - unfold deps_of. now rewrite Hget.
Qed.

(** C1 fails at the specification's own example: the graph
    [{A: [B], B: [A]}] has a cycle and [topological_sort] returns the empty
    order, whatever the fuel; and at [{A: [], B: [A, C], C: [B]}] it
    returns [[A]], one node of three. No exception is raised. *)
Theorem topological_sort_returns_on_cycle :
  has_cycle graph_two_cycle /\
  (forall fuel, topological_sort fuel graph_two_cycle = Some []) /\
  has_cycle graph_root_then_cycle /\
  (forall fuel, topological_sort (S fuel) graph_root_then_cycle = Some ["A"]).
Proof.
  split; [|split; [|split]].
  - exists "A". apply t_trans with "B"; apply t_step.
    + apply (edge_intro _ _ _ ["A"]); [reflexivity | now left].
    + apply (edge_intro _ _ _ ["B"]); [reflexivity | now left].
  - intros fuel. destruct fuel; reflexivity.
  - exists "B". apply t_trans with "C"; apply t_step.
    + apply (edge_intro _ _ _ ["B"]); [reflexivity | now left].
    + apply (edge_intro _ _ _ ["A"; "C"]); [reflexivity | simpl; tauto].
  - intros fuel. destruct fuel; reflexivity.
Qed.

(** ** The in-degree table *)

Lemma degree_set (d : Dict.t Z) (k x : string) (v : Z) :
  degree (Dict.set d k v) x = if String.eqb x k then v else degree d x.
Proof.
  unfold degree. destruct (String.eqb x k) eqn:E.
  - apply String.eqb_eq in E. subst. now rewrite get_set_eq.
  - apply String.eqb_neq in E. now rewrite get_set_neq.
Qed.

Lemma In_keys_set {V : Type} (d : Dict.t V) (k x : string) (v : V) :
  In x (Dict.keys (Dict.set d k v)) <-> In x (Dict.keys d) \/ x = k.
Proof.
  destruct (in_dec string_dec k (Dict.keys d)) as [Hin | Hout].
  - rewrite keys_set_present by assumption. split; [tauto|].
    intros [H | ->]; assumption.
  - rewrite keys_set_absent by assumption. rewrite in_app_iff. simpl.
    intuition congruence.
Qed.

Lemma deps_of_key (g : task_graph) (node : string) :
  deps_of g node <> [] -> In node (Dict.keys g).
Proof.
  unfold deps_of. destruct (Dict.get g node) eqn:E; [|congruence].
  intros _. eapply get_Some_keys; eassumption.
Qed.

Lemma deps_of_In (g : task_graph) (node : string) (deps : list string) :
  Dict.wf g -> In (node, deps) g -> deps_of g node = deps.
Proof.
  intros Hwf Hin. unfold deps_of. now rewrite (In_get _ _ _ Hwf Hin).
Qed.

Lemma In_graph_nodes (g : task_graph) (x : string) :
  Dict.wf g ->
  (In x (graph_nodes g) <->
   In x (Dict.keys g) \/
   exists node, In node (Dict.keys g) /\ In x (deps_of g node)).
Proof.
  intros Hwf. unfold graph_nodes. rewrite in_app_iff, in_concat. split.
  - intros [H | (deps & Hd & Hx)]; [tauto|]. right.
    unfold Dict.values in Hd. apply in_map_iff in Hd as [[n ds] [Heq Hin]].
    simpl in Heq. subst ds. exists n. split.
    + now apply (in_map fst) in Hin.
    + now rewrite (deps_of_In _ _ _ Hwf Hin).
  - intros [H | (n & Hn & Hx)]; [tauto|]. right.
    apply keys_get in Hn as [deps Hget]. exists deps. split.
    + apply get_Some_In in Hget. now apply (in_map snd) in Hget.
    + unfold deps_of in Hx. now rewrite Hget in Hx.
Qed.

Lemma degree_add_missing (d : Dict.t Z) (dep x : string) :
  degree (add_missing d dep) x = degree d x.
Proof.
  unfold add_missing. destruct (Dict.contains d dep) eqn:E; simpl;
    [reflexivity|].
  rewrite degree_set. destruct (String.eqb x dep) eqn:Ex; [|reflexivity].
  apply String.eqb_eq in Ex. subst. unfold Dict.contains in E. unfold degree.
  destruct (Dict.get d dep); [discriminate | reflexivity].
Qed.

Lemma In_keys_add_missing (d : Dict.t Z) (dep x : string) :
  In x (Dict.keys (add_missing d dep)) <-> In x (Dict.keys d) \/ x = dep.
Proof.
  unfold add_missing. destruct (Dict.contains d dep) eqn:E; simpl.
  - apply contains_keys in E. split; [tauto|]. intros [H | ->]; assumption.
  - apply In_keys_set.
Qed.

Lemma wf_add_missing (d : Dict.t Z) (dep : string) :
  Dict.wf d -> Dict.wf (add_missing d dep).
Proof.
  unfold add_missing. destruct (negb (Dict.contains d dep)); [|auto].
  apply wf_set.
Qed.

Lemma add_missing_loop (deps : list string) (d : Dict.t Z) :
  (forall x, degree (fold_left add_missing deps d) x = degree d x) /\
  (forall x, In x (Dict.keys (fold_left add_missing deps d)) <->
             In x (Dict.keys d) \/ In x deps) /\
  (Dict.wf d -> Dict.wf (fold_left add_missing deps d)).
Proof.
  revert d. induction deps as [|dep deps IH]; intros d; simpl.
  - repeat split; tauto.
  - destruct (IH (add_missing d dep)) as (Hdeg & Hkeys & Hwf).
    split; [|split].
    + intros x. now rewrite Hdeg, degree_add_missing.
    + intros x. rewrite Hkeys, In_keys_add_missing. intuition congruence.
    + intros H. now apply Hwf, wf_add_missing.
Qed.

Lemma count_step_facts (g : task_graph) (d : Dict.t Z) (node : string) :
  (forall x, degree (count_step g d node) x
             = if String.eqb x node
               then Z.of_nat (List.length (deps_of g node))
               else degree d x) /\
  (forall x, In x (Dict.keys (count_step g d node)) <->
             In x (Dict.keys d) \/ x = node \/ In x (deps_of g node)) /\
  (Dict.wf d -> Dict.wf (count_step g d node)).
Proof.
  unfold count_step.
  destruct (add_missing_loop (deps_of g node)
              (Dict.set d node (Z.of_nat (List.length (deps_of g node)))))
    as (Hdeg & Hkeys & Hwf).
  split; [|split].
  - intros x. now rewrite Hdeg, degree_set.
  - intros x. rewrite Hkeys, In_keys_set. tauto.
  - intros H. now apply Hwf, wf_set.
Qed.

Lemma count_loop_facts (g : task_graph) (nodes : list string) (d : Dict.t Z) :
  (forall x, degree (fold_left (count_step g) nodes d) x
             = if mem x nodes
               then Z.of_nat (List.length (deps_of g x))
               else degree d x) /\
  (forall x, In x (Dict.keys (fold_left (count_step g) nodes d)) <->
             In x (Dict.keys d) \/
             exists node, In node nodes /\
                          (x = node \/ In x (deps_of g node))) /\
  (Dict.wf d -> Dict.wf (fold_left (count_step g) nodes d)).
Proof.
  revert d. induction nodes as [|n nodes IH]; intros d; simpl.
  - repeat split; try tauto. intros [H | (? & [] & _)]. assumption.
  - destruct (IH (count_step g d n)) as (Hdeg & Hkeys & Hwf).
    destruct (count_step_facts g d n) as (Sdeg & Skeys & Swf).
    split; [|split].
    + intros x. rewrite Hdeg, Sdeg. unfold mem at 2. simpl.
      fold (mem x nodes). rewrite String.eqb_sym.
      destruct (mem x nodes); [now rewrite orb_true_r|].
      rewrite orb_false_r. destruct (String.eqb n x) eqn:E; [|reflexivity].
      apply String.eqb_eq in E. now subst.
    + intros x. rewrite Hkeys, Skeys. split.
      * intros [[H | H] | (m & Hm & H)]; [tauto | | ].
        -- right. exists n. tauto.
        -- right. exists m. tauto.
      * intros [H | (m & [-> | Hm] & H)]; [tauto | tauto |].
        right. exists m. tauto.
    + intros H. now apply Hwf, Swf.
Qed.

Lemma zero_loop_facts (nodes : list string) (d : Dict.t Z) :
  (forall x, degree (fold_left (fun d node => Dict.set d node 0%Z) nodes d) x
             = if mem x nodes then 0%Z else degree d x) /\
  (forall x,
     In x (Dict.keys (fold_left (fun d node => Dict.set d node 0%Z) nodes d))
     <-> In x (Dict.keys d) \/ In x nodes) /\
  (Dict.wf d ->
   Dict.wf (fold_left (fun d node => Dict.set d node 0%Z) nodes d)).
Proof.
  revert d. induction nodes as [|n nodes IH]; intros d; simpl.
  - repeat split; tauto.
  - destruct (IH (Dict.set d n 0%Z)) as (Hdeg & Hkeys & Hwf).
    split; [|split].
    + intros x. rewrite Hdeg, degree_set. unfold mem at 2. simpl.
      fold (mem x nodes). rewrite String.eqb_sym.
      destruct (mem x nodes); [now rewrite orb_true_r|].
      rewrite orb_false_r. reflexivity.
    + intros x. rewrite Hkeys, In_keys_set. intuition congruence.
    + intros H. now apply Hwf, wf_set.
Qed.

(** What [compute_in_degree] stores: the number of listed dependencies
    for a key of the graph, zero for a node that is only a dependency;
    its keys are the nodes of the graph, each once. *)
Lemma compute_in_degree_spec (g : task_graph) :
  Dict.wf g ->
  Dict.wf (compute_in_degree g) /\
  (forall x, In x (Dict.keys (compute_in_degree g)) <->
             In x (graph_nodes g)) /\
  (forall x, degree (compute_in_degree g) x
             = Z.of_nat (List.length (deps_of g x))).
Proof.
  intros Hwf. unfold compute_in_degree, zero_degrees.
  destruct (zero_loop_facts (Dict.keys g) []) as (Zdeg & Zkeys & Zwf).
  destruct (count_loop_facts g (Dict.keys g)
              (fold_left (fun d node => Dict.set d node 0%Z) (Dict.keys g) []))
    as (Cdeg & Ckeys & Cwf).
  split; [|split].
  - apply Cwf, Zwf. constructor.
  - intros x. rewrite Ckeys, Zkeys, In_graph_nodes by assumption. simpl.
    split.
    + intros [[[] | H] | (n & Hn & [-> | H])]; [tauto | tauto |].
      right. exists n. tauto.
    + intros [H | (n & Hn & H)]; [tauto|]. right. exists n. tauto.
  - intros x. rewrite Cdeg, Zdeg. simpl.
    destruct (mem x (Dict.keys g)) eqn:E; [reflexivity|].
    apply mem_false in E. unfold deps_of.
    destruct (Dict.get g x) eqn:Hget; [|reflexivity].
    exfalso. apply E. eapply get_Some_keys; eassumption.
Qed.

(** ** One node leaves the queue *)

Lemma release_spec (g : task_graph) (node : string)
    (dependents : list string) (deg : Dict.t Z) (queue : list string) :
  NoDup dependents ->
  (forall x, degree (fst (release g node dependents deg queue)) x
             = if mem x dependents && mem node (deps_of g x)
               then (degree deg x - 1)%Z
               else degree deg x) /\
  snd (release g node dependents deg queue)
  = queue ++ released g node deg dependents.
Proof.
  intros Hnd. revert deg queue.
  induction dependents as [|y ys IH]; intros deg queue.
  - simpl. split; [reflexivity | now rewrite app_nil_r].
  - inversion Hnd as [|? ? Hy Hys]; subst.
    assert (Hother : forall v x, In x ys ->
              degree (Dict.set deg y v) x = degree deg x).
    { intros v x Hx. rewrite degree_set.
      destruct (String.eqb x y) eqn:E; [|reflexivity].
      apply String.eqb_eq in E. subst. contradiction. }
    assert (Hrel : forall v,
              released g node (Dict.set deg y v) ys = released g node deg ys).
    { intros v. unfold released. apply filter_ext_in. intros x Hx.
      now rewrite Hother. }
    cbn [release]. unfold released. cbn [filter]. fold (released g node deg ys).
    destruct (mem node (deps_of g y)) eqn:Hm; cbn [andb].
    + rewrite degree_set, String.eqb_refl.
      destruct (Z.eqb (degree deg y - 1) 0) eqn:Hz.
      * destruct (IH Hys (Dict.set deg y (degree deg y - 1)%Z) (queue ++ [y]))
          as [Hdeg Hq].
        split.
        -- intros x. rewrite Hdeg, degree_set. unfold mem at 3. cbn [existsb].
           fold (mem x ys). rewrite (String.eqb_sym x y).
           destruct (String.eqb y x) eqn:E.
           ++ apply String.eqb_eq in E. subst x.
              apply mem_false in Hy. rewrite Hy, Hm. reflexivity.
           ++ reflexivity.
        -- rewrite Hq, Hrel, <- app_assoc. reflexivity.
      * destruct (IH Hys (Dict.set deg y (degree deg y - 1)%Z) queue)
          as [Hdeg Hq].
        split.
        -- intros x. rewrite Hdeg, degree_set. unfold mem at 3. cbn [existsb].
           fold (mem x ys). rewrite (String.eqb_sym x y).
           destruct (String.eqb y x) eqn:E.
           ++ apply String.eqb_eq in E. subst x.
              apply mem_false in Hy. rewrite Hy, Hm. reflexivity.
           ++ reflexivity.
        -- now rewrite Hq, Hrel.
    + destruct (IH Hys deg queue) as [Hdeg Hq]. split.
      * intros x. rewrite Hdeg. unfold mem at 3. cbn [existsb].
        fold (mem x ys). rewrite (String.eqb_sym x y).
        destruct (String.eqb y x) eqn:E; [|reflexivity].
        apply String.eqb_eq in E. subst x.
        apply mem_false in Hy. rewrite Hy, Hm. reflexivity.
      * exact Hq.
Qed.

(** Over the keys of the graph the test [x in task_graph] is implied by
    [node in task_graph[x]]. *)
Lemma release_degree (g : task_graph) (node : string) (deg : Dict.t Z)
    (queue : list string) (x : string) :
  Dict.wf g ->
  degree (fst (release g node (Dict.keys g) deg queue)) x
  = if mem node (deps_of g x) then (degree deg x - 1)%Z else degree deg x.
Proof.
  intros Hwf. rewrite (proj1 (release_spec g node _ deg queue Hwf)).
  destruct (mem node (deps_of g x)) eqn:Hm.
  - assert (Hk : mem x (Dict.keys g) = true).
    { apply mem_In, deps_of_key. intros E. rewrite E in Hm. discriminate. }
    now rewrite Hk.
  - now rewrite andb_false_r.
Qed.

Lemma release_queue (g : task_graph) (node : string) (deg : Dict.t Z)
    (queue : list string) :
  Dict.wf g ->
  snd (release g node (Dict.keys g) deg queue)
  = queue ++ released g node deg (Dict.keys g).
Proof. intros Hwf. apply release_spec, Hwf. Qed.

(** ** Counting finished dependencies *)

Lemma hits_snoc (deps done : list string) (node : string) :
  hits deps (done ++ [node])
  = hits deps done + (if mem node deps then 1 else 0).
Proof.
  unfold hits. rewrite filter_app, length_app. simpl.
  destruct (mem node deps); reflexivity.
Qed.

Lemma hits_nil (deps : list string) : hits deps [] = 0.
Proof. reflexivity. Qed.

Lemma hits_full_incl (deps done : list string) :
  NoDup done -> hits deps done = List.length deps -> incl deps done.
Proof.
  unfold hits. intros Hnd Hlen.
  set (found := filter (fun d => mem d deps) done) in *.
  assert (Hsub : incl found deps).
  { intros x Hx. apply filter_In in Hx as [_ Hx]. now apply mem_In. }
  assert (Hfull : incl deps found).
  { apply NoDup_length_incl; [now apply NoDup_filter | lia | assumption]. }
  intros x Hx. apply Hfull in Hx. now apply filter_In in Hx as [Hx _].
Qed.

Lemma hits_incl_full (deps done : list string) :
  NoDup deps -> NoDup done -> incl deps done ->
  hits deps done = List.length deps.
Proof.
  unfold hits. intros Hdeps Hdone Hincl.
  set (found := filter (fun d => mem d deps) done).
  assert (Hsub : incl found deps).
  { intros x Hx. apply filter_In in Hx as [_ Hx]. now apply mem_In. }
  assert (Hfull : incl deps found).
  { intros x Hx. apply filter_In. split; [auto | now apply mem_In]. }
  apply Nat.le_antisymm.
  - apply NoDup_incl_length; [now apply NoDup_filter | assumption].
  - now apply NoDup_incl_length.
Qed.

(** ** The invariant of Kahn's algorithm *)

Section KahnInvariant.
Variable g : task_graph.
Hypothesis Hwf : Dict.wf g.

Lemma keys_graph_nodes (x : string) :
  In x (Dict.keys g) -> In x (graph_nodes g).
Proof. intros H. unfold graph_nodes. apply in_or_app. now left. Qed.

Lemma released_In (node : string) (deg : Dict.t Z) (x : string) :
  In x (released g node deg (Dict.keys g)) <->
  In node (deps_of g x) /\ degree deg x = 1%Z.
Proof.
  unfold released. rewrite filter_In, andb_true_iff, mem_In, Z.eqb_eq.
  split.
  - intros (_ & H1 & H2). split; [assumption | lia].
  - intros [H1 H2]. split; [|split; [assumption | lia]].
    apply deps_of_key. intros E. now rewrite E in H1.
Qed.

Lemma ordered_snoc (done : list string) (node : string) :
  ordered g done -> incl (deps_of g node) done ->
  ordered g (done ++ [node]).
Proof.
  intros Hord Hdeps i x Hi.
  destruct (Nat.lt_ge_cases i (List.length done)) as [Hlt | Hge].
  - rewrite nth_error_app1 in Hi by assumption.
    rewrite firstn_app.
    replace (i - List.length done) with 0 by lia.
    simpl. rewrite app_nil_r. now apply Hord.
  - rewrite nth_error_app2 in Hi by assumption.
    destruct (i - List.length done) as [|k] eqn:Ek.
    + simpl in Hi. injection Hi as <-.
      replace i with (List.length done) by lia.
      rewrite firstn_app, firstn_all, Nat.sub_diag. simpl.
      now rewrite app_nil_r.
    + simpl in Hi. destruct k; discriminate.
Qed.

(** The invariant holds when the queue is first filled. *)
Lemma kahn_inv_init :
  kahn_inv g (compute_in_degree g)
    [] (zero_degree_nodes (compute_in_degree g)).
Proof.
  destruct (compute_in_degree_spec g Hwf) as (Dwf & Dkeys & Ddeg).
  assert (Hzero : forall x,
            In x (zero_degree_nodes (compute_in_degree g)) <->
            In x (graph_nodes g) /\ degree (compute_in_degree g) x = 0%Z).
  { intros x. unfold zero_degree_nodes.
    now rewrite filter_In, Dkeys, Z.eqb_eq. }
  constructor; cbn [app].
  - unfold zero_degree_nodes. now apply NoDup_filter.
  - intros x Hx. now apply Hzero in Hx.
  - intros x. rewrite Ddeg, hits_nil. lia.
  - intros x Hx. rewrite Hzero. tauto.
  - intros x Hx. apply Hzero in Hx as [_ Hx]. rewrite Ddeg in Hx.
    destruct (deps_of g x); [intros ? [] | simpl in Hx; lia].
  - intros i x Hi. destruct i; discriminate.
Qed.

(** The invariant is kept when the head of the queue is released. *)
Lemma kahn_inv_step (deg : Dict.t Z) (done rest queue : list string)
    (node : string) :
  kahn_inv g deg done (node :: rest) ->
  kahn_inv g (fst (release g node (Dict.keys g) deg queue))
    (done ++ [node]) (rest ++ released g node deg (Dict.keys g)).
Proof.
  intros [Hnd Hnodes Hdeg Hzero Hdeps Hord].
  set (deg' := fst (release g node (Dict.keys g) deg queue)).
  set (new := released g node deg (Dict.keys g)).
  assert (Hnode_out : ~ In node done).
  { intros H. apply NoDup_remove_2 in Hnd. apply Hnd.
    apply in_or_app. now left. }
  assert (Hdeg' : forall x,
            degree deg' x
            = (Z.of_nat (List.length (deps_of g x))
               - Z.of_nat (hits (deps_of g x) (done ++ [node])))%Z).
  { intros x. unfold deg'. rewrite release_degree by assumption.
    rewrite hits_snoc, Hdeg. destruct (mem node (deps_of g x)); lia. }
  assert (Hold : forall x, In x (done ++ node :: rest) ->
                           mem node (deps_of g x) = false).
  { intros x Hx. apply mem_false. intros H. apply Hnode_out.
    now apply (Hdeps x Hx). }
  assert (Hsplit : forall x,
            In x ((done ++ [node]) ++ rest ++ new) <->
            In x (done ++ node :: rest) \/ In x new).
  { intros x. rewrite !in_app_iff. simpl. tauto. }
  assert (Hnd' : NoDup (done ++ [node])).
  { apply NoDup_app_remove_r with (l' := rest).
    now rewrite <- app_assoc. }
  constructor.
  - rewrite app_assoc. apply NoDup_app.
    + now rewrite <- app_assoc.
    + unfold new, released. now apply NoDup_filter.
    + intros x Hx Hnew. rewrite <- app_assoc in Hx. simpl in Hx.
      apply released_In in Hnew as [Hin Hone].
      assert (Hk : In x (graph_nodes g)) by now apply Hnodes.
      apply (Hzero x Hk) in Hx. lia.
  - intros x Hx. apply Hsplit in Hx as [Hx | Hx]; [now apply Hnodes|].
    apply keys_graph_nodes. unfold new, released in Hx.
    now apply filter_In in Hx as [Hx _].
  - exact Hdeg'.
  - intros x Hx. rewrite Hsplit. unfold deg'.
    rewrite release_degree by assumption. split.
    + intros [Hin | Hin].
      * rewrite (Hold x Hin). now apply Hzero.
      * apply released_In in Hin as [Hin Hone].
        apply mem_In in Hin. rewrite Hin. lia.
    + destruct (mem node (deps_of g x)) eqn:Hm.
      * intros H. right. apply released_In. apply mem_In in Hm.
        split; [assumption | lia].
      * intros H. left. now apply Hzero.
  - intros x Hx. apply Hsplit in Hx as [Hx | Hx].
    + apply incl_appl. now apply Hdeps.
    + apply hits_full_incl; [assumption|].
      apply released_In in Hx as [Hin Hone].
      specialize (Hdeg' x). unfold deg' in Hdeg'.
      rewrite release_degree in Hdeg' by assumption.
      apply mem_In in Hin. rewrite Hin in Hdeg'. lia.
  - apply ordered_snoc; [assumption|].
    apply Hdeps. apply in_or_app. right. now left.
Qed.

(** The same for a whole batch, released node by node. *)
Lemma kahn_inv_batch (batch : list string) (deg : Dict.t Z)
    (done next : list string) :
  kahn_inv g deg done (batch ++ next) ->
  kahn_inv g (fst (release_batch g batch deg next))
    (done ++ batch) (snd (release_batch g batch deg next)).
Proof.
  revert deg done next. induction batch as [|node batch IH];
    intros deg done next Hinv.
  - simpl. now rewrite app_nil_r.
  - cbn [release_batch].
    destruct (release g node (Dict.keys g) deg next) as [deg1 next1] eqn:E.
    replace (done ++ node :: batch) with ((done ++ [node]) ++ batch)
      by (rewrite <- app_assoc; reflexivity).
    apply IH.
    assert (H1 : deg1 = fst (release g node (Dict.keys g) deg next))
      by now rewrite E.
    assert (H2 : next1 = next ++ released g node deg (Dict.keys g)).
    { rewrite <- release_queue by assumption. now rewrite E. }
    rewrite H1, H2, app_assoc.
    now apply kahn_inv_step.
Qed.

End KahnInvariant.

(** ** A set closed under predecessors holds a cycle *)

Section Descent.
Variable R : string -> string -> Prop.
Variable P : string -> Prop.

Lemma descending_reach (node x : string) (walk : list string) :
  descending R P node walk -> In x walk -> clos_trans string R x node.
Proof.
  revert node. induction walk as [|d walk IH]; intros node; simpl; [tauto|].
  intros (Hedge & _ & Hrest) [<- | Hx].
  - now apply t_step.
  - apply t_trans with d; [now apply IH | now apply t_step].
Qed.

Lemma descending_all (node x : string) (walk : list string) :
  descending R P node walk -> In x walk -> P x.
Proof.
  revert node. induction walk as [|d walk IH]; intros node; simpl; [tauto|].
  intros (_ & Hd & Hrest) [<- | Hx]; [assumption | eauto].
Qed.

Lemma descending_repeat (node : string) (walk : list string) :
  descending R P node walk -> ~ NoDup (node :: walk) ->
  exists c, clos_trans string R c c.
Proof.
  revert node. induction walk as [|d walk IH]; intros node Hwalk Hdup.
  - exfalso. apply Hdup. repeat constructor. intros [].
  - destruct (in_dec string_dec node (d :: walk)) as [Hin | Hout].
    + exists node. eapply descending_reach; eassumption.
    + destruct Hwalk as (_ & _ & Hrest). apply (IH d Hrest).
      intros Hnd. apply Hdup. now constructor.
Qed.

Lemma descending_extend :
  (forall node, P node -> exists d, R d node /\ P d) ->
  forall k node, P node ->
    exists walk, List.length walk = k /\ descending R P node walk.
Proof.
  intros Hstep k. induction k as [|k IH]; intros node Hnode.
  - exists []. split; [reflexivity | exact I].
  - destruct (Hstep node Hnode) as (d & Hedge & Hd).
    destruct (IH d Hd) as (walk & Hlen & Hwalk).
    exists (d :: walk). simpl. auto.
Qed.

Lemma closed_set_cycle (nodes : list string) :
  (forall node, P node -> In node nodes) ->
  (forall node, P node -> exists d, R d node /\ P d) ->
  forall node, P node -> exists c, clos_trans string R c c.
Proof.
  intros Hfin Hstep node Hnode.
  destruct (descending_extend Hstep (List.length nodes) node Hnode)
    as (walk & Hlen & Hwalk).
  apply (descending_repeat node walk Hwalk).
  intros Hnd. apply NoDup_incl_length with (l' := nodes) in Hnd.
  - simpl in Hnd. lia.
  - intros x [<- | Hx]; [auto|]. apply Hfin.
    eapply descending_all; eassumption.
Qed.

End Descent.

(** ** Every node of an acyclic graph is sorted *)

Lemma hits_no_deps (done : list string) : hits [] done = 0.
Proof.
  unfold hits. induction done as [|x done IH]; [reflexivity | exact IH].
Qed.

Section KahnResult.
Variable g : task_graph.
Hypothesis Hwf : Dict.wf g.

Lemma kahn_inv_bound (deg : Dict.t Z) (done pending : list string) :
  kahn_inv g deg done pending ->
  List.length done + List.length pending <= List.length (graph_nodes g).
Proof.
  intros [Hnd Hnodes _ _ _ _]. rewrite <- length_app.
  now apply NoDup_incl_length.
Qed.

Lemma kahn_complete (deg : Dict.t Z) (done : list string) :
  deps_distinct g -> acyclic g ->
  kahn_inv g deg done [] ->
  forall node, In node (graph_nodes g) -> In node done.
Proof.
  intros Hdist Hacyc [Hnd Hnodes Hdeg Hzero Hdeps Hord] node Hnode.
  rewrite app_nil_r in *.
  destruct (in_dec string_dec node done) as [Hin | Hout]; [assumption|].
  exfalso.
  destruct (closed_set_cycle (edge g)
              (fun x => In x (graph_nodes g) /\ ~ In x done)
              (graph_nodes g)) with (node := node) as [c Hc].
  - tauto.
  - intros x [Hx Hxout].
    assert (Hpos : degree deg x <> 0%Z).
    { intros H. apply Hxout. now apply (Hzero x Hx). }
    assert (Hkey : In x (Dict.keys g)).
    { apply deps_of_key. intros E. apply Hpos.
      rewrite Hdeg, E, hits_no_deps. reflexivity. }
    assert (Hmiss : ~ incl (deps_of g x) done).
    { intros Hincl. apply Hpos. rewrite Hdeg.
      rewrite hits_incl_full; auto. lia. }
    assert (Hex : exists d, In d (deps_of g x) /\ ~ In d done).
    { clear - Hmiss. induction (deps_of g x) as [|d ds IH].
      - exfalso. apply Hmiss. intros ? [].
      - destruct (in_dec string_dec d done) as [Hd | Hd].
        + destruct IH as (d' & H1 & H2).
          * intros H. apply Hmiss. intros y [<- | Hy]; auto.
          * exists d'. split; [now right | assumption].
        + exists d. split; [now left | assumption]. }
    destruct Hex as (d & Hd & Hdout). exists d. split; [now split|].
    split; [|assumption].
    apply In_graph_nodes; [assumption|]. right. now exists x.
  - tauto.
  - exact (Hacyc c Hc).
Qed.

(** *** The sequencer's loop *)

Lemma sort_loop_nil (fuel : nat) (deg : Dict.t Z) (done : list string) :
  sort_loop fuel g deg [] done = Some done.
Proof. destruct fuel; reflexivity. Qed.

Lemma sort_loop_inv (fuel : nat) (deg : Dict.t Z)
    (done pending order : list string) :
  kahn_inv g deg done pending ->
  sort_loop fuel g deg pending done = Some order ->
  exists deg', kahn_inv g deg' order [].
Proof.
  revert deg done pending. induction fuel as [|fuel IH];
    intros deg done pending Hinv Hrun.
  - destruct pending; [|discriminate]. injection Hrun as <-. now exists deg.
  - destruct pending as [|node rest].
    + injection Hrun as <-. now exists deg.
    + cbn [sort_loop] in Hrun.
      destruct (release g node (Dict.keys g) deg rest) as [deg1 q1] eqn:E.
      apply (IH deg1 (done ++ [node]) q1); [|assumption].
      assert (H1 : deg1 = fst (release g node (Dict.keys g) deg rest))
        by now rewrite E.
      assert (H2 : q1 = rest ++ released g node deg (Dict.keys g)).
      { rewrite <- release_queue by assumption. now rewrite E. }
      rewrite H1, H2. now apply kahn_inv_step.
Qed.

Lemma sort_loop_returns (fuel : nat) (deg : Dict.t Z)
    (done pending : list string) :
  kahn_inv g deg done pending ->
  List.length (graph_nodes g) <= fuel + List.length done ->
  exists order, sort_loop fuel g deg pending done = Some order.
Proof.
  revert deg done pending. induction fuel as [|fuel IH];
    intros deg done pending Hinv Hfuel.
  - destruct pending as [|node rest]; [now exists done|].
    apply kahn_inv_bound in Hinv. simpl in *. lia.
  - destruct pending as [|node rest]; [now exists done|].
    cbn [sort_loop].
    destruct (release g node (Dict.keys g) deg rest) as [deg1 q1] eqn:E.
    apply IH.
    + assert (H1 : deg1 = fst (release g node (Dict.keys g) deg rest))
        by now rewrite E.
      assert (H2 : q1 = rest ++ released g node deg (Dict.keys g)).
      { rewrite <- release_queue by assumption. now rewrite E. }
      rewrite H1, H2. now apply kahn_inv_step.
    + rewrite length_app. simpl. lia.
Qed.

(** *** The partitioner's loop *)

Lemma layered_snoc (batches : list (list string)) (batch : list string) :
  layered g batches ->
  (forall task_id, In task_id batch ->
                   incl (deps_of g task_id) (List.concat batches)) ->
  layered g (batches ++ [batch]).
Proof.
  intros Hlay Hnew k b task_id Hk Hin.
  destruct (Nat.lt_ge_cases k (List.length batches)) as [Hlt | Hge].
  - rewrite nth_error_app1 in Hk by assumption.
    rewrite firstn_app.
    replace (k - List.length batches) with 0 by lia.
    simpl. rewrite app_nil_r. now apply (Hlay k b).
  - rewrite nth_error_app2 in Hk by assumption.
    destruct (k - List.length batches) as [|j] eqn:Ej.
    + simpl in Hk. injection Hk as <-.
      replace k with (List.length batches) by lia.
      rewrite firstn_app, firstn_all, Nat.sub_diag. simpl.
      rewrite app_nil_r. now apply Hnew.
    + simpl in Hk. destruct j; discriminate.
Qed.

Lemma concat_snoc (batches : list (list string)) (batch : list string) :
  List.concat (batches ++ [batch]) = List.concat batches ++ batch.
Proof. rewrite concat_app. simpl. now rewrite app_nil_r. Qed.

Lemma batch_step_inv (deg : Dict.t Z) (current : list string)
    (batches : list (list string)) :
  kahn_inv g deg (List.concat batches) current ->
  layered g batches ->
  kahn_inv g (fst (release_batch g current deg []))
    (List.concat (batches ++ [current]))
    (snd (release_batch g current deg [])) /\
  layered g (batches ++ [current]).
Proof.
  intros Hinv Hlay. split.
  - rewrite concat_snoc. apply kahn_inv_batch; [assumption|].
    now rewrite app_nil_r.
  - apply layered_snoc; [assumption|]. intros task_id Hin.
    apply (inv_deps _ _ _ _ Hinv). apply in_or_app. now right.
Qed.

Lemma batch_loop_inv (fuel : nat) (deg : Dict.t Z) (current : list string)
    (batches result : list (list string)) :
  kahn_inv g deg (List.concat batches) current ->
  layered g batches ->
  batch_loop fuel g deg current batches = Some result ->
  (exists deg', kahn_inv g deg' (List.concat result) []) /\
  layered g result.
Proof.
  revert deg current batches. induction fuel as [|fuel IH];
    intros deg current batches Hinv Hlay Hrun.
  - destruct current; [|discriminate]. injection Hrun as <-.
    split; [now exists deg | assumption].
  - destruct current as [|node rest] eqn:Hcur.
    + injection Hrun as <-. split; [now exists deg | assumption].
    + rewrite <- Hcur in *. assert (Hrun' := Hrun).
      rewrite Hcur in Hrun'. cbn [batch_loop] in Hrun'. rewrite <- Hcur in Hrun'.
      destruct (release_batch g current deg []) as [deg1 next] eqn:E.
      destruct (batch_step_inv deg current batches Hinv Hlay) as [H1 H2].
      rewrite E in H1. simpl in H1.
      exact (IH deg1 next (batches ++ [current]) H1 H2 Hrun').
Qed.

Lemma batch_loop_returns (fuel : nat) (deg : Dict.t Z)
    (current : list string) (batches : list (list string)) :
  kahn_inv g deg (List.concat batches) current ->
  layered g batches ->
  List.length (graph_nodes g) <= fuel + List.length (List.concat batches) ->
  exists result, batch_loop fuel g deg current batches = Some result.
Proof.
  revert deg current batches. induction fuel as [|fuel IH];
    intros deg current batches Hinv Hlay Hfuel.
  - destruct current as [|node rest]; [now exists batches|].
    apply kahn_inv_bound in Hinv. simpl in *. lia.
  - destruct current as [|node rest] eqn:Hcur; [now exists batches|].
    cbn [batch_loop]. rewrite <- Hcur in *.
    destruct (release_batch g current deg []) as [deg1 next] eqn:E.
    destruct (batch_step_inv deg current batches Hinv Hlay) as [H1 H2].
    rewrite E in H1. simpl in H1.
    apply (IH deg1 next (batches ++ [current]) H1 H2).
    rewrite concat_snoc, length_app, Hcur. simpl. lia.
Qed.

End KahnResult.

(** ** Positions *)

Lemma In_firstn_nth {A : Type} (x : A) (j : nat) (l : list A) :
  In x (firstn j l) -> exists i, i < j /\ nth_error l i = Some x.
Proof.
  intros H. apply In_nth_error in H as [i Hi].
  rewrite nth_error_firstn in Hi.
  destruct (Nat.ltb i j) eqn:E; [|discriminate].
  apply Nat.ltb_lt in E. eauto.
Qed.

Lemma NoDup_app_disjoint {A : Type} (l1 l2 : list A) (x : A) :
  NoDup (l1 ++ l2) -> In x l1 -> In x l2 -> False.
Proof.
  induction l1 as [|a l1 IH]; simpl; [tauto|].
  intros Hnd [<- | H1] H2; inversion Hnd as [|? ? Hout Hnd']; subst.
  - apply Hout. apply in_or_app. now right.
  - auto.
Qed.

Lemma enumerate_positions_other (ordering : list string) (idx : nat)
    (position : Dict.t nat) (x : string) :
  ~ In x ordering ->
  Dict.get (enumerate_positions ordering idx position) x
  = Dict.get position x.
Proof.
  revert idx position. induction ordering as [|y ys IH];
    intros idx position Hout; simpl; [reflexivity|].
  rewrite IH by (simpl in Hout; tauto).
  apply get_set_neq. simpl in Hout. intuition congruence.
Qed.

Lemma enumerate_positions_nth (ordering : list string) (idx i : nat)
    (position : Dict.t nat) (x : string) :
  NoDup ordering -> nth_error ordering i = Some x ->
  Dict.get (enumerate_positions ordering idx position) x = Some (idx + i).
Proof.
  revert idx i position. induction ordering as [|y ys IH];
    intros idx i position Hnd Hi.
  - destruct i; discriminate.
  - inversion Hnd as [|? ? Hout Hnd']; subst. destruct i as [|i]; simpl in *.
    + injection Hi as ->. rewrite enumerate_positions_other by assumption.
      rewrite get_set_eq. f_equal. lia.
    + rewrite (IH (S idx) i) by assumption. f_equal. lia.
Qed.

Lemma position_of_nth (ordering : list string) (i : nat) (x : string) :
  NoDup ordering -> nth_error ordering i = Some x ->
  position_of (enumerate_positions ordering 0 []) x = i.
Proof.
  intros Hnd Hi. unfold position_of.
  now rewrite (enumerate_positions_nth ordering 0 i [] x Hnd Hi).
Qed.

Lemma ordered_before (g : task_graph) (order : list string)
    (dep dependent : string) :
  ordered g order -> In dependent order -> In dep (deps_of g dependent) ->
  before order dep dependent.
Proof.
  intros Hord Hin Hdep. apply In_nth_error in Hin as [j Hj].
  apply (Hord j dependent Hj), In_firstn_nth in Hdep as (i & Hlt & Hi).
  exists i, j. auto.
Qed.

(** The validator accepts a duplicate-free order of all the nodes in
    which every node follows its dependencies. *)
Lemma validate_ordering_accepts (g : task_graph) (order : list string) :
  NoDup order ->
  (forall x, In x order <-> In x (graph_nodes g)) ->
  ordered g order ->
  validate_ordering g order = true.
Proof.
  intros Hnd Hall Hord. unfold validate_ordering.
  destruct g as [|[k0 deps0] g'] eqn:Hg.
  - destruct order as [|x order']; [reflexivity|].
    exfalso. apply (Hall x). now left.
  - rewrite <- Hg in *. destruct order as [|x0 order'] eqn:Ho.
    + exfalso. apply (Hall k0). rewrite Hg. now left.
    + rewrite <- Ho in *.
      replace (is_empty g) with false by now rewrite Hg.
      replace (is_empty order) with false by now rewrite Ho.
      cbn [andb orb].
      replace (same_set order (graph_nodes g)) with true
        by (symmetry; now apply same_set_iff).
      cbn [negb]. apply forallb_forall. intros task_id Htask.
      apply forallb_forall. intros dependency Hdep.
      assert (Hin : In task_id order).
      { apply Hall. unfold graph_nodes. apply in_or_app. now left. }
      destruct (ordered_before g order dependency task_id Hord Hin Hdep)
        as (i & j & Hi & Hj & Hlt).
      rewrite (position_of_nth order j task_id Hnd Hj).
      rewrite (position_of_nth order i dependency Hnd Hi).
      apply negb_true_iff, Nat.leb_gt, Hlt.
Qed.

(** ** The sequencer and the partitioner on every graph *)

Lemma topological_sort_inv (g : task_graph) (fuel : nat)
    (order : list string) :
  Dict.wf g -> topological_sort fuel g = Some order ->
  exists deg, kahn_inv g deg order [].
Proof.
  intros Hwf Hrun. unfold topological_sort in Hrun.
  destruct (is_empty g) eqn:Hg.
  - injection Hrun as <-. destruct g; [|discriminate].
    exists (compute_in_degree []). exact (kahn_inv_init [] Hwf).
  - eapply sort_loop_inv; [assumption | | eassumption].
    now apply kahn_inv_init.
Qed.

Lemma layered_nil (g : task_graph) : layered g [].
Proof. intros k batch task_id Hk. destruct k; discriminate. Qed.

Lemma get_parallel_batches_inv (g : task_graph) (fuel : nat)
    (batches : list (list string)) :
  Dict.wf g -> get_parallel_batches fuel g = Some batches ->
  (exists deg, kahn_inv g deg (List.concat batches) []) /\
  layered g batches.
Proof.
  intros Hwf Hrun. unfold get_parallel_batches in Hrun.
  destruct (is_empty g) eqn:Hg.
  - injection Hrun as <-. destruct g; [|discriminate].
    split; [|apply layered_nil].
    exists (compute_in_degree []). exact (kahn_inv_init [] Hwf).
  - eapply batch_loop_inv; [assumption | | apply layered_nil | eassumption].
    now apply kahn_inv_init.
Qed.

(** Whatever the graph, the sequencer's output holds no node twice,
    holds only nodes of the graph, and lists a node only after all the
    dependencies of that node. *)
Lemma topological_sort_sound (g : task_graph) (fuel : nat)
    (order : list string) :
  Dict.wf g -> topological_sort fuel g = Some order ->
  NoDup order /\ incl order (graph_nodes g) /\ ordered g order.
Proof.
  intros Hwf Hrun.
  destruct (topological_sort_inv g fuel order Hwf Hrun)
    as [deg [Hnd Hnodes _ _ _ Hord]].
  rewrite app_nil_r in *. auto.
Qed.

Lemma topological_sort_returns (g : task_graph) (fuel : nat) :
  Dict.wf g -> List.length (graph_nodes g) <= fuel ->
  exists order, topological_sort fuel g = Some order.
Proof.
  intros Hwf Hfuel. unfold topological_sort.
  destruct (is_empty g); [eauto|].
  apply sort_loop_returns; [assumption | now apply kahn_inv_init |].
  simpl. lia.
Qed.

Lemma get_parallel_batches_returns (g : task_graph) (fuel : nat) :
  Dict.wf g -> List.length (graph_nodes g) <= fuel ->
  exists batches, get_parallel_batches fuel g = Some batches.
Proof.
  intros Hwf Hfuel. unfold get_parallel_batches.
  destruct (is_empty g); [eauto|].
  apply batch_loop_returns;
    [assumption | now apply kahn_inv_init | apply layered_nil |].
  simpl. lia.
Qed.

(** ** Nodes on a cycle are never sorted *)

Lemma before_trans (order : list string) (a b c : string) :
  NoDup order -> before order a b -> before order b c -> before order a c.
Proof.
  intros Hnd (i1 & j1 & Ha & Hb & H1) (i2 & j2 & Hb' & Hc & H2).
  assert (Heq : j1 = i2).
  { apply (proj1 (NoDup_nth_error order) Hnd).
    - apply nth_error_Some. congruence.
    - congruence. }
  subst i2. exists i1, j2. repeat split; try assumption. lia.
Qed.

Lemma before_irrefl (order : list string) (a : string) :
  NoDup order -> ~ before order a a.
Proof.
  intros Hnd (i & j & Hi & Hj & Hlt).
  assert (Heq : i = j).
  { apply (proj1 (NoDup_nth_error order) Hnd).
    - apply nth_error_Some. congruence.
    - congruence. }
  lia.
Qed.

Lemma ordered_path_before (g : task_graph) (order : list string)
    (a b : string) :
  NoDup order -> ordered g order ->
  clos_trans string (edge g) a b -> In b order -> before order a b.
Proof.
  intros Hnd Hord Hpath.
  induction Hpath as [a b [_ Hdep] | a b c _ IH1 _ IH2]; intros Hin.
  - now apply (ordered_before g).
  - specialize (IH2 Hin).
    assert (Hb : In b order).
    { destruct IH2 as (i & _ & Hi & _). eapply nth_error_In; eassumption. }
    apply (before_trans order a b c); auto.
Qed.

(** No node of a cycle is in an order that the sequencer returns. *)
Lemma topological_sort_omits_cycles (g : task_graph) (fuel : nat)
    (order : list string) (node : string) :
  Dict.wf g ->
  topological_sort fuel g = Some order ->
  clos_trans string (edge g) node node ->
  ~ In node order.
Proof.
  intros Hwf Hrun Hcycle Hin.
  destruct (topological_sort_sound g fuel order Hwf Hrun)
    as (Hnd & _ & Hord).
  apply (before_irrefl order node Hnd).
  now apply (ordered_path_before g).
Qed.

Lemma cycle_node_in_graph (g : task_graph) (a b : string) :
  clos_trans string (edge g) a b -> In b (graph_nodes g).
Proof.
  intros H. induction H as [a b [Hkey _] | a b c _ _ _ IH]; [|assumption].
  unfold graph_nodes. apply in_or_app. now left.
Qed.

(** On a graph with a cycle the sequencer returns, given fuel for one
    iteration per node, and the order it returns lacks a node of the
    graph. *)
Lemma topological_sort_truncates_on_cycle (g : task_graph) (fuel : nat) :
  Dict.wf g -> has_cycle g ->
  List.length (graph_nodes g) <= fuel ->
  exists order node,
    topological_sort fuel g = Some order /\
    In node (graph_nodes g) /\ ~ In node order.
Proof.
  intros Hwf [node Hcycle] Hfuel.
  destruct (topological_sort_returns g fuel Hwf Hfuel) as [order Hrun].
  exists order, node. split; [assumption|]. split.
  - eapply cycle_node_in_graph; eassumption.
  - eapply topological_sort_omits_cycles; eassumption.
Qed.

(** Nodes that occur only as dependencies are sorted and batched first. *)
Example topological_sort_unlisted_root :
  topological_sort 4 graph_unlisted_root = Some ["A"; "D"; "B"; "C"] /\
  get_parallel_batches 4 graph_unlisted_root = Some [["A"; "D"]; ["B"]; ["C"]].
Proof. split; reflexivity. Qed.

(** ** Acyclic graphs without repeated dependencies *)

Lemma acyclic_ranked (g : task_graph) (rank : string -> nat) :
  (forall dep dependent, edge g dep dependent -> rank dep < rank dependent) ->
  acyclic g.
Proof.
  intros Hrank node Hpath.
  assert (H : forall a b, clos_trans string (edge g) a b -> rank a < rank b).
  { intros a b Hab. induction Hab as [a b Hab | a b c _ IH1 _ IH2].
    - now apply Hrank.
    - lia. }
  specialize (H node node Hpath). lia.
Qed.

(** X21. On an acyclic graph whose dependency lists hold no ID twice,
    the sequencer returns (given fuel for one iteration per node), and
    what it returns is a duplicate-free list of all the nodes of the
    graph in which the source of every edge stands before its target;
    the validator accepts it. *)
Theorem topological_sort_respects_edges (g : task_graph) :
  Dict.wf g -> deps_distinct g -> acyclic g ->
  (forall fuel,
     List.length (graph_nodes g) <= fuel ->
     exists order, topological_sort fuel g = Some order) /\
  (forall fuel order,
     topological_sort fuel g = Some order ->
     NoDup order /\
     (forall x, In x order <-> In x (graph_nodes g)) /\
     (forall dep dependent,
        edge g dep dependent -> before order dep dependent) /\
     validate_ordering g order = true).
Proof.
  intros Hwf Hdist Hacyc. split.
  - intros fuel Hfuel. now apply topological_sort_returns.
  - intros fuel order Hrun.
    destruct (topological_sort_inv g fuel order Hwf Hrun) as [deg Hinv].
    assert (Hall : forall x, In x (graph_nodes g) -> In x order)
      by now apply (kahn_complete g Hwf deg order Hdist Hacyc Hinv).
    destruct Hinv as [Hnd Hnodes _ _ _ Hord]. rewrite app_nil_r in *.
    assert (Hsame : forall x, In x order <-> In x (graph_nodes g)).
    { intros x. split; [apply Hnodes | apply Hall]. }
    split; [assumption|]. split; [assumption|]. split.
    + intros dep dependent [Hkey Hdep].
      apply (ordered_before g); [assumption | | assumption].
      apply Hall. unfold graph_nodes. apply in_or_app. now left.
    + now apply validate_ordering_accepts.
Qed.

Lemma nth_error_concat_prefix (batches : list (list string)) (k : nat)
    (batch : list string) (x : string) :
  NoDup (List.concat batches) ->
  nth_error batches k = Some batch ->
  In x batch -> In x (List.concat (firstn k batches)) -> False.
Proof.
  intros Hnd Hk Hx Hprev.
  apply nth_error_split in Hk as (l1 & l2 & -> & <-).
  rewrite firstn_app, firstn_all, Nat.sub_diag in Hprev.
  simpl in Hprev. rewrite app_nil_r in Hprev.
  rewrite concat_app in Hnd. simpl in Hnd.
  apply (NoDup_app_disjoint _ _ x Hnd Hprev).
  apply in_or_app. now left.
Qed.

Lemma In_concat_firstn (batches : list (list string)) (k : nat) (x : string) :
  In x (List.concat (firstn k batches)) ->
  exists j earlier,
    j < k /\ nth_error batches j = Some earlier /\ In x earlier.
Proof.
  intros H. apply in_concat in H as (earlier & Hb & Hx).
  apply In_firstn_nth in Hb as (j & Hlt & Hj). eauto.
Qed.

(** X22. On an acyclic graph whose dependency lists hold no ID twice,
    the partitioner returns (given fuel for one iteration per node), and
    the batches it returns, laid end to end, are the nodes of the graph,
    each once; no batch holds both ends of an edge; and every dependency
    of a task of batch [k] is in a batch before [k]. *)
Theorem get_parallel_batches_layers (g : task_graph) :
  Dict.wf g -> deps_distinct g -> acyclic g ->
  (forall fuel,
     List.length (graph_nodes g) <= fuel ->
     exists batches, get_parallel_batches fuel g = Some batches) /\
  (forall fuel batches,
     get_parallel_batches fuel g = Some batches ->
     NoDup (List.concat batches) /\
     (forall x, In x (List.concat batches) <-> In x (graph_nodes g)) /\
     (forall batch a b,
        In batch batches -> In a batch -> In b batch -> ~ edge g a b) /\
     (forall k batch task_id dep,
        nth_error batches k = Some batch -> In task_id batch ->
        edge g dep task_id ->
        exists j earlier,
          j < k /\ nth_error batches j = Some earlier /\ In dep earlier)).
Proof.
  intros Hwf Hdist Hacyc. split.
  - intros fuel Hfuel. now apply get_parallel_batches_returns.
  - intros fuel batches Hrun.
    destruct (get_parallel_batches_inv g fuel batches Hwf Hrun)
      as [[deg Hinv] Hlay].
    assert (Hall : forall x, In x (graph_nodes g) ->
                             In x (List.concat batches))
      by now apply (kahn_complete g Hwf deg _ Hdist Hacyc Hinv).
    destruct Hinv as [Hnd Hnodes _ _ _ _]. rewrite app_nil_r in *.
    split; [assumption|]. split; [|split].
    + intros x. split; [apply Hnodes | apply Hall].
    + intros batch a b Hbatch Ha Hb [_ Hdep].
      apply In_nth_error in Hbatch as [k Hk].
      apply (nth_error_concat_prefix batches k batch a Hnd Hk Ha).
      now apply (Hlay k batch b Hk Hb).
    + intros k batch task_id dep Hk Hin [_ Hdep].
      apply In_concat_firstn. now apply (Hlay k batch task_id Hk Hin).
Qed.

Lemma diamond_well_formed :
  Dict.wf graph_diamond /\ deps_distinct graph_diamond /\
  acyclic graph_diamond.
Proof.
  split; [distinct_by_computation|]. split.
  - intros node [<- | [<- | [<- | [<- | []]]]];
      distinct_by_computation.
  - apply (acyclic_ranked _ diamond_rank).
    intros dep dependent [Hkey Hdep].
    destruct Hkey as [<- | [<- | [<- | [<- | []]]]]; simpl in Hdep;
      repeat (destruct Hdep as [<- | Hdep]; [cbv; lia|]);
      destruct Hdep.
Qed.

Lemma topological_sort_respects_edges_witness :
  Dict.wf graph_diamond /\ deps_distinct graph_diamond /\
  acyclic graph_diamond /\
  topological_sort 4 graph_diamond = Some ["A"; "B"; "C"; "D"] /\
  NoDup ["A"; "B"; "C"; "D"] /\
  (forall x, In x ["A"; "B"; "C"; "D"] <-> In x (graph_nodes graph_diamond)) /\
  (forall dep dependent,
     edge graph_diamond dep dependent ->
     before ["A"; "B"; "C"; "D"] dep dependent) /\
  validate_ordering graph_diamond ["A"; "B"; "C"; "D"] = true.
Proof.
  destruct diamond_well_formed as (Hwf & Hdist & Hacyc).
  split; [exact Hwf|]. split; [exact Hdist|]. split; [exact Hacyc|].
  split; [reflexivity|].
  exact (proj2 (topological_sort_respects_edges graph_diamond Hwf Hdist Hacyc)
           4 ["A"; "B"; "C"; "D"] eq_refl).
Defined.

Lemma get_parallel_batches_layers_witness :
  Dict.wf graph_diamond /\ deps_distinct graph_diamond /\
  acyclic graph_diamond /\
  get_parallel_batches 4 graph_diamond = Some [["A"]; ["B"; "C"]; ["D"]] /\
  NoDup (List.concat [["A"]; ["B"; "C"]; ["D"]]) /\
  (forall x, In x (List.concat [["A"]; ["B"; "C"]; ["D"]]) <->
             In x (graph_nodes graph_diamond)) /\
  (forall batch a b,
     In batch [["A"]; ["B"; "C"]; ["D"]] -> In a batch -> In b batch ->
     ~ edge graph_diamond a b) /\
  (forall k batch task_id dep,
     nth_error [["A"]; ["B"; "C"]; ["D"]] k = Some batch ->
     In task_id batch -> edge graph_diamond dep task_id ->
     exists j earlier,
       j < k /\ nth_error [["A"]; ["B"; "C"]; ["D"]] j = Some earlier /\
       In dep earlier).
Proof.
  destruct diamond_well_formed as (Hwf & Hdist & Hacyc).
  split; [exact Hwf|]. split; [exact Hdist|]. split; [exact Hacyc|].
  split; [reflexivity|].
  exact (proj2 (get_parallel_batches_layers graph_diamond Hwf Hdist Hacyc)
           4 [["A"]; ["B"; "C"]; ["D"]] eq_refl).
Defined.

(** ** A dependency listed twice *)

Lemma repeated_dep_acyclic : acyclic graph_repeated_dep.
Proof.
  apply (acyclic_ranked _ repeated_rank).
  intros dep dependent [Hkey Hdep].
  destruct Hkey as [<- | [<- | []]]; simpl in Hdep;
    repeat (destruct Hdep as [<- | Hdep]; [cbv; lia|]);
    destruct Hdep.
Qed.

(** C6 fails at the acyclic graph [{A: [], B: [A, A]}]: the in-degree of
    B is the length of its list, 2, and the release of A lowers it once,
    so B never joins the queue. The sequencer returns [[A]]; the edge from
    A to B has no target in it, and the validator rejects it. *)
Theorem topological_sort_drops_repeated_dependent :
  Dict.wf graph_repeated_dep /\ acyclic graph_repeated_dep /\
  edge graph_repeated_dep "A" "B" /\
  (forall fuel,
     topological_sort (S fuel) graph_repeated_dep = Some ["A"]) /\
  ~ before ["A"] "A" "B" /\
  validate_ordering graph_repeated_dep ["A"] = false.
Proof.
  split; [distinct_by_computation|].
  split; [exact repeated_dep_acyclic|]. split; [|split; [|split]].
  - apply (edge_intro _ _ _ ["A"; "A"]); [reflexivity | now left].
  - intros fuel. destruct fuel; reflexivity.
  - intros (i & j & _ & Hj & _). destruct j as [|[|j]]; discriminate.
  - reflexivity.
Qed.

(** C7 fails at the same graph: the partitioner returns the one batch
    [[A]], and the node B of the graph is in no batch. *)
Theorem get_parallel_batches_drops_repeated_dependent :
  Dict.wf graph_repeated_dep /\ acyclic graph_repeated_dep /\
  In "B" (graph_nodes graph_repeated_dep) /\
  (forall fuel,
     get_parallel_batches (S fuel) graph_repeated_dep = Some [["A"]]) /\
  ~ In "B" (List.concat [["A"]]).
Proof.
  split; [distinct_by_computation|].
  split; [exact repeated_dep_acyclic|]. split; [|split].
  - simpl. tauto.
  - intros fuel. destruct fuel; reflexivity.
  - simpl. intros [H | []]. discriminate.
Qed.

(** ** The partitioner follows the sequencer *)

Lemma release_queue_prefix (g : task_graph) (node : string)
    (dependents : list string) (deg : Dict.t Z) (q0 q : list string) :
  release g node dependents deg (q0 ++ q)
  = (fst (release g node dependents deg q),
     q0 ++ snd (release g node dependents deg q)).
Proof.
  revert deg q. induction dependents as [|y ys IH]; intros deg q;
    cbn [release]; [reflexivity|].
  destruct (mem node (deps_of g y)); [|apply IH].
  destruct (Z.eqb _ 0); [|apply IH].
  rewrite <- app_assoc. apply IH.
Qed.

Lemma sort_loop_more_fuel (g : task_graph) (fuel fuel' : nat)
    (deg : Dict.t Z) (queue done order : list string) :
  sort_loop fuel g deg queue done = Some order -> fuel <= fuel' ->
  sort_loop fuel' g deg queue done = Some order.
Proof.
  revert fuel' deg queue done. induction fuel as [|fuel IH];
    intros fuel' deg queue done Hrun Hle.
  - destruct queue; [|discriminate]. now destruct fuel'.
  - destruct queue as [|node rest]; [now destruct fuel'|].
    destruct fuel' as [|fuel']; [lia|]. cbn [sort_loop] in *.
    destruct (release g node (Dict.keys g) deg rest) as [deg1 q1].
    apply IH; [assumption | lia].
Qed.

Lemma sort_loop_batch (g : task_graph) (batch : list string) (fuel : nat)
    (deg : Dict.t Z) (next done : list string) :
  sort_loop (List.length batch + fuel) g deg (batch ++ next) done
  = sort_loop fuel g (fst (release_batch g batch deg next))
      (snd (release_batch g batch deg next)) (done ++ batch).
Proof.
  revert deg next done. induction batch as [|node batch IH];
    intros deg next done.
  - simpl. now rewrite app_nil_r.
  - cbn [List.length Nat.add app sort_loop release_batch].
    rewrite release_queue_prefix.
    destruct (release g node (Dict.keys g) deg next) as [deg1 next1].
    cbn [fst snd]. rewrite IH, <- app_assoc. reflexivity.
Qed.

Lemma batch_loop_flatten (g : task_graph) (fuel : nat) (deg : Dict.t Z)
    (current : list string) (batches result : list (list string)) :
  batch_loop fuel g deg current batches = Some result ->
  exists fuel',
    sort_loop fuel' g deg current (List.concat batches)
    = Some (List.concat result).
Proof.
  revert deg current batches. induction fuel as [|fuel IH];
    intros deg current batches Hrun.
  - destruct current; [|discriminate]. injection Hrun as <-. now exists 0.
  - destruct current as [|node rest] eqn:Hcur.
    + injection Hrun as <-. now exists 0.
    + rewrite <- Hcur in *. assert (Hrun' := Hrun).
      rewrite Hcur in Hrun'. cbn [batch_loop] in Hrun'.
      rewrite <- Hcur in Hrun'.
      destruct (release_batch g current deg []) as [deg1 next] eqn:E.
      apply IH in Hrun' as [fuel1 Hsort].
      exists (List.length current + fuel1).
      rewrite <- (app_nil_r current) at 2.
      rewrite sort_loop_batch, E. cbn [fst snd].
      now rewrite concat_snoc in Hsort.
Qed.

(** X20. Whenever both return, the batches of [get_parallel_batches], laid
    end to end, are the order of [topological_sort], node for node. *)
Theorem batches_flatten_to_order (g : task_graph) (fuel1 fuel2 : nat)
    (order : list string) (batches : list (list string)) :
  topological_sort fuel1 g = Some order ->
  get_parallel_batches fuel2 g = Some batches ->
  List.concat batches = order.
Proof.
  unfold topological_sort, get_parallel_batches.
  destruct (is_empty g).
  - intros [= <-] [= <-]. reflexivity.
  - intros Hsort Hbatch. apply batch_loop_flatten in Hbatch as [fuel' Hflat].
    simpl in Hflat.
    apply (sort_loop_more_fuel g fuel1 (Nat.max fuel1 fuel')) in Hsort;
      [|lia].
    apply (sort_loop_more_fuel g fuel' (Nat.max fuel1 fuel')) in Hflat;
      [|lia].
    congruence.
Qed.

Lemma batches_flatten_to_order_witness :
  topological_sort 4 graph_diamond = Some ["A"; "B"; "C"; "D"] /\
  get_parallel_batches 3 graph_diamond = Some [["A"]; ["B"; "C"]; ["D"]] /\
  List.concat [["A"]; ["B"; "C"]; ["D"]] = ["A"; "B"; "C"; "D"].
Proof.
  split; [reflexivity|]. split; [reflexivity|].
  exact (batches_flatten_to_order graph_diamond 4 3 _ _ eq_refl eq_refl).
Defined.

(** ** The sequencer and the partitioner on graphs of any shape *)

Lemma kahn_inv_roots (g : task_graph) (deg : Dict.t Z) (done : list string)
    (x : string) :
  kahn_inv g deg done [] -> In x (graph_nodes g) -> deps_of g x = [] ->
  In x done.
Proof.
  intros [_ _ Hdeg Hzero _ _] Hx Hnone. rewrite app_nil_r in Hzero.
  apply (Hzero x Hx). rewrite Hdeg, Hnone, hits_no_deps. reflexivity.
Qed.

(** X1. On every graph, cyclic or not, [topological_sort] ends within
    one iteration per node, and its output holds no node twice, holds only
    nodes of the graph, places every node it holds after all of that
    node's dependencies, and holds every node that has no dependencies
    (the IDs that occur only as dependencies among them). *)
Theorem topological_sort_any_graph (g : task_graph) :
  Dict.wf g ->
  (forall fuel,
     List.length (graph_nodes g) <= fuel ->
     exists order, topological_sort fuel g = Some order) /\
  (forall fuel order,
     topological_sort fuel g = Some order ->
     NoDup order /\
     incl order (graph_nodes g) /\
     (forall dep node,
        In node order -> In dep (deps_of g node) -> before order dep node) /\
     (forall x, In x (graph_nodes g) -> deps_of g x = [] -> In x order)).
Proof.
  intros Hwf. split.
  - intros fuel Hfuel. now apply topological_sort_returns.
  - intros fuel order Hrun.
    destruct (topological_sort_inv g fuel order Hwf Hrun) as [deg Hinv].
    assert (Hroots := fun x => kahn_inv_roots g deg order x Hinv).
    destruct Hinv as [Hnd Hnodes Hdeg Hzero Hdeps Hord].
    rewrite app_nil_r in Hnd, Hnodes.
    split; [assumption|]. split; [assumption|]. split.
    + intros dep node Hin Hdep. now apply (ordered_before g).
    + exact Hroots.
Qed.

Lemma topological_sort_any_graph_witness :
  Dict.wf graph_root_then_cycle /\
  topological_sort 3 graph_root_then_cycle = Some ["A"] /\
  NoDup ["A"] /\
  incl ["A"] (graph_nodes graph_root_then_cycle) /\
  (forall dep node,
     In node ["A"] -> In dep (deps_of graph_root_then_cycle node) ->
     before ["A"] dep node) /\
  (forall x, In x (graph_nodes graph_root_then_cycle) ->
             deps_of graph_root_then_cycle x = [] -> In x ["A"]).
Proof.
  assert (Hwf : Dict.wf graph_root_then_cycle) by distinct_by_computation.
  split; [exact Hwf|]. split; [reflexivity|].
  exact (proj2 (topological_sort_any_graph graph_root_then_cycle Hwf)
           3 ["A"] eq_refl).
Defined.

Lemma batch_loop_nonempty (g : task_graph) (fuel : nat) (deg : Dict.t Z)
    (current : list string) (batches result : list (list string)) :
  batch_loop fuel g deg current batches = Some result ->
  (forall batch, In batch batches -> batch <> []) ->
  forall batch, In batch result -> batch <> [].
Proof.
  revert deg current batches. induction fuel as [|fuel IH];
    intros deg current batches Hrun Hne.
  - destruct current; [|discriminate]. now injection Hrun as <-.
  - destruct current as [|node rest] eqn:Hcur.
    + now injection Hrun as <-.
    + cbn [batch_loop] in Hrun.
      destruct (release_batch g (node :: rest) deg []) as [deg1 next].
      apply (IH _ _ _ Hrun). intros batch Hin.
      apply in_app_or in Hin as [Hin | [<- | []]]; [auto | discriminate].
Qed.

(** X2. On every graph, cyclic or not, [get_parallel_batches] ends
    within one iteration per node; no batch it returns is empty, no node
    is in two batches or twice in one, every node is a node of the graph,
    and every dependency of a task of batch [k] is in a batch before
    [k]. *)
Theorem get_parallel_batches_any_graph (g : task_graph) :
  Dict.wf g ->
  (forall fuel,
     List.length (graph_nodes g) <= fuel ->
     exists batches, get_parallel_batches fuel g = Some batches) /\
  (forall fuel batches,
     get_parallel_batches fuel g = Some batches ->
     (forall batch, In batch batches -> batch <> []) /\
     NoDup (List.concat batches) /\
     incl (List.concat batches) (graph_nodes g) /\
     (forall k batch task_id dep,
        nth_error batches k = Some batch -> In task_id batch ->
        In dep (deps_of g task_id) ->
        exists j earlier,
          j < k /\ nth_error batches j = Some earlier /\ In dep earlier)).
Proof.
  intros Hwf. split.
  - intros fuel Hfuel. now apply get_parallel_batches_returns.
  - intros fuel batches Hrun.
    destruct (get_parallel_batches_inv g fuel batches Hwf Hrun)
      as [[deg Hinv] Hlay].
    destruct Hinv as [Hnd Hnodes _ _ _ _]. rewrite app_nil_r in *.
    split; [|split; [assumption | split; [assumption|]]].
    + unfold get_parallel_batches in Hrun. destruct (is_empty g).
      * injection Hrun as <-. intros ? [].
      * apply (batch_loop_nonempty _ _ _ _ _ _ Hrun). intros ? [].
    + intros k batch task_id dep Hk Hin Hdep.
      apply In_concat_firstn. now apply (Hlay k batch task_id Hk Hin).
Qed.

Lemma get_parallel_batches_any_graph_witness :
  Dict.wf graph_root_then_cycle /\
  get_parallel_batches 3 graph_root_then_cycle = Some [["A"]] /\
  (forall batch, In batch [["A"]] -> batch <> []) /\
  NoDup (List.concat [["A"]]) /\
  incl (List.concat [["A"]]) (graph_nodes graph_root_then_cycle) /\
  (forall k batch task_id dep,
     nth_error [["A"]] k = Some batch -> In task_id batch ->
     In dep (deps_of graph_root_then_cycle task_id) ->
     exists j earlier,
       j < k /\ nth_error [["A"]] j = Some earlier /\ In dep earlier).
Proof.
  assert (Hwf : Dict.wf graph_root_then_cycle) by distinct_by_computation.
  split; [exact Hwf|]. split; [reflexivity|].
  exact (proj2 (get_parallel_batches_any_graph graph_root_then_cycle Hwf)
           3 [["A"]] eq_refl).
Defined.

(** ** Batches are as early as they can be *)

Lemma release_pushes_dependents (g : task_graph) (node : string)
    (dependents : list string) (deg : Dict.t Z) (queue : list string)
    (x : string) :
  In x (snd (release g node dependents deg queue)) ->
  In x queue \/ In node (deps_of g x).
Proof.
  revert deg queue. induction dependents as [|y ys IH]; intros deg queue;
    cbn [release]; [tauto|].
  destruct (mem node (deps_of g y)) eqn:Hm; [|apply IH].
  destruct (Z.eqb _ 0); [|apply IH].
  intros H. apply IH in H as [H | H]; [|tauto].
  apply in_app_or in H as [H | [<- | []]]; [tauto|].
  right. now apply mem_In.
Qed.

Lemma release_batch_pushes_dependents (g : task_graph) (batch : list string)
    (deg : Dict.t Z) (next : list string) (x : string) :
  In x (snd (release_batch g batch deg next)) ->
  In x next \/ exists node, In node batch /\ In node (deps_of g x).
Proof.
  revert deg next. induction batch as [|node batch IH]; intros deg next;
    cbn [release_batch]; [tauto|].
  destruct (release g node (Dict.keys g) deg next) as [deg1 next1] eqn:E.
  intros H. apply IH in H as [H | (n & Hn & Hdep)].
  - assert (H' : In x (snd (release g node (Dict.keys g) deg next)))
      by now rewrite E.
    apply release_pushes_dependents in H' as [H' | H']; [tauto|].
    right. exists node. split; [now left | assumption].
  - right. exists n. split; [now right | assumption].
Qed.

Lemma tight_snoc (g : task_graph) (batches : list (list string))
    (batch : list string) :
  tight g batches ->
  (forall prev task_id,
     nth_error batches (List.length batches - 1) = Some prev ->
     In task_id batch ->
     exists dep, In dep prev /\ In dep (deps_of g task_id)) ->
  tight g (batches ++ [batch]).
Proof.
  intros Htight Hlast k prev b task_id Hk Hsk Hin.
  destruct (Nat.lt_ge_cases (S k) (List.length batches)) as [Hlt | Hge].
  - rewrite nth_error_app1 in Hk by lia.
    rewrite nth_error_app1 in Hsk by lia. eauto.
  - rewrite nth_error_app2 in Hsk by lia.
    destruct (S k - List.length batches) as [|j] eqn:Ej.
    + simpl in Hsk. injection Hsk as <-.
      rewrite nth_error_app1 in Hk by lia.
      apply (Hlast prev task_id); [|assumption].
      now replace (List.length batches - 1) with k by lia.
    + simpl in Hsk. destruct j; discriminate.
Qed.

Lemma batch_loop_tight (g : task_graph) (fuel : nat) (deg : Dict.t Z)
    (current : list string) (batches result : list (list string)) :
  batch_loop fuel g deg current batches = Some result ->
  tight g batches ->
  (forall prev task_id,
     nth_error batches (List.length batches - 1) = Some prev ->
     In task_id current ->
     exists dep, In dep prev /\ In dep (deps_of g task_id)) ->
  tight g result.
Proof.
  revert deg current batches. induction fuel as [|fuel IH];
    intros deg current batches Hrun Htight Hcur.
  - destruct current; [|discriminate]. now injection Hrun as <-.
  - destruct current as [|node rest] eqn:E.
    + now injection Hrun as <-.
    + rewrite <- E in *. assert (Hrun' := Hrun). rewrite E in Hrun'.
      cbn [batch_loop] in Hrun'. rewrite <- E in Hrun'.
      destruct (release_batch g current deg []) as [deg1 next] eqn:Er.
      apply (IH _ _ _ Hrun').
      * now apply tight_snoc.
      * intros prev task_id Hprev Hin.
        rewrite length_app, nth_error_app2 in Hprev by (simpl; lia).
        replace (List.length batches + List.length [current] - 1
                 - List.length batches) with 0 in Hprev by (simpl; lia).
        simpl in Hprev. injection Hprev as <-.
        assert (H : In task_id (snd (release_batch g current deg [])))
          by now rewrite Er.
        apply release_batch_pushes_dependents in H as [[] | H].
        exact H.
Qed.

Lemma batch_loop_head (g : task_graph) (fuel : nat) (deg : Dict.t Z)
    (current : list string) (batches result : list (list string)) :
  batch_loop fuel g deg current batches = Some result ->
  exists rest, result = batches ++ rest /\ hd [] rest = current.
Proof.
  revert deg current batches. induction fuel as [|fuel IH];
    intros deg current batches Hrun.
  - destruct current; [|discriminate]. injection Hrun as <-.
    exists []. now rewrite app_nil_r.
  - destruct current as [|node rest] eqn:E.
    + injection Hrun as <-. exists []. now rewrite app_nil_r.
    + cbn [batch_loop] in Hrun.
      destruct (release_batch g (node :: rest) deg []) as [deg1 next].
      apply IH in Hrun as (rest' & -> & _).
      exists ((node :: rest) :: rest'). rewrite <- app_assoc. auto.
Qed.

(** X3. The batches of [get_parallel_batches] are as early as the
    dependencies allow: the first batch is exactly the nodes without
    dependencies (there is no batch at all when every node has one), and
    every task of a later batch has a dependency in the batch just
    before it. *)
Theorem get_parallel_batches_earliest (g : task_graph) (fuel : nat)
    (batches : list (list string)) :
  Dict.wf g ->
  get_parallel_batches fuel g = Some batches ->
  (forall x, In x (hd [] batches) <->
             In x (graph_nodes g) /\ deps_of g x = []) /\
  tight g batches.
Proof.
  intros Hwf Hrun. unfold get_parallel_batches in Hrun.
  destruct g as [|item g'] eqn:Hg.
  - injection Hrun as <-. split.
    + intros x. simpl. tauto.
    + intros k prev batch task_id Hk. destruct k; discriminate.
  - rewrite <- Hg in *. replace (is_empty g) with false in Hrun
      by now rewrite Hg.
    split.
    + destruct (batch_loop_head _ _ _ _ _ _ Hrun) as (rest & -> & Hhd).
      simpl. rewrite Hhd. intros x.
      destruct (compute_in_degree_spec g Hwf) as (_ & Dkeys & Ddeg).
      unfold zero_degree_nodes.
      rewrite filter_In, Dkeys, Z.eqb_eq, Ddeg.
      destruct (deps_of g x); simpl; intuition (try discriminate; try lia).
    + apply (batch_loop_tight _ _ _ _ _ _ Hrun).
      * intros k prev batch task_id Hk. destruct k; discriminate.
      * intros prev task_id Hprev. discriminate.
Qed.

Lemma get_parallel_batches_earliest_witness :
  Dict.wf graph_diamond /\
  get_parallel_batches 3 graph_diamond = Some [["A"]; ["B"; "C"]; ["D"]] /\
  (forall x, In x (hd [] [["A"]; ["B"; "C"]; ["D"]]) <->
             In x (graph_nodes graph_diamond) /\
             deps_of graph_diamond x = []) /\
  tight graph_diamond [["A"]; ["B"; "C"]; ["D"]].
Proof.
  assert (Hwf : Dict.wf graph_diamond) by distinct_by_computation.
  split; [exact Hwf|]. split; [reflexivity|].
  exact (get_parallel_batches_earliest graph_diamond 3 _ Hwf eq_refl).
Defined.

(** ** What the validator accepts *)

Lemma nth_error_In_firstn {A : Type} (l : list A) (i j : nat) (x : A) :
  nth_error l i = Some x -> i < j -> In x (firstn j l).
Proof.
  intros Hi Hlt. apply (nth_error_In (firstn j l) i).
  rewrite nth_error_firstn.
  replace (Nat.ltb i j) with true by (symmetry; now apply Nat.ltb_lt).
  assumption.
Qed.

Lemma before_ordered (g : task_graph) (order : list string) :
  NoDup order ->
  (forall dep dependent, edge g dep dependent -> before order dep dependent) ->
  ordered g order.
Proof.
  intros Hnd Hbefore i node Hi dep Hdep.
  assert (Hkey : In node (Dict.keys g)).
  { apply deps_of_key. intros E. now rewrite E in Hdep. }
  destruct (Hbefore dep node (conj Hkey Hdep)) as (i' & j' & Hi' & Hj' & Hlt).
  assert (Heq : j' = i).
  { apply (proj1 (NoDup_nth_error order) Hnd).
    - apply nth_error_Some. congruence.
    - congruence. }
  subst j'. now apply (nth_error_In_firstn order i' i).
Qed.

Lemma validate_ordering_sound (g : task_graph) (order : list string) :
  NoDup order -> validate_ordering g order = true ->
  (forall x, In x order <-> In x (graph_nodes g)) /\
  (forall dep dependent, edge g dep dependent -> before order dep dependent).
Proof.
  intros Hnd Hv. unfold validate_ordering in Hv.
  destruct g as [|item g'] eqn:Hg.
  - destruct order; [|discriminate]. split.
    + intros x. simpl. tauto.
    + intros dep dependent [[] _].
  - rewrite <- Hg in *. replace (is_empty g) with false in Hv
      by now rewrite Hg.
    destruct order as [|x0 order'] eqn:Ho; [discriminate|].
    rewrite <- Ho in *. replace (is_empty order) with false in Hv
      by now rewrite Ho.
    cbn [andb orb] in Hv.
    destruct (same_set order (graph_nodes g)) eqn:Hsame; [|discriminate].
    cbn [negb] in Hv.
    assert (Hsame' := proj1 (same_set_iff _ _) Hsame). clear Hsame.
    rename Hsame' into Hsame.
    split; [assumption|].
    intros dep dependent [Hkey Hdep].
    rewrite forallb_forall in Hv. specialize (Hv dependent Hkey).
    rewrite forallb_forall in Hv. specialize (Hv dep Hdep).
    apply negb_true_iff, Nat.leb_gt in Hv.
    assert (Hin1 : In dependent order).
    { apply Hsame. unfold graph_nodes. apply in_or_app. now left. }
    assert (Hin2 : In dep order).
    { apply Hsame. unfold graph_nodes. apply in_or_app. right.
      apply in_concat. exists (deps_of g dependent). split; [|assumption].
      unfold deps_of in *. destruct (Dict.get g dependent) eqn:Hget;
        [|contradiction].
      apply get_Some_In in Hget. now apply (in_map snd) in Hget. }
    apply In_nth_error in Hin1 as [j Hj]. apply In_nth_error in Hin2 as [i Hi].
    rewrite (position_of_nth order j dependent Hnd Hj) in Hv.
    rewrite (position_of_nth order i dep Hnd Hi) in Hv.
    exists i, j. auto.
Qed.

(** X4. For an ordering that holds no task twice, [validate_ordering]
    returns [True] exactly when the ordering holds the nodes of the graph
    (keys and listed dependencies) and no others, and the source of every
    edge stands before its target. *)
Theorem validate_ordering_exact (g : task_graph) (order : list string) :
  NoDup order ->
  (validate_ordering g order = true <->
   (forall x, In x order <-> In x (graph_nodes g)) /\
   (forall dep dependent,
      edge g dep dependent -> before order dep dependent)).
Proof.
  intros Hnd. split.
  - now apply validate_ordering_sound.
  - intros [Hsame Hbefore].
    apply validate_ordering_accepts; [assumption | assumption |].
    now apply before_ordered.
Qed.

Lemma validate_ordering_exact_witness :
  NoDup ["A"; "C"; "B"; "D"] /\
  (validate_ordering graph_diamond ["A"; "C"; "B"; "D"] = true <->
   (forall x, In x ["A"; "C"; "B"; "D"] <-> In x (graph_nodes graph_diamond)) /\
   (forall dep dependent,
      edge graph_diamond dep dependent ->
      before ["A"; "C"; "B"; "D"] dep dependent)).
Proof.
  assert (Hnd : NoDup ["A"; "C"; "B"; "D"]) by distinct_by_computation.
  split; [exact Hnd|].
  exact (validate_ordering_exact graph_diamond ["A"; "C"; "B"; "D"] Hnd).
Defined.

(** ** What a cycle costs *)

Lemma ordered_closed (g : task_graph) (order : list string) (a b : string) :
  ordered g order -> clos_trans string (edge g) a b ->
  In b order -> In a order.
Proof.
  intros Hord Hpath. induction Hpath as [a b [_ Hdep] | a b c _ IH1 _ IH2];
    intros Hin.
  - apply In_nth_error in Hin as [j Hj].
    apply (Hord j b Hj) in Hdep.
    apply In_firstn_nth in Hdep as (i & _ & Hi).
    eapply nth_error_In; eassumption.
  - auto.
Qed.

(** X5. A cycle is dropped silently, with everything behind it: when
    [topological_sort] or [get_parallel_batches] returns, its output holds
    no node of a cycle and no node that depends, directly or through other
    tasks, on a node the output lacks. *)
Theorem cycles_dropped_with_dependents (g : task_graph) :
  Dict.wf g ->
  (forall fuel order,
     topological_sort fuel g = Some order ->
     (forall node, clos_trans string (edge g) node node -> ~ In node order) /\
     (forall a b, clos_trans string (edge g) a b ->
                  ~ In a order -> ~ In b order)) /\
  (forall fuel batches,
     get_parallel_batches fuel g = Some batches ->
     (forall node, clos_trans string (edge g) node node ->
                   ~ In node (List.concat batches)) /\
     (forall a b, clos_trans string (edge g) a b ->
                  ~ In a (List.concat batches) ->
                  ~ In b (List.concat batches))).
Proof.
  intros Hwf.
  assert (Hgen : forall deg done,
            kahn_inv g deg done [] ->
            (forall node, clos_trans string (edge g) node node ->
                          ~ In node done) /\
            (forall a b, clos_trans string (edge g) a b ->
                         ~ In a done -> ~ In b done)).
  { intros deg done [Hnd _ _ _ _ Hord]. rewrite app_nil_r in Hnd. split.
    - intros node Hcycle Hin. apply (before_irrefl done node Hnd).
      now apply (ordered_path_before g).
    - intros a b Hpath Ha Hb. apply Ha.
      now apply (ordered_closed g done a b). }
  split.
  - intros fuel order Hrun.
    destruct (topological_sort_inv g fuel order Hwf Hrun) as [deg Hinv].
    now apply (Hgen deg).
  - intros fuel batches Hrun.
    destruct (get_parallel_batches_inv g fuel batches Hwf Hrun)
      as [[deg Hinv] _].
    now apply (Hgen deg).
Qed.

Lemma cycles_dropped_with_dependents_witness :
  Dict.wf graph_root_then_cycle /\
  (forall fuel order,
     topological_sort fuel graph_root_then_cycle = Some order ->
     (forall node, clos_trans string (edge graph_root_then_cycle) node node ->
                   ~ In node order) /\
     (forall a b, clos_trans string (edge graph_root_then_cycle) a b ->
                  ~ In a order -> ~ In b order)) /\
  (forall fuel batches,
     get_parallel_batches fuel graph_root_then_cycle = Some batches ->
     (forall node, clos_trans string (edge graph_root_then_cycle) node node ->
                   ~ In node (List.concat batches)) /\
     (forall a b, clos_trans string (edge graph_root_then_cycle) a b ->
                  ~ In a (List.concat batches) ->
                  ~ In b (List.concat batches))).
Proof.
  assert (Hwf : Dict.wf graph_root_then_cycle) by distinct_by_computation.
  split; [exact Hwf|].
  exact (cycles_dropped_with_dependents graph_root_then_cycle Hwf).
Defined.

(** ** Blocked tasks *)

Lemma dep_ok_iff (q : task_queue) (dep_id : string) :
  dep_ok q dep_id = true <-> dep_succeeded q dep_id.
Proof.
  unfold dep_ok, dep_succeeded.
  destruct (Dict.get q dep_id) as [t|].
  - rewrite andb_true_iff, String.eqb_eq. split.
    + intros [Hst Hres]. destruct (result t) as [r|] eqn:Hr; [|discriminate].
      exists t, r. repeat split; auto.
    + intros (t' & r & [= <-] & Hst & Hres & Hok). rewrite Hres. auto.
  - split; [discriminate|]. intros (t' & r & H & _). discriminate.
Qed.

Lemma deps_all_succeeded_forallb (q : task_queue) (deps : list string) :
  deps_all_succeeded q deps = forallb (dep_ok q) deps.
Proof.
  induction deps as [|d deps IH]; [reflexivity|].
  cbn [deps_all_succeeded forallb]. unfold dep_ok at 1.
  destruct (Dict.get q d) as [t|]; [|reflexivity].
  destruct (String.eqb (get_state t) TaskState.COMPLETED); [|reflexivity].
  destruct (result t) as [r|]; [|reflexivity].
  destruct (get_success r); [exact IH | reflexivity].
Qed.

Lemma check_dependencies_forallb (task_id : string) (q : task_queue)
    (deps : list string) :
  _check_dependencies_satisfied task_id q deps = forallb (dep_ok q) deps.
Proof.
  unfold _check_dependencies_satisfied. destruct deps; [reflexivity|].
  apply deps_all_succeeded_forallb.
Qed.

Lemma unmet_deps_empty (q : task_queue) (task_info : task) :
  is_empty (unmet_deps q task_info)
  = forallb (dep_ok q) (get_dependencies task_info).
Proof.
  unfold unmet_deps. induction (get_dependencies task_info) as [|d ds IH];
    [reflexivity|].
  cbn [filter forallb]. destruct (dep_ok q d); [exact IH | reflexivity].
Qed.

Lemma incomplete_deps_loop_spec (q : task_queue) (deps acc : list string) :
  incomplete_deps_loop q deps acc
  = if existsb (dep_without_result q) deps then Raise AttributeError
    else Return (acc ++ filter (fun d => negb (dep_ok q d)) deps).
Proof.
  revert acc. induction deps as [|d deps IH]; intros acc.
  - simpl. now rewrite app_nil_r.
  - cbn [incomplete_deps_loop existsb filter].
    unfold dep_without_result at 1, dep_ok at 1.
    destruct (Dict.get q d) as [t|]; cbn [orb negb].
    + destruct (String.eqb (get_state t) TaskState.COMPLETED);
        cbn [negb andb orb].
      * destruct (result t) as [r|]; [|reflexivity]. cbn [orb].
        destruct (get_success r); cbn [negb]; rewrite IH;
          [reflexivity|].
        destruct (existsb _ deps); [reflexivity|].
        now rewrite <- app_assoc.
      * rewrite IH. destruct (existsb _ deps); [reflexivity|].
        now rewrite <- app_assoc.
    + rewrite IH. destruct (existsb _ deps); [reflexivity|].
      now rewrite <- app_assoc.
Qed.

Lemma set_absent_app {V : Type} (d : Dict.t V) (k : string) (v : V) :
  ~ In k (Dict.keys d) -> Dict.set d k v = d ++ [(k, v)].
Proof.
  induction d as [|[k' v'] d IH]; simpl; [reflexivity|].
  intros H. destruct (String.eqb k k') eqn:E.
  - apply String.eqb_eq in E. subst. tauto.
  - f_equal. apply IH. tauto.
Qed.

Lemma blocked_loop_spec (q : task_queue) (items : list (string * task))
    (blocked : Dict.t (list string)) :
  NoDup (Dict.keys blocked ++ Dict.keys items) ->
  blocked_loop q items blocked
  = if existsb (breaking_item q) items then Raise AttributeError
    else Return
           (blocked
            ++ map (fun item => (fst item, unmet_deps q (snd item)))
                 (filter (blocked_item q) items)).
Proof.
  revert blocked. induction items as [|[task_id task_info] items IH];
    intros blocked Hnd.
  - simpl. now rewrite app_nil_r.
  - assert (Hnd' : NoDup (Dict.keys blocked ++ Dict.keys items)).
    { simpl in Hnd. now apply NoDup_remove_1 in Hnd. }
    assert (Hout : ~ In task_id (Dict.keys blocked)).
    { simpl in Hnd. apply NoDup_remove_2 in Hnd. intros H. apply Hnd.
      apply in_or_app. now left. }
    cbn [blocked_loop existsb filter]. unfold breaking_item at 1,
      blocked_item at 1. cbn [fst snd].
    destruct (claimed_or_done (get_state task_info)); cbn [negb andb orb].
    + now apply IH.
    + rewrite incomplete_deps_loop_spec.
      destruct (existsb (dep_without_result q) (get_dependencies task_info));
        [reflexivity|].
      cbn [bind app orb]. fold (unmet_deps q task_info).
      destruct (unmet_deps q task_info) as [|u us] eqn:Hu; cbn [is_empty negb].
      * now apply IH.
      * rewrite IH.
        -- destruct (existsb (breaking_item q) items); [reflexivity|].
           rewrite set_absent_app by assumption.
           cbn [map fst snd]. rewrite Hu, <- app_assoc. reflexivity.
        -- rewrite set_absent_app by assumption.
           unfold Dict.keys in *. rewrite map_app. simpl.
           rewrite <- app_assoc. exact Hnd.
Qed.

Lemma get_blocked_tasks_spec (q : task_queue) :
  Dict.wf q ->
  get_blocked_tasks q
  = if existsb (breaking_item q) q then Raise AttributeError
    else Return (map (fun item => (fst item, unmet_deps q (snd item)))
                   (filter (blocked_item q) q)).
Proof.
  intros Hwf. unfold get_blocked_tasks. now rewrite blocked_loop_spec.
Qed.

Lemma get_blocked_tasks_entries (q : task_queue)
    (blocked : Dict.t (list string)) :
  Dict.wf q ->
  get_blocked_tasks q = Return blocked ->
  forall task_id deps,
    Dict.get blocked task_id = Some deps <->
    exists task_info,
      Dict.get q task_id = Some task_info /\
      claimable_state (get_state task_info) /\
      deps = unmet_deps q task_info /\ deps <> [].
Proof.
  intros Hwf. rewrite (get_blocked_tasks_spec q Hwf).
  destruct (existsb (breaking_item q) q); [discriminate|]. intros [= <-].
  assert (Hwf' : Dict.wf
              (map (fun item => (fst item, unmet_deps q (snd item)))
                 (filter (blocked_item q) q))).
  { unfold Dict.wf, Dict.keys. rewrite map_map. simpl.
    now apply NoDup_keys_filter. }
  intros t deps. split.
  - intros Hget. apply get_Some_In in Hget.
    apply in_map_iff in Hget as [[t' info] [[= <- <-] Hin]].
    apply filter_In in Hin as [Hin Hb]. unfold blocked_item in Hb.
    simpl in Hb. apply andb_true_iff in Hb as [Hst Hne].
    exists info. split; [now apply In_get|]. split; [|split].
    + apply claimed_or_done_false. now apply negb_true_iff.
    + reflexivity.
    + intros E. rewrite E in Hne. discriminate.
  - intros (info & Hget & Hst & -> & Hne).
    apply In_get; [assumption|]. apply in_map_iff.
    exists (t, info). split; [reflexivity|]. apply filter_In.
    split; [now apply get_Some_In|]. unfold blocked_item. simpl.
    apply andb_true_iff. split.
    + apply negb_true_iff. now apply claimed_or_done_false.
    + destruct (unmet_deps q info); [contradiction | reflexivity].
Qed.

(** X6. [get_blocked_tasks] raises exactly when a task that is not in
    progress, completed or failed has a dependency in state completed
    whose result is [None], and then it raises [AttributeError]. Otherwise
    it returns a dictionary that maps a task to a list iff the task is in
    none of those three states and the list, which is not empty, holds
    its dependencies that are not completed with a true success flag
    (unknown IDs among them), in the order the task lists them. *)
Theorem get_blocked_tasks_exact (q : task_queue) :
  Dict.wf q ->
  (forall e, get_blocked_tasks q = Raise e ->
             e = AttributeError /\
             exists task_id task_info dep_id,
               Dict.get q task_id = Some task_info /\
               claimable_state (get_state task_info) /\
               In dep_id (get_dependencies task_info) /\
               dep_without_result q dep_id = true) /\
  (forall blocked,
     get_blocked_tasks q = Return blocked ->
     (forall task_id task_info dep_id,
        Dict.get q task_id = Some task_info ->
        claimable_state (get_state task_info) ->
        In dep_id (get_dependencies task_info) ->
        dep_without_result q dep_id = false) /\
     (forall task_id deps,
        Dict.get blocked task_id = Some deps <->
        exists task_info,
          Dict.get q task_id = Some task_info /\
          claimable_state (get_state task_info) /\
          deps = unmet_deps q task_info /\ deps <> [])).
Proof.
  intros Hwf. rewrite (get_blocked_tasks_spec q Hwf).
  destruct (existsb (breaking_item q) q) eqn:Hbreak.
  - split; [|discriminate]. intros e [= <-]. split; [reflexivity|].
    apply existsb_exists in Hbreak as [[t info] [Hin Hb]].
    unfold breaking_item in Hb. simpl in Hb.
    apply andb_true_iff in Hb as [Hst Hex].
    apply existsb_exists in Hex as [d [Hd Hbad]].
    exists t, info, d. split; [now apply In_get|]. split; [|auto].
    apply claimed_or_done_false. now apply negb_true_iff.
  - split; [discriminate|]. intros blocked [= <-]. split.
    + intros t info d Hget Hst Hd.
      destruct (dep_without_result q d) eqn:Hbad; [|reflexivity].
      assert (Hno : existsb (breaking_item q) q = true); [|congruence].
      apply existsb_exists. exists (t, info).
      split; [now apply get_Some_In|]. unfold breaking_item. simpl.
      apply andb_true_iff. split.
      * apply negb_true_iff. now apply claimed_or_done_false.
      * apply existsb_exists. eauto.
    + apply get_blocked_tasks_entries; [assumption|].
      rewrite (get_blocked_tasks_spec q Hwf), Hbreak. reflexivity.
Qed.

Lemma get_blocked_tasks_exact_witness :
  Dict.wf queue_before /\
  get_blocked_tasks queue_before = Return [("B", ["A"]); ("C", ["A"; "B"])] /\
  (forall task_id task_info dep_id,
     Dict.get queue_before task_id = Some task_info ->
     claimable_state (get_state task_info) ->
     In dep_id (get_dependencies task_info) ->
     dep_without_result queue_before dep_id = false) /\
  (forall task_id deps,
     Dict.get [("B", ["A"]); ("C", ["A"; "B"])] task_id = Some deps <->
     exists task_info,
       Dict.get queue_before task_id = Some task_info /\
       claimable_state (get_state task_info) /\
       deps = unmet_deps queue_before task_info /\ deps <> []).
Proof.
  assert (Hwf : Dict.wf queue_before) by distinct_by_computation.
  split; [exact Hwf|]. split; [reflexivity|].
  exact (proj2 (get_blocked_tasks_exact queue_before Hwf) _ eq_refl).
Defined.

(** X7. When [get_blocked_tasks] returns, every task that is not in
    progress, completed or failed is either in the list of
    [get_ready_tasks] or a key of the dictionary of blocked tasks, never
    both; a task in one of the three states is in neither. *)
Theorem ready_or_blocked (q : task_queue) (blocked : Dict.t (list string)) :
  Dict.wf q ->
  get_blocked_tasks q = Return blocked ->
  forall task_id task_info,
    Dict.get q task_id = Some task_info ->
    (claimable_state (get_state task_info) ->
     (In task_id (get_ready_tasks q) <-> Dict.get blocked task_id = None)) /\
    (~ claimable_state (get_state task_info) ->
     ~ In task_id (get_ready_tasks q) /\ Dict.get blocked task_id = None).
Proof.
  intros Hwf Hrun t info Hget.
  assert (Hblocked := get_blocked_tasks_entries q blocked Hwf Hrun).
  assert (Hready := In_get_ready_tasks q t Hwf).
  assert (Hunmet : unmet_deps q info = [] <->
                   forall d, In d (get_dependencies info) -> dep_succeeded q d).
  { unfold unmet_deps. split.
    - intros E d Hd. apply dep_ok_iff.
      destruct (dep_ok q d) eqn:Hok; [reflexivity|].
      assert (Hin : In d (filter (fun x => negb (dep_ok q x))
                            (get_dependencies info))).
      { apply filter_In. split; [assumption|]. now rewrite Hok. }
      rewrite E in Hin. destruct Hin.
    - intros H. destruct (filter _ _) as [|d ds] eqn:E; [reflexivity|].
      assert (Hin : In d (filter (fun x => negb (dep_ok q x))
                            (get_dependencies info)))
        by (rewrite E; now left).
      apply filter_In in Hin as [Hd Hbad].
      apply H, dep_ok_iff in Hd. rewrite Hd in Hbad. discriminate. }
  split.
  - intros Hst. rewrite Hready. split.
    + intros (info' & Hget' & _ & Hdeps).
      rewrite Hget in Hget'. injection Hget' as <-.
      destruct (Dict.get blocked t) as [deps|] eqn:Hb; [|reflexivity].
      apply Hblocked in Hb as (info' & Hget' & _ & -> & Hne).
      rewrite Hget in Hget'. injection Hget' as <-.
      exfalso. apply Hne. now apply Hunmet.
    + intros Hnone. exists info. split; [assumption|]. split; [assumption|].
      apply Hunmet.
      destruct (unmet_deps q info) as [|d ds] eqn:E; [reflexivity|].
      assert (Hb : Dict.get blocked t = Some (d :: ds)).
      { apply Hblocked. exists info. rewrite E.
        repeat split; try assumption; try apply Hst. discriminate. }
      congruence.
  - intros Hst. split.
    + rewrite Hready. intros (info' & Hget' & Hst' & _).
      rewrite Hget in Hget'. injection Hget' as <-. contradiction.
    + destruct (Dict.get blocked t) as [deps|] eqn:Hb; [|reflexivity].
      apply Hblocked in Hb as (info' & Hget' & Hst' & _).
      rewrite Hget in Hget'. injection Hget' as <-. contradiction.
Qed.

Lemma ready_or_blocked_witness :
  Dict.wf queue_before /\
  get_blocked_tasks queue_before = Return [("B", ["A"]); ("C", ["A"; "B"])] /\
  forall task_id task_info,
    Dict.get queue_before task_id = Some task_info ->
    (claimable_state (get_state task_info) ->
     (In task_id (get_ready_tasks queue_before) <->
      Dict.get [("B", ["A"]); ("C", ["A"; "B"])] task_id = None)) /\
    (~ claimable_state (get_state task_info) ->
     ~ In task_id (get_ready_tasks queue_before) /\
     Dict.get [("B", ["A"]); ("C", ["A"; "B"])] task_id = None).
Proof.
  assert (Hwf : Dict.wf queue_before) by distinct_by_computation.
  split; [exact Hwf|]. split; [reflexivity|].
  exact (ready_or_blocked queue_before _ Hwf eq_refl).
Defined.

(** ** The summary *)

Lemma count_of_set (s : Dict.t Z) (k x : string) (v : Z) :
  count_of (Dict.set s k v) x = if String.eqb x k then v else count_of s x.
Proof.
  unfold count_of. destruct (String.eqb x k) eqn:E.
  - apply String.eqb_eq in E. subst. now rewrite get_set_eq.
  - apply String.eqb_neq in E. now rewrite get_set_neq.
Qed.

Lemma contains_set {V : Type} (d : Dict.t V) (k x : string) (v : V) :
  Dict.contains (Dict.set d k v) x = Dict.contains d x || String.eqb x k.
Proof.
  unfold Dict.contains. destruct (String.eqb x k) eqn:E.
  - apply String.eqb_eq in E. subst. rewrite get_set_eq. now rewrite orb_true_r.
  - apply String.eqb_neq in E. rewrite get_set_neq by assumption.
    now rewrite orb_false_r.
Qed.

Lemma tally_loop_spec (items : list (string * task)) (s : Dict.t Z)
    (k : string) :
  Dict.contains (fold_left tally_step items s) k = Dict.contains s k /\
  count_of (fold_left tally_step items s) k
  = (count_of s k
     + if Dict.contains s k then Z.of_nat (count_state items k) else 0)%Z.
Proof.
  revert s. induction items as [|[t info] items IH]; intros s.
  - simpl. split; [reflexivity|]. destruct (Dict.contains s k); lia.
  - cbn [fold_left]. destruct (IH (tally_step s (t, info))) as [Hc Hn].
    rewrite Hc, Hn. unfold tally_step, count_state. cbn [snd filter].
    destruct (Dict.contains s (get_state info)) eqn:Hin.
    + rewrite contains_set, count_of_set.
      rewrite (String.eqb_sym k (get_state info)).
      destruct (String.eqb (get_state info) k) eqn:E.
      * apply String.eqb_eq in E. subst k. rewrite Hin.
        split; [reflexivity|]. cbn [orb List.length]. lia.
      * rewrite orb_false_r. split; [reflexivity|]. reflexivity.
    + split; [reflexivity|].
      destruct (String.eqb (get_state info) k) eqn:E; [|reflexivity].
      apply String.eqb_eq in E. subst k. rewrite Hin. lia.
Qed.

Lemma ready_blocked_count (q : task_queue) (items : list (string * task)) :
  List.length (filter (ready_item q) items)
  + List.length (filter (blocked_item q) items)
  + count_state items TaskState.IN_PROGRESS
  + count_state items TaskState.COMPLETED
  + count_state items TaskState.FAILED
  = List.length items.
Proof.
  unfold count_state. induction items as [|[t info] items IH];
    [reflexivity|].
  cbn [filter List.length]. unfold ready_item at 1, blocked_item at 1.
  cbn [fst snd]. rewrite check_dependencies_forallb, unmet_deps_empty.
  unfold claimed_or_done, mem. cbn [existsb].
  destruct (forallb (dep_ok q) (get_dependencies info));
    generalize (get_state info); intros st;
    destruct (String.eqb st TaskState.IN_PROGRESS) eqn:E1;
    destruct (String.eqb st TaskState.COMPLETED) eqn:E2;
    destruct (String.eqb st TaskState.FAILED) eqn:E3;
    try (apply String.eqb_eq in E1; subst st; discriminate);
    try (apply String.eqb_eq in E2; subst st; discriminate);
    cbn [orb negb andb List.length]; lia.
Qed.

(** X8. [get_task_summary] raises exactly when [get_blocked_tasks]
    does. When it returns, ["ready"] is the number of tasks that
    [get_ready_tasks] reports, ["pending"], ["in_progress"], ["completed"]
    and ["failed"] count the tasks in that state, ["total"] is the number
    of tasks plus the number of tasks whose state is the string
    ["total"], and ready + blocked + in_progress + completed + failed is
    the number of tasks. *)
Theorem get_task_summary_counts (q : task_queue) :
  Dict.wf q ->
  (forall e, get_task_summary q = Raise e <-> get_blocked_tasks q = Raise e) /\
  (forall summary,
     get_task_summary q = Return summary ->
     count_of summary "ready" = Z.of_nat (List.length (get_ready_tasks q)) /\
     count_of summary "pending" = Z.of_nat (count_state q "pending") /\
     count_of summary "in_progress" = Z.of_nat (count_state q "in_progress") /\
     count_of summary "completed" = Z.of_nat (count_state q "completed") /\
     count_of summary "failed" = Z.of_nat (count_state q "failed") /\
     count_of summary "total"
     = Z.of_nat (List.length q + count_state q "total") /\
     (count_of summary "ready" + count_of summary "blocked"
      + count_of summary "in_progress" + count_of summary "completed"
      + count_of summary "failed")%Z
     = Z.of_nat (List.length q)).
Proof.
  intros Hwf. unfold get_task_summary.
  rewrite (get_blocked_tasks_spec q Hwf).
  destruct (existsb (breaking_item q) q).
  - split; [|discriminate]. intros e. cbn [bind]. split; intros [= <-]; reflexivity.
  - split; [intros e; cbn [bind]; split; discriminate|].
    cbn [bind]. intros summary [= <-].
    assert (Htally := fun k => proj2 (tally_loop_spec q (initial_summary q) k)).
    assert (Hcount := ready_blocked_count q q).
    rewrite get_ready_tasks_select, !length_map.
    rewrite !count_of_set. cbn [String.eqb Ascii.eqb Bool.eqb].
    rewrite !Htally. cbn [initial_summary Dict.contains Dict.get String.eqb
      Ascii.eqb Bool.eqb count_of].
    unfold TaskState.IN_PROGRESS, TaskState.COMPLETED, TaskState.FAILED
      in Hcount.
    repeat split; lia.
Qed.

Lemma get_task_summary_counts_witness :
  Dict.wf queue_ready_sample /\
  get_task_summary queue_ready_sample
  = Return [("pending", 2%Z); ("ready", 2%Z); ("in_progress", 0%Z);
            ("completed", 1%Z); ("failed", 0%Z); ("total", 3%Z);
            ("blocked", 0%Z)] /\
  (2 = Z.of_nat (List.length (get_ready_tasks queue_ready_sample)))%Z.
Proof.
  assert (Hwf : Dict.wf queue_ready_sample) by distinct_by_computation.
  split; [exact Hwf|]. split; [reflexivity|].
  exact (proj1 (proj2 (get_task_summary_counts queue_ready_sample Hwf)
                  _ eq_refl)).
Defined.

(** ** The incremental evaluator is exact on pending tasks *)

Lemma dependent_loop_keeps (updated : task_queue) (task_id : string)
    (items : list (string * task)) (acc : list string) (x : string) :
  In x acc -> In x (fold_left (dependent_step updated task_id) items acc).
Proof.
  revert acc. induction items as [|[k info] items IH]; intros acc Hx;
    [assumption|].
  cbn [fold_left]. apply IH. unfold dependent_step.
  destruct (String.eqb k task_id); [assumption|].
  destruct (mem task_id (get_dependencies info)); [|assumption].
  destruct (String.eqb (get_state info) TaskState.PENDING); [|assumption].
  destruct (_check_dependencies_satisfied k updated _); [|assumption].
  apply in_or_app. now left.
Qed.

Lemma dependent_loop_reports (updated : task_queue) (task_id : string)
    (items : list (string * task)) (acc : list string) (d : string)
    (info : task) :
  In (d, info) items -> d <> task_id ->
  In task_id (get_dependencies info) ->
  get_state info = TaskState.PENDING ->
  _check_dependencies_satisfied d updated (get_dependencies info) = true ->
  In d (fold_left (dependent_step updated task_id) items acc).
Proof.
  revert acc. induction items as [|[k kinfo] items IH]; intros acc;
    [intros []|].
  intros [[= -> ->] | Hin] Hne Hdep Hst Hck.
  - cbn [fold_left]. apply dependent_loop_keeps. unfold dependent_step.
    apply String.eqb_neq in Hne. rewrite Hne.
    apply mem_In in Hdep. rewrite Hdep, Hst, Hck. cbn.
    apply in_or_app. right. now left.
  - cbn [fold_left]. now apply IH.
Qed.

Lemma incremental_loop_keeps (prev updated : task_queue)
    (items : list (string * task)) (acc : list string) (x : string) :
  In x acc -> In x (fold_left (completed_step prev updated) items acc).
Proof.
  revert acc. induction items as [|[k info] items IH]; intros acc Hx;
    [assumption|].
  cbn [fold_left]. apply IH. unfold completed_step.
  destruct (_ || _); [assumption|]. now apply dependent_loop_keeps.
Qed.

Lemma incremental_loop_reports (prev updated : task_queue)
    (items : list (string * task)) (acc : list string)
    (task_id d : string) (task_info info : task) :
  In (task_id, task_info) items ->
  prev_state_of prev task_id <> get_state task_info ->
  get_state task_info = TaskState.COMPLETED ->
  In (d, info) updated -> d <> task_id ->
  In task_id (get_dependencies info) ->
  get_state info = TaskState.PENDING ->
  _check_dependencies_satisfied d updated (get_dependencies info) = true ->
  In d (fold_left (completed_step prev updated) items acc).
Proof.
  revert acc. induction items as [|[k kinfo] items IH]; intros acc;
    [intros []|].
  intros [[= -> ->] | Hin] Hchg Hdone Hd Hne Hdep Hst Hck.
  - cbn [fold_left]. apply incremental_loop_keeps. unfold completed_step.
    apply String.eqb_neq in Hchg. rewrite Hchg, Hdone. cbn.
    now apply (dependent_loop_reports updated task_id updated acc d info).
  - cbn [fold_left]. now apply (IH _ Hin).
Qed.

(** X9. When two queues differ by exactly one task's transition to
    completed, [get_ready_tasks_incremental] reports exactly the tasks in
    state pending that [get_ready_tasks] reports after the transition and
    did not report before it. *)
Theorem incremental_exact_on_pending (before after : task_queue)
    (task_id : string) :
  Dict.wf before -> Dict.wf after ->
  completes_one before after task_id ->
  forall d,
    In d (get_ready_tasks_incremental before after) <->
    In d (get_ready_tasks after) /\ ~ In d (get_ready_tasks before) /\
    exists info,
      Dict.get after d = Some info /\ get_state info = TaskState.PENDING.
Proof.
  intros Hwb Hwa (Hkeys & Hsame & Hprev & tinfo & Htget & Htdone) d. split.
  - intros Hd. apply incremental_loop_In in Hd as [[] | Hd].
    destruct Hd as (t & ti & info & Hti & Hchg & Hdone & Hinfo & Hne & Hdep
                    & Hst & Hck).
    assert (Ht : t = task_id).
    { destruct (string_dec t task_id) as [|Hneq]; [assumption|].
      exfalso. apply Hchg. unfold prev_state_of.
      rewrite <- (Hsame t Hneq). now rewrite (In_get _ _ _ Hwa Hti). }
    subst t. split; [|split].
    + apply In_get_ready_tasks; [assumption|]. exists info.
      split; [now apply In_get|]. split.
      * apply claimed_or_done_false. now rewrite Hst.
      * exact (proj1 (check_dependencies_iff _ _ _) Hck).
    + intros Hin. apply In_get_ready_tasks in Hin; [|assumption].
      destruct Hin as (info' & Hget & _ & Hdeps).
      rewrite <- (Hsame d Hne), (In_get _ _ _ Hwa Hinfo) in Hget.
      injection Hget as <-.
      destruct (Hdeps task_id Hdep) as (dt & r & Hg & Hs & _).
      apply Hprev. unfold prev_state_of. now rewrite Hg.
    + exists info. split; [now apply In_get | assumption].
  - intros (Hafter & Hbefore & info & Hget & Hst).
    apply In_get_ready_tasks in Hafter; [|assumption].
    destruct Hafter as (info' & Hget' & Hclaim & Hdeps).
    rewrite Hget in Hget'. injection Hget' as <-.
    assert (Hne : d <> task_id).
    { intros ->. rewrite Htget in Hget. injection Hget as <-.
      destruct Hclaim as (_ & Hc & _). contradiction. }
    assert (Hdep : In task_id (get_dependencies info)).
    { destruct (in_dec string_dec task_id (get_dependencies info))
        as [|Hout]; [assumption|].
      exfalso. apply Hbefore. apply In_get_ready_tasks; [assumption|].
      exists info. split; [now rewrite <- (Hsame d Hne)|].
      split; [assumption|]. intros e He.
      assert (Hee : e <> task_id) by (intros ->; contradiction).
      destruct (Hdeps e He) as (et & r & Hg & Hrest).
      exists et, r. split; [now rewrite <- (Hsame e Hee) | assumption]. }
    unfold get_ready_tasks_incremental.
    apply (incremental_loop_reports before after after [] task_id d
             tinfo info).
    + now apply get_Some_In.
    + rewrite Htdone. exact Hprev.
    + assumption.
    + now apply get_Some_In.
    + assumption.
    + assumption.
    + assumption.
    + now apply check_dependencies_iff.
Qed.

Lemma incremental_exact_on_pending_witness :
  Dict.wf queue_before /\ Dict.wf queue_after /\
  completes_one queue_before queue_after "A" /\
  forall d,
    In d (get_ready_tasks_incremental queue_before queue_after) <->
    In d (get_ready_tasks queue_after) /\
    ~ In d (get_ready_tasks queue_before) /\
    exists info,
      Dict.get queue_after d = Some info /\
      get_state info = TaskState.PENDING.
Proof.
  assert (Hwb : Dict.wf queue_before) by distinct_by_computation.
  assert (Hwa : Dict.wf queue_after) by distinct_by_computation.
  assert (Hone : completes_one queue_before queue_after "A").
  { split; [reflexivity|]. split; [|split].
    - intros k Hk. apply String.eqb_neq in Hk. simpl. now rewrite Hk.
    - discriminate.
    - eexists. split; reflexivity. }
  split; [exact Hwb|]. split; [exact Hwa|]. split; [exact Hone|].
  exact (incremental_exact_on_pending queue_before queue_after "A"
           Hwb Hwa Hone).
Defined.

(** ** What the validator of ready lists accepts *)

Lemma ready_claims_ok_iff (q : task_queue) (claimed : list string) :
  ready_claims_ok q claimed = true <->
  (forall task_id, In task_id claimed ->
     exists task_info,
       Dict.get q task_id = Some task_info /\
       get_state task_info = TaskState.PENDING /\
       _check_dependencies_satisfied task_id q (get_dependencies task_info)
       = true).
Proof.
  induction claimed as [|t claimed IH]; cbn [ready_claims_ok].
  - split; [intros _ ? [] | reflexivity].
  - destruct (Dict.get q t) as [info|] eqn:Hget.
    + destruct (String.eqb (get_state info) TaskState.PENDING) eqn:Hst;
        cbn [negb].
      * destruct (_check_dependencies_satisfied t q (get_dependencies info))
          eqn:Hck; cbn [negb].
        -- rewrite IH. apply String.eqb_eq in Hst. split.
           ++ intros H x [<- | Hx]; [eauto | auto].
           ++ intros H x Hx. apply H. now right.
        -- split; [discriminate|]. intros H.
           destruct (H t (or_introl eq_refl)) as (i & Hg & _ & Hc).
           congruence.
      * split; [discriminate|]. intros H.
        destruct (H t (or_introl eq_refl)) as (i & Hg & Hs & _).
        apply String.eqb_neq in Hst. congruence.
    + split; [discriminate|]. intros H.
      destruct (H t (or_introl eq_refl)) as (i & Hg & _). congruence.
Qed.

(** X10. [validate_ready_state] returns [True] exactly when the claimed
    list and the list of [get_ready_tasks] hold the same task IDs and
    every claimed task is in state pending: a ready task that carries any
    other state, such as ready, makes it return [False]. *)
Theorem validate_ready_state_exact (q : task_queue) (claimed : list string) :
  Dict.wf q ->
  (validate_ready_state q claimed = true <->
   (forall x, In x claimed <-> In x (get_ready_tasks q)) /\
   (forall task_id task_info,
      In task_id claimed -> Dict.get q task_id = Some task_info ->
      get_state task_info = TaskState.PENDING)).
Proof.
  intros Hwf. unfold validate_ready_state.
  destruct (same_set (get_ready_tasks q) claimed) eqn:Hsame; cbn [negb].
  - assert (Hs := proj1 (same_set_iff _ _) Hsame).
    rewrite ready_claims_ok_iff. split.
    + intros H. split; [intros x; symmetry; apply Hs|].
      intros t info Hin Hget. destruct (H t Hin) as (i & Hg & Hst & _).
      congruence.
    + intros [_ Hpend] t Hin.
      assert (Hr : In t (get_ready_tasks q)) by now apply Hs.
      destruct (proj1 (In_get_ready_tasks q t Hwf) Hr)
        as (info & Hget & _ & Hdeps).
      exists info. split; [assumption|]. split; [eauto|].
      now apply check_dependencies_iff.
  - split; [discriminate|]. intros [Hs _].
    assert (Hyes : same_set (get_ready_tasks q) claimed = true).
    { apply same_set_iff. intros x. symmetry. apply Hs. }
    congruence.
Qed.

Lemma validate_ready_state_exact_witness :
  Dict.wf queue_ready_sample /\
  (validate_ready_state queue_ready_sample ["C"; "B"] = true <->
   (forall x, In x ["C"; "B"] <-> In x (get_ready_tasks queue_ready_sample)) /\
   (forall task_id task_info,
      In task_id ["C"; "B"] ->
      Dict.get queue_ready_sample task_id = Some task_info ->
      get_state task_info = TaskState.PENDING)).
Proof.
  assert (Hwf : Dict.wf queue_ready_sample) by distinct_by_computation.
  split; [exact Hwf|].
  exact (validate_ready_state_exact queue_ready_sample ["C"; "B"] Hwf).
Defined.

(** ** Readiness after a state update *)



(** ** Success and failure branches *)

Lemma evaluate_success_iff (st : string) (res : option task_result) :
  evaluate_condition ConditionType.SUCCESS st res = Return true <->
  st = TaskState.COMPLETED /\
  exists r, res = Some r /\ get_success r = true.
Proof.
  unfold evaluate_condition. simpl.
  destruct (String.eqb st TaskState.COMPLETED) eqn:E; simpl.
  - apply String.eqb_eq in E. destruct res as [r|].
    + split.
      * intros [= H]. eauto.
      * intros (_ & r' & [= <-] & H). now rewrite H.
    + split; [discriminate|]. intros (_ & r' & H & _). discriminate.
  - apply String.eqb_neq in E. split; [discriminate|]. tauto.
Qed.

Lemma evaluate_always_iff (st : string) (res : option task_result) :
  evaluate_condition ConditionType.ALWAYS st res = Return true <->
  st = TaskState.COMPLETED \/ st = TaskState.FAILED.
Proof.
  unfold evaluate_condition. simpl. split.
  - intros [= H]. apply orb_true_iff in H as [H | H].
    + left. now apply String.eqb_eq.
    + right. rewrite orb_false_r in H. now apply String.eqb_eq.
  - intros [-> | ->]; reflexivity.
Qed.

Lemma dep_meets_success (q : task_queue) (dep_id : string) :
  dep_meets q ConditionType.SUCCESS dep_id <-> dep_succeeded q dep_id.
Proof.
  unfold dep_meets, dep_succeeded. split.
  - intros (dt & Hg & He). apply evaluate_success_iff in He
      as (Hst & r & Hres & Hok). exists dt, r. auto.
  - intros (dt & r & Hg & Hst & Hres & Hok). exists dt.
    split; [assumption|]. apply evaluate_success_iff. eauto.
Qed.

(** X12. In the list [get_ready_tasks_with_conditions] returns, a task
    with condition success and a task with condition failure that share a
    dependency are never both present; a task with condition success is
    present iff [get_ready_tasks] reports it; every task with condition
    always (the default) that [get_ready_tasks] reports is present; and a
    task with condition failure and at least one dependency is never in
    both lists. *)
Theorem conditional_branches_exclusive (q : task_queue)
    (ready : list string) :
  Dict.wf q ->
  get_ready_tasks_with_conditions q = Return ready ->
  (forall b c b_info c_info d,
     Dict.get q b = Some b_info -> Dict.get q c = Some c_info ->
     get_condition b_info = ConditionType.SUCCESS ->
     get_condition c_info = ConditionType.FAILURE ->
     In d (get_dependencies b_info) -> In d (get_dependencies c_info) ->
     ~ (In b ready /\ In c ready)) /\
  (forall t info,
     Dict.get q t = Some info ->
     (get_condition info = ConditionType.SUCCESS ->
      (In t ready <-> In t (get_ready_tasks q))) /\
     (get_condition info = ConditionType.ALWAYS ->
      In t (get_ready_tasks q) -> In t ready) /\
     (get_condition info = ConditionType.FAILURE ->
      get_dependencies info <> [] ->
      ~ (In t ready /\ In t (get_ready_tasks q)))).
Proof.
  intros Hwf Hrun. apply get_ready_tasks_with_conditions_result in Hrun.
  subst ready.
  assert (Hclash : forall d,
            dep_meets q ConditionType.SUCCESS d ->
            dep_meets q ConditionType.FAILURE d -> False).
  { intros d (dt & Hg & Hs) (dt' & Hg' & Hf).
    rewrite Hg in Hg'. injection Hg' as <-.
    apply evaluate_success_iff in Hs as (Hst & r & Hres & Hok).
    apply evaluate_failure_iff in Hf as [Hf | (_ & r' & Hres' & Hbad)].
    - rewrite Hst in Hf. discriminate.
    - congruence. }
  split.
  - intros b c bi ci d Hb Hc Hcb Hcc Hdb Hdc [Hinb Hinc].
    apply (In_conditional_ready q b bi Hwf Hb) in Hinb as [_ Hb'].
    apply (In_conditional_ready q c ci Hwf Hc) in Hinc as [_ Hc'].
    rewrite Hcb in Hb'. rewrite Hcc in Hc'.
    exact (Hclash d (Hb' d Hdb) (Hc' d Hdc)).
  - intros t info Hget.
    assert (Hcond := In_conditional_ready q t info Hwf Hget).
    assert (Hplain := In_get_ready_tasks q t Hwf).
    split; [|split].
    + intros Hc. rewrite Hcond, Hplain, Hc. split.
      * intros [Hst Hdeps]. exists info. split; [assumption|].
        split; [assumption|]. intros d Hd. now apply dep_meets_success, Hdeps.
      * intros (info' & Hget' & Hst & Hdeps).
        rewrite Hget in Hget'. injection Hget' as <-.
        split; [assumption|]. intros d Hd. now apply dep_meets_success, Hdeps.
    + intros Hc Hin. apply Hplain in Hin as (info' & Hget' & Hst & Hdeps).
      rewrite Hget in Hget'. injection Hget' as <-.
      apply Hcond. split; [assumption|]. rewrite Hc. intros d Hd.
      destruct (Hdeps d Hd) as (dt & r & Hg & Hs & _). exists dt.
      split; [assumption|]. apply evaluate_always_iff. now left.
    + intros Hc Hne [Hin1 Hin2].
      apply Hcond in Hin1 as [_ Hf]. rewrite Hc in Hf.
      apply Hplain in Hin2 as (info' & Hget' & _ & Hs).
      rewrite Hget in Hget'. injection Hget' as <-.
      destruct (get_dependencies info) as [|d ds]; [contradiction|].
      apply (Hclash d).
      * apply dep_meets_success, Hs. now left.
      * apply Hf. now left.
Qed.

Lemma conditional_branches_exclusive_witness :
  Dict.wf queue_branches /\
  get_ready_tasks_with_conditions queue_branches = Return ["C"] /\
  forall b c b_info c_info d,
    Dict.get queue_branches b = Some b_info ->
    Dict.get queue_branches c = Some c_info ->
    get_condition b_info = ConditionType.SUCCESS ->
    get_condition c_info = ConditionType.FAILURE ->
    In d (get_dependencies b_info) -> In d (get_dependencies c_info) ->
    ~ (In b ["C"] /\ In c ["C"]).
Proof.
  assert (Hwf : Dict.wf queue_branches) by distinct_by_computation.
  split; [exact Hwf|]. split; [reflexivity|].
  exact (proj1 (conditional_branches_exclusive queue_branches ["C"]
                  Hwf eq_refl)).
Defined.

(** ** Validation of a conditional graph *)

Lemma dep_errors_none (q : task_queue) (task_id : string)
    (deps acc : list string) :
  forallb (Dict.contains q) deps = true ->
  fold_left
    (fun errs dep_id =>
       if negb (Dict.contains q dep_id)
       then errs ++ [missing_dependency_error task_id dep_id]
       else errs) deps acc
  = acc.
Proof.
  revert acc. induction deps as [|d deps IH]; intros acc; [reflexivity|].
  cbn [forallb fold_left]. intros H. apply andb_true_iff in H as [Hd Hrest].
  rewrite Hd. cbn [negb]. now apply IH.
Qed.

Lemma validation_step_sound (q : task_queue) (acc : list string)
    (item : string * task) :
  sound_item q item = true -> validation_step q acc item = acc.
Proof.
  destruct item as [t info]. unfold sound_item, validation_step.
  cbn [fst snd]. intros H. apply andb_true_iff in H as [Hc Hd].
  rewrite Hc. cbn [negb]. now apply dep_errors_none.
Qed.

Lemma validation_step_unsound (q : task_queue) (acc : list string)
    (item : string * task) :
  sound_item q item = false -> validation_step q acc item <> [].
Proof.
  destruct item as [t info]. unfold sound_item. cbn [fst snd]. intros H.
  apply andb_false_iff in H as [Hc | Hd].
  - intros E.
    assert (Hin : In (invalid_condition_error t (get_condition info))
                    (validation_step q acc (t, info))).
    { unfold validation_step. apply missing_errors_incl. rewrite Hc.
      cbn [negb]. apply in_or_app. right. now left. }
    rewrite E in Hin. destruct Hin.
  - intros E.
    assert (Hex : exists d, In d (get_dependencies info) /\
                            Dict.contains q d = false).
    { clear - Hd. induction (get_dependencies info) as [|d ds IH];
        [discriminate|].
      cbn [forallb] in Hd. apply andb_false_iff in Hd as [Hd | Hd].
      - exists d. split; [now left | assumption].
      - destruct (IH Hd) as (d' & H1 & H2). exists d'.
        split; [now right | assumption]. }
    destruct Hex as (d & Hd1 & Hd2).
    assert (Hin : In (missing_dependency_error t d)
                    (validation_step q acc (t, info))).
    { unfold validation_step. now apply missing_errors_reported. }
    rewrite E in Hin. destruct Hin.
Qed.

Lemma validation_loop_empty (q : task_queue) (items : list (string * task)) :
  fold_left (validation_step q) items [] = [] <->
  forallb (sound_item q) items = true.
Proof.
  induction items as [|item items IH]; cbn [fold_left forallb].
  - tauto.
  - destruct (sound_item q item) eqn:Hs; cbn [andb].
    + now rewrite validation_step_sound.
    + split; [|discriminate]. intros E. exfalso.
      apply (validation_step_unsound q [] item Hs).
      destruct (validation_step q [] item) as [|x xs] eqn:Ev; [reflexivity|].
      assert (Hin : In x (fold_left (validation_step q) items (x :: xs))).
      { apply validation_loop_incl. now left. }
      rewrite E in Hin. destruct Hin.
Qed.

(** X13. [validate_conditional_graph] returns [valid = True] exactly
    when every task's condition is one of success, failure, always and
    every listed dependency is a key of the queue; it checks nothing
    else, cycles included. On a queue it accepts,
    [get_ready_tasks_with_conditions] returns without raising. *)
Theorem validate_conditional_graph_exact (q : task_queue) :
  (valid (validate_conditional_graph q) = true <->
   forall task_id task_info,
     In (task_id, task_info) q ->
     In (get_condition task_info) ConditionType.valid_conditions /\
     forall dep_id, In dep_id (get_dependencies task_info) ->
                    In dep_id (Dict.keys q)) /\
  (valid (validate_conditional_graph q) = true ->
   exists ready, get_ready_tasks_with_conditions q = Return ready).
Proof.
  assert (Hvalid : valid (validate_conditional_graph q) = true <->
                   forallb (sound_item q) q = true).
  { simpl. rewrite <- validation_loop_empty.
    destruct (fold_left (validation_step q) q []); simpl;
      split; intros; congruence. }
  split.
  - rewrite Hvalid, forallb_forall. split.
    + intros H t info Hin. specialize (H (t, info) Hin).
      unfold sound_item in H. cbn [fst snd] in H.
      apply andb_true_iff in H as [Hc Hd]. split; [now apply mem_In|].
      intros d Hdin. rewrite forallb_forall in Hd.
      now apply contains_keys, Hd.
    + intros H [t info] Hin. destruct (H t info Hin) as [Hc Hd].
      unfold sound_item. cbn [fst snd]. apply andb_true_iff.
      split; [now apply mem_In|]. apply forallb_forall. intros d Hdin.
      now apply contains_keys, Hd.
  - intros H. apply Hvalid in H. eexists.
    apply get_ready_tasks_with_conditions_select.
    unfold conditions_valid. rewrite forallb_forall in *.
    intros item Hin. specialize (H item Hin). unfold sound_item in H.
    now apply andb_true_iff in H as [Hc _].
Qed.

Lemma validate_conditional_graph_exact_witness :
  valid (validate_conditional_graph queue_handlers) = true /\
  (forall task_id task_info,
     In (task_id, task_info) queue_handlers ->
     In (get_condition task_info) ConditionType.valid_conditions /\
     forall dep_id, In dep_id (get_dependencies task_info) ->
                    In dep_id (Dict.keys queue_handlers)) /\
  exists ready, get_ready_tasks_with_conditions queue_handlers = Return ready.
Proof.
  split; [reflexivity|]. split.
  - exact (proj1 (proj1 (validate_conditional_graph_exact queue_handlers))
             eq_refl).
  - exact (proj2 (validate_conditional_graph_exact queue_handlers) eq_refl).
Defined.

(** ** Successors of a finished task *)

Lemma successors_loop_spec (task_id task_state : string)
    (task_res : task_result) (items : list (string * task))
    (acc s : successors) :
  successors_loop task_id task_state task_res items acc = Return s ->
  success_path s
  = success_path acc
    ++ map fst
         (filter
            (fun item =>
               triggers task_id task_state task_res item
               && String.eqb (get_condition (snd item)) ConditionType.SUCCESS)
            items) /\
  failure_path s
  = failure_path acc
    ++ map fst
         (filter
            (fun item =>
               triggers task_id task_state task_res item
               && (negb (String.eqb (get_condition (snd item))
                           ConditionType.SUCCESS)
                   && String.eqb (get_condition (snd item))
                        ConditionType.FAILURE))
            items) /\
  always_path s
  = always_path acc
    ++ map fst
         (filter
            (fun item =>
               triggers task_id task_state task_res item
               && (negb (String.eqb (get_condition (snd item))
                           ConditionType.SUCCESS)
                   && negb (String.eqb (get_condition (snd item))
                              ConditionType.FAILURE)))
            items).
Proof.
  revert acc. induction items as [|[k info] items IH]; intros acc.
  - cbn [successors_loop filter map]. intros [= <-].
    now rewrite !app_nil_r.
  - assert (Htrig : triggers task_id task_state task_res (k, info)
                    = mem task_id (get_dependencies info)
                      && String.eqb (get_state info) "pending"
                      && match evaluate_condition (get_condition info)
                                 task_state (Some task_res) with
                         | Return ok => ok
                         | Raise _ => false
                         end) by reflexivity.
    cbn [successors_loop filter snd]. rewrite !Htrig. clear Htrig.
    destruct (mem task_id (get_dependencies info)); cbn [negb andb];
      [|apply IH].
    destruct (String.eqb (get_state info) "pending"); cbn [negb andb];
      [|apply IH].
    destruct (evaluate_condition (get_condition info) task_state
                (Some task_res)) as [[|]|e]; cbn [bind andb];
      [ | apply IH | discriminate].
    destruct (String.eqb (get_condition info) ConditionType.SUCCESS);
      cbn [negb andb].
    + intros Hrun. destruct (IH _ Hrun) as (H1 & H2 & H3).
      cbn [success_path failure_path always_path] in H1, H2, H3.
      cbn [map fst]. rewrite H1, H2, H3, <- app_assoc. auto.
    + destruct (String.eqb (get_condition info) ConditionType.FAILURE);
        cbn [negb andb]; intros Hrun;
        destruct (IH _ Hrun) as (H1 & H2 & H3);
        cbn [success_path failure_path always_path] in H1, H2, H3;
        cbn [map fst]; rewrite H1, H2, H3, <- app_assoc; auto.
Qed.

Lemma evaluate_on_outcome (cond : string) (task_res : task_result) :
  evaluate_condition cond (outcome_state task_res) (Some task_res)
  = if String.eqb cond ConditionType.ALWAYS then Return true
    else if String.eqb cond ConditionType.SUCCESS
         then Return (get_success task_res)
         else if String.eqb cond ConditionType.FAILURE
              then Return (negb (get_success task_res))
              else Raise ValueError.
Proof.
  unfold evaluate_condition, outcome_state.
  destruct (get_success task_res) eqn:Hs; cbn; try rewrite Hs; reflexivity.
Qed.

Lemma get_conditional_successors_returns (task_id : string)
    (q : task_queue) (task_res : task_result) :
  conditions_valid q = true ->
  exists s, get_conditional_successors task_id q task_res = Return s.
Proof.
  unfold get_conditional_successors. fold (outcome_state task_res).
  intros Hv. unfold conditions_valid in Hv. rewrite forallb_forall in Hv.
  generalize ({| success_path := []; failure_path := [];
                 always_path := [] |}).
  induction q as [|[k info] items IH]; intros acc;
    cbn [successors_loop]; [eauto|].
  assert (Hv' : forall x, In x items ->
            mem (get_condition (snd x)) ConditionType.valid_conditions
            = true) by (intros x Hx; apply Hv; now right).
  destruct (negb (mem task_id (get_dependencies info))); [now apply IH|].
  destruct (negb (String.eqb (get_state info) "pending")); [now apply IH|].
  assert (Hc := Hv (k, info) (or_introl eq_refl)). cbn [snd] in Hc.
  apply mem_In in Hc.
  destruct (evaluate_condition_returns (get_condition info)
              (outcome_state task_res) (Some task_res) Hc) as [ok ->].
  cbn [bind]. destruct ok; [|now apply IH].
  destruct (String.eqb _ ConditionType.SUCCESS); [now apply IH|].
  destruct (String.eqb _ ConditionType.FAILURE); now apply IH.
Qed.

(** X14. [get_conditional_successors] returns whenever every condition
    in the queue is one of the three kinds. Its success path holds the
    pending tasks that list the finished task and carry condition success,
    and is empty unless the result's success flag is true; its failure
    path holds those with condition failure, and is empty unless the flag
    is false or absent; its always path holds those with condition always
    whatever the result. Other dependencies of a listed task are not
    looked at. *)
Theorem get_conditional_successors_paths (task_id : string)
    (q : task_queue) (task_res : task_result) :
  (conditions_valid q = true ->
   exists s, get_conditional_successors task_id q task_res = Return s) /\
  (forall s,
     get_conditional_successors task_id q task_res = Return s ->
     let dependent cond d :=
       exists info,
         In (d, info) q /\ In task_id (get_dependencies info) /\
         get_state info = TaskState.PENDING /\ get_condition info = cond in
     (forall d, In d (success_path s) <->
                get_success task_res = true /\
                dependent ConditionType.SUCCESS d) /\
     (forall d, In d (failure_path s) <->
                get_success task_res = false /\
                dependent ConditionType.FAILURE d) /\
     (forall d, In d (always_path s) <-> dependent ConditionType.ALWAYS d)).
Proof.
  split; [apply get_conditional_successors_returns|].
  unfold get_conditional_successors. fold (outcome_state task_res).
  intros s Hrun. cbv zeta.
  apply successors_loop_spec in Hrun as (H1 & H2 & H3).
  cbn [success_path failure_path always_path app] in H1, H2, H3.
  rewrite H1, H2, H3. clear H1 H2 H3.
  assert (Htrig : forall item,
            triggers task_id (outcome_state task_res) task_res item
            = mem task_id (get_dependencies (snd item))
              && String.eqb (get_state (snd item)) "pending"
              && match evaluate_condition (get_condition (snd item))
                         (outcome_state task_res) (Some task_res) with
                 | Return ok => ok
                 | Raise _ => false
                 end) by reflexivity.
  split; [|split]; intros d; rewrite in_map_iff; split.
  - intros [[k info] [Hk Hin]]. cbn [fst] in Hk. subst k.
    apply filter_In in Hin as [Hin Hp]. rewrite Htrig in Hp.
    cbn [snd] in Hp. rewrite evaluate_on_outcome in Hp.
    apply andb_true_iff in Hp as [Hp Hc].
    apply andb_true_iff in Hp as [Hp Hev].
    apply andb_true_iff in Hp as [Hdep Hst].
    apply String.eqb_eq in Hc, Hst. apply mem_In in Hdep.
    rewrite Hc in Hev. cbn in Hev. split; [assumption|].
    exists info. auto.
  - intros (Hok & info & Hin & Hdep & Hst & Hc).
    exists (d, info). split; [reflexivity|]. apply filter_In.
    split; [assumption|]. rewrite Htrig. cbn [snd].
    rewrite evaluate_on_outcome, Hc, Hst. apply mem_In in Hdep.
    rewrite Hdep, Hok. reflexivity.
  - intros [[k info] [Hk Hin]]. cbn [fst] in Hk. subst k.
    apply filter_In in Hin as [Hin Hp]. rewrite Htrig in Hp.
    cbn [snd] in Hp. rewrite evaluate_on_outcome in Hp.
    apply andb_true_iff in Hp as [Hp Hc].
    apply andb_true_iff in Hc as [_ Hc].
    apply andb_true_iff in Hp as [Hp Hev].
    apply andb_true_iff in Hp as [Hdep Hst].
    apply String.eqb_eq in Hc, Hst. apply mem_In in Hdep.
    rewrite Hc in Hev. cbn in Hev. apply negb_true_iff in Hev.
    split; [assumption|]. exists info. auto.
  - intros (Hok & info & Hin & Hdep & Hst & Hc).
    exists (d, info). split; [reflexivity|]. apply filter_In.
    split; [assumption|]. rewrite Htrig. cbn [snd].
    rewrite evaluate_on_outcome, Hc, Hst. apply mem_In in Hdep.
    rewrite Hdep, Hok. reflexivity.
  - intros [[k info] [Hk Hin]]. cbn [fst] in Hk. subst k.
    apply filter_In in Hin as [Hin Hp]. rewrite Htrig in Hp.
    cbn [snd] in Hp. rewrite evaluate_on_outcome in Hp.
    apply andb_true_iff in Hp as [Hp Hc].
    apply andb_true_iff in Hc as [Hc1 Hc2].
    apply andb_true_iff in Hp as [Hp Hev].
    apply andb_true_iff in Hp as [Hdep Hst].
    apply String.eqb_eq in Hst. apply mem_In in Hdep.
    apply negb_true_iff in Hc1, Hc2. rewrite Hc1, Hc2 in Hev.
    destruct (String.eqb (get_condition info) ConditionType.ALWAYS) eqn:Ha;
      [|discriminate].
    apply String.eqb_eq in Ha. exists info. auto.
  - intros (info & Hin & Hdep & Hst & Hc).
    exists (d, info). split; [reflexivity|]. apply filter_In.
    split; [assumption|]. rewrite Htrig. cbn [snd].
    rewrite evaluate_on_outcome, Hc, Hst. apply mem_In in Hdep.
    rewrite Hdep. reflexivity.
Qed.

Lemma get_conditional_successors_paths_witness :
  let task_res := mk_result (Some false) (Some "error message") in
  let s :=
    {| success_path := []; failure_path := ["C"]; always_path := ["E"] |} in
  let dependent cond d :=
    exists info,
      In (d, info) queue_handlers /\ In "A" (get_dependencies info) /\
      get_state info = TaskState.PENDING /\ get_condition info = cond in
  conditions_valid queue_handlers = true /\
  get_conditional_successors "A" queue_handlers task_res = Return s /\
  (forall d, In d (success_path s) <->
             get_success task_res = true /\
             dependent ConditionType.SUCCESS d) /\
  (forall d, In d (failure_path s) <->
             get_success task_res = false /\
             dependent ConditionType.FAILURE d) /\
  (forall d, In d (always_path s) <-> dependent ConditionType.ALWAYS d).
Proof.
  split; [reflexivity|]. split; [reflexivity|].
  exact (proj2 (get_conditional_successors_paths "A" queue_handlers
                  (mk_result (Some false) (Some "error message")))
           _ eq_refl).
Defined.

(** X15. The successors helper covers the evaluator: once the finished
    task is stored with the state the helper derives from its result and
    with that result, every pending task that lists it and that
    [get_ready_tasks_with_conditions] reports is on one of the three
    paths of [get_conditional_successors]. *)
Theorem ready_dependents_are_successors (q : task_queue)
    (task_id : string) (task_info : task) (task_res : task_result)
    (ready : list string) (s : successors) :
  Dict.wf q ->
  Dict.get q task_id = Some task_info ->
  get_state task_info = outcome_state task_res ->
  result task_info = Some task_res ->
  get_ready_tasks_with_conditions q = Return ready ->
  get_conditional_successors task_id q task_res = Return s ->
  forall d info,
    Dict.get q d = Some info ->
    In task_id (get_dependencies info) ->
    get_state info = TaskState.PENDING ->
    In d ready ->
    In d (success_path s ++ failure_path s ++ always_path s).
Proof.
  intros Hwf Hget Hst Hres Hready Hsucc d info Hd Hdep Hpend Hin.
  apply get_ready_tasks_with_conditions_result in Hready. subst ready.
  apply (In_conditional_ready q d info Hwf Hd) in Hin as [_ Hmeets].
  destruct (Hmeets task_id Hdep) as (ti & Hg & Hev).
  rewrite Hget in Hg. injection Hg as <-. rewrite Hst, Hres in Hev.
  unfold get_conditional_successors in Hsucc.
  fold (outcome_state task_res) in Hsucc.
  apply successors_loop_spec in Hsucc as (H1 & H2 & H3).
  cbn [success_path failure_path always_path app] in H1, H2, H3.
  assert (Htrig : triggers task_id (outcome_state task_res) task_res (d, info)
                  = true).
  { unfold triggers. cbn [snd]. apply mem_In in Hdep.
    rewrite Hdep, Hpend, Hev. reflexivity. }
  assert (Hitem : In (d, info) q) by now apply get_Some_In.
  rewrite H1, H2, H3, !in_app_iff, !in_map_iff.
  destruct (String.eqb (get_condition info) ConditionType.SUCCESS) eqn:E1.
  - left. exists (d, info). split; [reflexivity|]. apply filter_In.
    split; [assumption|]. cbn [snd]. now rewrite Htrig, E1.
  - destruct (String.eqb (get_condition info) ConditionType.FAILURE) eqn:E2.
    + right. left. exists (d, info). split; [reflexivity|]. apply filter_In.
      split; [assumption|]. cbn [snd]. now rewrite Htrig, E1, E2.
    + right. right. exists (d, info). split; [reflexivity|]. apply filter_In.
      split; [assumption|]. cbn [snd]. now rewrite Htrig, E1, E2.
Qed.

Lemma ready_dependents_are_successors_witness :
  Dict.wf queue_handlers /\
  get_ready_tasks_with_conditions queue_handlers = Return ["C"] /\
  get_conditional_successors "A" queue_handlers
    (mk_result (Some false) (Some "error message"))
  = Return {| success_path := []; failure_path := ["C"];
              always_path := ["E"] |} /\
  forall d info,
    Dict.get queue_handlers d = Some info ->
    In "A" (get_dependencies info) ->
    get_state info = TaskState.PENDING ->
    In d ["C"] ->
    In d ([] ++ ["C"] ++ ["E"]).
Proof.
  assert (Hwf : Dict.wf queue_handlers) by distinct_by_computation.
  split; [exact Hwf|]. split; [reflexivity|]. split; [reflexivity|].
  exact (ready_dependents_are_successors queue_handlers "A" _
           (mk_result (Some false) (Some "error message")) ["C"] _
           Hwf eq_refl eq_refl eq_refl eq_refl eq_refl).
Defined.

(** X19. [add_condition_to_task] raises ValueError exactly when the
    condition is not one of success, failure, always; otherwise the task
    it returns carries that condition and keeps its state, dependencies
    and result. A queue made of tasks it returned is one on which neither
    [get_ready_tasks_with_conditions] nor [get_conditional_successors]
    raises. *)
Theorem add_condition_to_task_checks (task_def : task) (cond : string) :
  (add_condition_to_task task_def cond = Raise ValueError <->
   ~ In cond ConditionType.valid_conditions) /\
  (forall updated,
     add_condition_to_task task_def cond = Return updated ->
     get_condition updated = cond /\
     get_state updated = get_state task_def /\
     get_dependencies updated = get_dependencies task_def /\
     result updated = result task_def) /\
  (forall q : task_queue,
     (forall task_id task_info,
        In (task_id, task_info) q ->
        exists original label,
          add_condition_to_task original label = Return task_info) ->
     (exists ready, get_ready_tasks_with_conditions q = Return ready) /\
     (forall task_id task_res,
        exists s,
          get_conditional_successors task_id q task_res = Return s)).
Proof.
  unfold add_condition_to_task. split; [|split].
  - destruct (mem cond ConditionType.valid_conditions) eqn:E; cbn [negb].
    + apply mem_In in E. split; [discriminate | contradiction].
    + apply mem_false in E. split; auto.
  - intros updated.
    destruct (mem cond ConditionType.valid_conditions); cbn [negb];
      [|discriminate].
    intros [= <-]. repeat split.
  - intros q Hq.
    assert (Hv : conditions_valid q = true).
    { unfold conditions_valid. apply forallb_forall.
      intros [k info] Hin. cbn [snd].
      destruct (Hq k info Hin) as (original & label & Hadd).
      unfold add_condition_to_task in Hadd.
      destruct (mem label ConditionType.valid_conditions) eqn:E;
        cbn [negb] in Hadd; [|discriminate].
      injection Hadd as <-. exact E. }
    split.
    + rewrite (get_ready_tasks_with_conditions_select q Hv). eauto.
    + intros task_id task_res.
      now apply get_conditional_successors_returns.
Qed.

Lemma add_condition_to_task_checks_witness :
  let original := mk_task (Some "pending") (Some ["A"]) None None in
  let updated :=
    mk_task (Some "pending") (Some ["A"]) None (Some "failure") in
  add_condition_to_task original "failure" = Return updated /\
  get_condition updated = "failure" /\
  get_state updated = get_state original /\
  get_dependencies updated = get_dependencies original /\
  result updated = result original.
Proof.
  split; [reflexivity|].
  exact (proj1 (proj2 (add_condition_to_task_checks
                         (mk_task (Some "pending") (Some ["A"]) None None)
                         "failure"))
           _ eq_refl).
Defined.

(** ** Simulated runs *)

Lemma all_succeed_loop_spec (items : list (string * task))
    (acc : simulation) :
  let sim := fold_left all_succeed_step items acc in
  executed sim
  = executed acc
    ++ map fst
         (filter
            (fun item =>
               mem (get_condition (snd item))
                 [ConditionType.SUCCESS; ConditionType.ALWAYS])
            items) /\
  skipped sim
  = skipped acc
    ++ map fst
         (filter
            (fun item =>
               negb (mem (get_condition (snd item))
                       [ConditionType.SUCCESS; ConditionType.ALWAYS]))
            items) /\
  error_handlers sim = error_handlers acc.
Proof.
  cbv zeta. revert acc.
  induction items as [|[k info] items IH]; intros acc.
  - cbn [fold_left filter map]. now rewrite !app_nil_r.
  - cbn [fold_left filter snd]. destruct (IH (all_succeed_step acc (k, info)))
      as (H1 & H2 & H3).
    rewrite H1, H2, H3. unfold all_succeed_step.
    destruct (mem (get_condition info) _);
      cbn [executed skipped error_handlers negb map fst];
      rewrite <- ?app_assoc; auto.
Qed.

Lemma NoDup_partition_keys (p : string * task -> bool)
    (items : list (string * task)) :
  NoDup (map fst items) ->
  NoDup (map fst (filter p items)
         ++ map fst (filter (fun item => negb (p item)) items)).
Proof.
  induction items as [|[k i] items IH]; [constructor|].
  cbn [map fst]. intros Hnd. apply NoDup_cons_iff in Hnd as [Hk Hnd].
  specialize (IH Hnd). cbn [filter].
  assert (Hout : forall f : string * task -> bool,
            ~ In k (map fst (filter f items))).
  { intros f Hin. apply Hk. apply in_map_iff in Hin as [x [Hx Hin]].
    apply filter_In in Hin as [Hin _]. apply in_map_iff. eauto. }
  destruct (p (k, i)); cbn [negb map fst app].
  - constructor; [|assumption]. rewrite in_app_iff.
    intros [H | H]; exact (Hout _ H).
  - apply NoDup_Add with (a := k) (l := map fst (filter p items)
              ++ map fst (filter (fun item => negb (p item)) items)).
    + apply Add_app.
    + split; [assumption|]. rewrite in_app_iff.
      intros [H | H]; exact (Hout _ H).
Qed.

(** X16. With no failing task, [simulate_execution] reports every task of
    the queue once: as executed when its condition is success or always,
    as skipped otherwise; it reports no error handler, and neither states
    nor dependencies matter. *)
Theorem simulate_execution_all_succeed (q : task_queue) (task_id : string)
    (info : task) :
  Dict.wf q ->
  Dict.get q task_id = Some info ->
  let sim := simulate_execution q None in
  error_handlers sim = [] /\
  NoDup (executed sim ++ skipped sim) /\
  (In task_id (executed sim) <->
   get_condition info = ConditionType.SUCCESS \/
   get_condition info = ConditionType.ALWAYS) /\
  (In task_id (skipped sim) <->
   get_condition info <> ConditionType.SUCCESS /\
   get_condition info <> ConditionType.ALWAYS).
Proof.
  intros Hwf Hget. cbv zeta. unfold simulate_execution.
  destruct (all_succeed_loop_spec q
              {| executed := []; skipped := []; error_handlers := [] |})
    as (H1 & H2 & H3).
  cbn [executed skipped error_handlers app] in H1, H2, H3.
  rewrite H1, H2, H3. clear H1 H2 H3.
  set (p := fun item : string * task =>
              mem (get_condition (snd item))
                [ConditionType.SUCCESS; ConditionType.ALWAYS]).
  assert (Hp : p (task_id, info) = true <->
               get_condition info = ConditionType.SUCCESS \/
               get_condition info = ConditionType.ALWAYS).
  { unfold p. cbn [snd]. rewrite mem_In. cbn [In]. intuition congruence. }
  assert (Hsel : forall f : string * task -> bool,
            In task_id (map fst (filter f q)) <-> f (task_id, info) = true).
  { intros f. rewrite in_map_iff. split.
    - intros [[k i] [Hk Hin]]. cbn [fst] in Hk. subst k.
      apply filter_In in Hin as [Hin Hf].
      apply (In_get q task_id i Hwf) in Hin. congruence.
    - intros Hf. exists (task_id, info). split; [reflexivity|].
      apply filter_In. split; [now apply get_Some_In | assumption]. }
  split; [reflexivity|]. split; [|split].
  - apply NoDup_partition_keys. exact Hwf.
  - now rewrite Hsel.
  - rewrite Hsel.
    change (negb (p (task_id, info)) = true <->
            get_condition info <> ConditionType.SUCCESS /\
            get_condition info <> ConditionType.ALWAYS).
    rewrite negb_true_iff, <- not_true_iff_false, Hp. tauto.
Qed.

Lemma simulate_execution_all_succeed_witness :
  Dict.wf queue_handlers /\
  Dict.get queue_handlers "C"
  = Some (mk_task (Some "pending") (Some ["A"]) None (Some "failure")) /\
  In "C" (skipped (simulate_execution queue_handlers None)).
Proof.
  assert (Hwf : Dict.wf queue_handlers) by distinct_by_computation.
  split; [exact Hwf|]. split; [reflexivity|].
  destruct (simulate_execution_all_succeed queue_handlers "C" _ Hwf eq_refl)
    as (_ & _ & _ & Hs).
  apply Hs. split; discriminate.
Defined.

Lemma failure_step_fields (failed_id : string) (acc : simulation)
    (k : string) (info : task) :
  let sim := failure_step failed_id acc (k, info) in
  executed sim
  = executed acc ++ (if runs failed_id (skipped acc) info then [k] else []) /\
  skipped sim
  = skipped acc ++ (if skips failed_id (k, info) then [k] else []) /\
  error_handlers sim
  = error_handlers acc ++ (if handles failed_id (k, info) then [k] else []).
Proof.
  cbv zeta. unfold failure_step, runs, skips, handles. cbn [snd].
  destruct (mem failed_id (get_dependencies info)); cbn [andb].
  - destruct (String.eqb (get_condition info) ConditionType.FAILURE);
      cbn [negb andb executed skipped error_handlers];
      [now rewrite !app_nil_r|].
    destruct (String.eqb (get_condition info) ConditionType.SUCCESS);
      cbn [negb executed skipped error_handlers]; now rewrite !app_nil_r.
  - destruct (negb (existsb _ _)); cbn [andb];
      [|now rewrite !app_nil_r].
    destruct (mem (get_condition info) _);
      cbn [executed skipped error_handlers]; now rewrite !app_nil_r.
Qed.

Lemma failure_loop_lists (failed_id : string) (items : list (string * task))
    (acc : simulation) :
  let sim := fold_left (failure_step failed_id) items acc in
  skipped sim = skipped acc ++ map fst (filter (skips failed_id) items) /\
  error_handlers sim
  = error_handlers acc ++ map fst (filter (handles failed_id) items).
Proof.
  cbv zeta. revert acc.
  induction items as [|[k info] items IH]; intros acc.
  - cbn [fold_left filter map]. now rewrite !app_nil_r.
  - cbn [fold_left filter].
    destruct (IH (failure_step failed_id acc (k, info))) as [H1 H2].
    destruct (failure_step_fields failed_id acc k info) as (_ & F2 & F3).
    rewrite H1, H2, F2, F3.
    destruct (skips failed_id (k, info)), (handles failed_id (k, info));
      cbn [map fst]; rewrite <- ?app_assoc, ?app_nil_r; auto.
Qed.

Lemma failure_loop_executed (failed_id : string)
    (items : list (string * task)) (acc : simulation) (x : string) :
  In x (executed (fold_left (failure_step failed_id) items acc)) <->
  In x (executed acc) \/
  exists pre info post,
    items = pre ++ (x, info) :: post /\
    runs failed_id
      (skipped acc ++ map fst (filter (skips failed_id) pre)) info = true.
Proof.
  revert acc. induction items as [|[k i] items IH]; intros acc.
  - cbn [fold_left]. split; [auto|].
    intros [H | (pre & info & post & H & _)]; [assumption|].
    destruct pre; discriminate.
  - cbn [fold_left]. rewrite IH.
    destruct (failure_step_fields failed_id acc k i) as (F1 & F2 & _).
    rewrite F1, F2, in_app_iff. split.
    + intros [[H | H] | (pre & info & post & -> & Hruns)].
      * now left.
      * right. destruct (runs failed_id (skipped acc) i) eqn:E;
          [|contradiction].
        destruct H as [<- | []]. exists [], i, items.
        cbn [app filter map]. now rewrite app_nil_r.
      * right. exists ((k, i) :: pre), info, post. split; [reflexivity|].
        cbn [filter]. rewrite <- app_assoc in Hruns.
        destruct (skips failed_id (k, i)); exact Hruns.
    + intros [H | (pre & info & post & Heq & Hruns)]; [now left; left|].
      destruct pre as [|[k' i'] pre].
      * cbn [app] in Heq. injection Heq as -> -> ->.
        cbn [filter map] in Hruns. rewrite app_nil_r in Hruns.
        left. right. rewrite Hruns. now left.
      * cbn [app] in Heq. injection Heq as -> -> ->.
        right. exists pre, info, post. split; [reflexivity|].
        cbn [filter] in Hruns. rewrite <- app_assoc.
        destruct (skips failed_id (k', i')); exact Hruns.
Qed.

Lemma split_at_key_unique (pre pre' post post' : list (string * task))
    (k : string) (info info' : task) :
  NoDup (map fst (pre ++ (k, info) :: post)) ->
  pre ++ (k, info) :: post = pre' ++ (k, info') :: post' ->
  pre = pre' /\ info = info'.
Proof.
  revert pre'. induction pre as [|[a i] pre IH]; intros pre' Hnd Heq.
  - destruct pre' as [|[a' i'] pre'].
    + cbn [app] in Heq. injection Heq as <- _. auto.
    + cbn [app] in Heq. injection Heq as <- <- ->.
      cbn [app map fst] in Hnd. apply NoDup_cons_iff in Hnd as [Hk _].
      exfalso. apply Hk. rewrite map_app, in_app_iff. right. now left.
  - destruct pre' as [|[a' i'] pre'].
    + cbn [app] in Heq. injection Heq as -> -> <-.
      cbn [app map fst] in Hnd. apply NoDup_cons_iff in Hnd as [Hk _].
      exfalso. apply Hk. rewrite map_app, in_app_iff. right. now left.
    + cbn [app] in Heq. injection Heq as <- <- Heq.
      cbn [app map fst] in Hnd. apply NoDup_cons_iff in Hnd as [_ Hnd].
      destruct (IH pre' Hnd Heq) as [-> ->]. auto.
Qed.

(** X17. When [simulate_execution] is given a failing task, a task of the
    queue is reported as an error handler exactly when it lists the
    failing task with condition failure, and as skipped exactly when it
    lists the failing task with condition success. It is reported as
    executed exactly when it lists the failing task under any other
    condition, or does not list it, has condition success or always and
    lists no task that was reported skipped before it in the queue. *)
Theorem simulate_execution_failure (pre post : task_queue)
    (task_id : string) (info : task) (failed_id : string) :
  Dict.wf (pre ++ (task_id, info) :: post) ->
  let sim :=
    simulate_execution (pre ++ (task_id, info) :: post) (Some failed_id) in
  let direct := In failed_id (get_dependencies info) in
  (In task_id (error_handlers sim) <->
   direct /\ get_condition info = ConditionType.FAILURE) /\
  (In task_id (skipped sim) <->
   direct /\ get_condition info = ConditionType.SUCCESS) /\
  (In task_id (executed sim) <->
   (direct /\ get_condition info <> ConditionType.FAILURE /\
    get_condition info <> ConditionType.SUCCESS) \/
   (~ direct /\
    (get_condition info = ConditionType.SUCCESS \/
     get_condition info = ConditionType.ALWAYS) /\
    forall dep dep_info,
      In dep (get_dependencies info) ->
      In (dep, dep_info) pre ->
      ~ (In failed_id (get_dependencies dep_info) /\
         get_condition dep_info = ConditionType.SUCCESS))).
Proof.
  intros Hwf. cbv zeta. unfold simulate_execution.
  set (q := pre ++ (task_id, info) :: post) in *.
  assert (Hin : In (task_id, info) q)
    by (unfold q; rewrite in_app_iff; right; now left).
  assert (Hsel : forall f : string * task -> bool,
            In task_id (map fst (filter f q)) <-> f (task_id, info) = true).
  { intros f. rewrite in_map_iff. split.
    - intros [[k i] [Hk Hi]]. cbn [fst] in Hk. subst k.
      apply filter_In in Hi as [Hi Hf].
      apply (In_get q task_id i Hwf) in Hi.
      apply (In_get q task_id info Hwf) in Hin. congruence.
    - intros Hf. exists (task_id, info). split; [reflexivity|].
      apply filter_In. auto. }
  destruct (failure_loop_lists failed_id q
              {| executed := []; skipped := []; error_handlers := [] |})
    as [H1 H2].
  cbn [executed skipped error_handlers app] in H1, H2.
  split; [|split].
  - rewrite H2, Hsel. unfold handles. cbn [snd].
    rewrite andb_true_iff, mem_In, String.eqb_eq. tauto.
  - rewrite H1, Hsel. unfold skips. cbn [snd].
    rewrite !andb_true_iff, mem_In, negb_true_iff, String.eqb_eq,
      String.eqb_neq.
    split; [tauto|]. intros [Hd Hc]. rewrite Hc. repeat split; auto.
    discriminate.
  - rewrite failure_loop_executed. cbn [executed skipped app].
    assert (Hruns :
      runs failed_id (map fst (filter (skips failed_id) pre)) info = true <->
      (In failed_id (get_dependencies info) /\
       get_condition info <> ConditionType.FAILURE /\
       get_condition info <> ConditionType.SUCCESS) \/
      (~ In failed_id (get_dependencies info) /\
       (get_condition info = ConditionType.SUCCESS \/
        get_condition info = ConditionType.ALWAYS) /\
       forall dep dep_info,
         In dep (get_dependencies info) ->
         In (dep, dep_info) pre ->
         ~ (In failed_id (get_dependencies dep_info) /\
            get_condition dep_info = ConditionType.SUCCESS))).
    { unfold runs.
      destruct (mem failed_id (get_dependencies info)) eqn:Hd.
      - apply mem_In in Hd.
        rewrite andb_true_iff, !negb_true_iff, !String.eqb_neq. tauto.
      - apply mem_false in Hd.
        rewrite andb_true_iff, negb_true_iff, mem_In. cbn [In].
        rewrite <- not_true_iff_false, existsb_exists.
        split.
        + intros [Hno Hc]. right. split; [assumption|].
          split; [intuition congruence|].
          intros dep dep_info Hdep Hpre [Hf Hs]. apply Hno.
          exists dep. split; [|now apply mem_In].
          cbn [app]. right. apply in_map_iff. exists (dep, dep_info).
          split; [reflexivity|]. apply filter_In. split; [assumption|].
          unfold skips. cbn [snd]. apply mem_In in Hf.
          rewrite Hf, Hs. reflexivity.
        + intros [[Hf _] | (_ & Hc & Hno)]; [contradiction|].
          split; [|intuition congruence].
          intros [dep [Hdep Hm]]. apply mem_In in Hm.
          cbn [app] in Hdep. destruct Hdep as [<- | Hdep];
            [contradiction|].
          apply in_map_iff in Hdep as [[k i] [Hk Hi]]. cbn [fst] in Hk.
          subst k. apply filter_In in Hi as [Hi Hsk].
          unfold skips in Hsk. cbn [snd] in Hsk.
          apply andb_true_iff in Hsk as [Hf Hsk].
          apply andb_true_iff in Hsk as [_ Hs].
          apply mem_In in Hf. apply String.eqb_eq in Hs.
          exact (Hno dep i Hm Hi (conj Hf Hs)). }
    rewrite <- Hruns. split.
    + intros [[] | (pre' & info' & post' & Heq & Hr)].
      destruct (split_at_key_unique pre pre' post post' task_id info info'
                  Hwf Heq) as [-> ->].
      exact Hr.
    + intros Hr. right. exists pre, info, post. auto.
Qed.

Lemma simulate_execution_failure_witness :
  simulate_execution queue_handlers (Some "A")
  = {| executed := ["A"; "E"]; skipped := ["B"]; error_handlers := ["C"] |} /\
  ~ In "D" (executed (simulate_execution queue_handlers (Some "A"))).
Proof.
  split; [reflexivity|].
  assert (Hwf : Dict.wf queue_handlers) by distinct_by_computation.
  destruct (simulate_execution_failure
              [("A", mk_task (Some "failed") (Some [])
                       (Some (mk_result (Some false)
                                (Some "error message"))) None);
               ("B", mk_task (Some "pending") (Some ["A"]) None
                       (Some "success"));
               ("C", mk_task (Some "pending") (Some ["A"]) None
                       (Some "failure"))]
              [("E", mk_task (Some "pending") (Some ["A"; "D"]) None None)]
              "D" (mk_task (Some "pending") (Some ["B"]) None None) "A" Hwf)
    as (_ & _ & Hex).
  intros Hin. apply Hex in Hin.
  destruct Hin as [[Hd _] | (_ & _ & Hno)].
  - cbn in Hd. intuition discriminate.
  - apply (Hno "B" (mk_task (Some "pending") (Some ["A"]) None
                      (Some "success"))).
    + now left.
    + right. now left.
    + split; [now left | reflexivity].
Defined.

(** X18. The simulation and the successors helper agree on error
    handlers: when every task that lists the failing task is pending and
    the result's success flag is false or absent, the error handlers that
    [simulate_execution] reports are the failure path of
    [get_conditional_successors], in the same order. *)
Theorem error_handlers_are_failure_path (q : task_queue)
    (failed_id : string) (task_res : task_result) (s : successors) :
  get_success task_res = false ->
  (forall d info,
     In (d, info) q -> In failed_id (get_dependencies info) ->
     get_state info = TaskState.PENDING) ->
  get_conditional_successors failed_id q task_res = Return s ->
  error_handlers (simulate_execution q (Some failed_id)) = failure_path s.
Proof.
  intros Hres Hpending Hsucc. unfold simulate_execution.
  destruct (failure_loop_lists failed_id q
              {| executed := []; skipped := []; error_handlers := [] |})
    as [_ H2].
  cbn [error_handlers app] in H2. rewrite H2. clear H2.
  unfold get_conditional_successors in Hsucc.
  fold (outcome_state task_res) in Hsucc.
  apply successors_loop_spec in Hsucc as (_ & H2 & _).
  cbn [failure_path app] in H2. rewrite H2. f_equal.
  apply filter_ext_in. intros [k info] Hin.
  unfold handles, triggers. cbn [snd].
  destruct (mem failed_id (get_dependencies info)) eqn:Hd;
    [|reflexivity].
  apply mem_In in Hd. rewrite (Hpending k info Hin Hd).
  rewrite evaluate_on_outcome.
  destruct (String.eqb (get_condition info) ConditionType.FAILURE) eqn:Hf.
  - apply String.eqb_eq in Hf. rewrite Hf, Hres. reflexivity.
  - cbn [andb]. now rewrite !andb_false_r.
Qed.

Lemma error_handlers_are_failure_path_witness :
  error_handlers (simulate_execution queue_handlers (Some "A")) = ["C"] /\
  get_conditional_successors "A" queue_handlers
    (mk_result (Some false) (Some "error message"))
  = Return {| success_path := []; failure_path := ["C"];
              always_path := ["E"] |}.
Proof.
  split; [|reflexivity].
  refine (error_handlers_are_failure_path queue_handlers "A"
            (mk_result (Some false) (Some "error message")) _
            eq_refl _ eq_refl).
  intros d info Hin Hdep. cbn in Hin.
  destruct Hin as [[= <- <-] | Hin]; [destruct Hdep|].
  repeat (destruct Hin as [[= <- <-] | Hin]; [reflexivity|]).
  destruct Hin.
Defined.

(** ** Execution paths: the success path *)

Lemma success_loop_cons
    (trace : string -> success_trace -> outcome success_trace)
    (task_id d : string) (info : task) (rest : list (string * task))
    (st : success_trace) :
  success_loop trace task_id ((d, info) :: rest) st
  = if follows task_id (d, info)
    then match trace d st with
         | Done st' => success_loop trace task_id rest st'
         | Stopped e => Stopped e
         end
    else success_loop trace task_id rest st.
Proof.
  unfold follows. cbn [success_loop snd].
  destruct (mem task_id (get_dependencies info)); [|reflexivity].
  cbn [andb].
  now destruct (mem (get_condition info) _).
Qed.

Lemma grown_refl (q : task_queue) (P : string -> Prop) (st : success_trace) :
  synced st -> NoDup (success_so_far st) -> grown q P st st.
Proof.
  intros Hs Hnd. split; [assumption|]. split; [assumption|].
  exists []. split; [now rewrite app_nil_r | intros x []].
Qed.

Lemma grown_incl (q : task_queue) (P : string -> Prop)
    (st st' : success_trace) :
  grown q P st st' -> incl (success_so_far st) (success_so_far st').
Proof.
  intros (_ & _ & added & -> & _) x Hx. apply in_app_iff. now left.
Qed.

Lemma grown_trans (q : task_queue) (P : string -> Prop)
    (st st1 st2 : success_trace) :
  grown q P st st1 -> grown q P st1 st2 -> grown q P st st2.
Proof.
  intros (_ & _ & add1 & E1 & H1) H2.
  assert (Hincl := grown_incl q P st1 st2 H2).
  destruct H2 as (Hs & Hnd & add2 & E2 & H2).
  split; [assumption|]. split; [assumption|].
  exists (add1 ++ add2). split.
  - now rewrite E2, E1, app_assoc.
  - intros x Hx. apply in_app_iff in Hx as [Hx | Hx].
    + destruct (H1 x Hx) as [HP Hc]. split; [assumption|].
      intros y Hy. apply Hincl. now apply Hc.
    + now apply H2.
Qed.

Lemma grown_weaken (q : task_queue) (P P' : string -> Prop)
    (st st' : success_trace) :
  (forall x, P x -> P' x) -> grown q P st st' -> grown q P' st st'.
Proof.
  intros HP (Hs & Hnd & added & E & H).
  split; [assumption|]. split; [assumption|].
  exists added. split; [assumption|].
  intros x Hx. destruct (H x Hx). auto.
Qed.

Lemma success_loop_grown (q : task_queue)
    (trace : string -> success_trace -> outcome success_trace)
    (task_id : string) :
  (forall d st st',
     synced st -> NoDup (success_so_far st) -> trace d st = Done st' ->
     grown q (clos_refl_trans string (success_edge q) d) st st' /\
     In d (success_so_far st')) ->
  forall items st st',
    incl items q ->
    synced st -> NoDup (success_so_far st) ->
    success_loop trace task_id items st = Done st' ->
    grown q (clos_refl_trans string (success_edge q) task_id) st st' /\
    forall d info,
      In (d, info) items -> follows task_id (d, info) = true ->
      In d (success_so_far st').
Proof.
  intros IH. induction items as [|[d info] rest IHitems];
    intros st st' Hincl Hs Hnd Hrun.
  - cbn [success_loop] in Hrun. injection Hrun as <-.
    split; [now apply grown_refl | intros ? ? []].
  - rewrite success_loop_cons in Hrun.
    assert (Hrest : incl rest q) by (intros x Hx; apply Hincl; now right).
    destruct (follows task_id (d, info)) eqn:Hf.
    + destruct (trace d st) as [st1|e] eqn:Ht; [|discriminate].
      destruct (IH d st st1 Hs Hnd Ht) as [Hg1 Hd].
      assert (Hs1 : synced st1) by apply Hg1.
      assert (Hnd1 : NoDup (success_so_far st1)) by apply Hg1.
      destruct (IHitems st1 st' Hrest Hs1 Hnd1 Hrun) as [Hg2 Hall].
      split.
      * apply (grown_trans q _ st st1 st'); [|assumption].
        apply (grown_weaken q (clos_refl_trans string (success_edge q) d));
          [|assumption].
        intros x Hx. apply rt_trans with d; [|assumption].
        apply rt_step. exists info. split; [|assumption].
        apply Hincl. now left.
      * intros d' info' [[= <- <-] | Hin] Hf'.
        -- now apply (grown_incl q _ st1 st' Hg2).
        -- now apply (Hall d' info').
    + destruct (IHitems st st' Hrest Hs Hnd Hrun) as [Hg Hall].
      split; [assumption|].
      intros d' info' [[= <- <-] | Hin] Hf'; [congruence|].
      now apply (Hall d' info').
Qed.

Lemma trace_success_path_grown (q : task_queue) (limit : nat) :
  forall task_id st st',
    synced st -> NoDup (success_so_far st) ->
    trace_success_path limit q task_id st = Done st' ->
    grown q (clos_refl_trans string (success_edge q) task_id) st st' /\
    In task_id (success_so_far st').
Proof.
  induction limit as [|limit IH]; intros t st st' Hs Hnd Hrun;
    [discriminate|].
  cbn [trace_success_path] in Hrun.
  destruct (mem t (visited_success st)) eqn:Hv.
  - injection Hrun as <-. split; [now apply grown_refl|].
    apply Hs. now apply mem_In.
  - apply mem_false in Hv.
    assert (Hout : ~ In t (success_so_far st))
      by (intros H; apply Hv; now apply Hs).
    apply (success_loop_grown q _ t IH) in Hrun as [Hg Hall].
    + cbn [success_so_far] in Hg.
      destruct Hg as (Hs' & Hnd' & added & E & Hadded).
      cbn [success_so_far] in E. rewrite <- app_assoc in E. cbn [app] in E.
      assert (Ht : In t (success_so_far st'))
        by (rewrite E, in_app_iff; right; now left).
      split; [|assumption].
      split; [assumption|]. split; [assumption|].
      exists (t :: added). split; [assumption|].
      intros x [<- | Hx].
      * split; [apply rt_refl|].
        intros y [info [Hin Hf]]. now apply (Hall y info).
      * now apply Hadded.
    + apply incl_refl.
    + intros x. cbn [visited_success success_so_far].
      rewrite in_app_iff. cbn [In]. rewrite (Hs x). tauto.
    + cbn [success_so_far]. apply NoDup_app; [assumption | | ].
      * constructor; [intros [] | constructor].
      * intros x Hx [<- | []]. contradiction.
Qed.

Lemma success_edge_feeds (q : task_queue) (a b : string) :
  Dict.wf q -> (success_edge q a b <-> feeds_on_success q a b).
Proof.
  intros Hwf. unfold success_edge, feeds_on_success, follows. cbn [snd].
  split.
  - intros (info & Hin & Hf). apply andb_true_iff in Hf as [Hd Hc].
    apply mem_In in Hd, Hc. exists info. split; [now apply In_get|].
    split; [assumption|]. cbn [In] in Hc. intuition congruence.
  - intros (info & Hget & Hd & Hc). exists info.
    split; [now apply get_Some_In|]. apply andb_true_iff.
    split; apply mem_In; [assumption|]. cbn [In]. intuition congruence.
Qed.

Lemma clos_refl_trans_ext (R R' : string -> string -> Prop) (a b : string) :
  (forall x y, R x y -> R' x y) ->
  clos_refl_trans string R a b -> clos_refl_trans string R' a b.
Proof.
  intros HR H. induction H.
  - apply rt_step. auto.
  - apply rt_refl.
  - eapply rt_trans; eassumption.
Qed.

Lemma roots_iff (q : task_queue) (x : string) :
  Dict.wf q ->
  (In x (roots q) <->
   exists info, Dict.get q x = Some info /\ get_dependencies info = []).
Proof.
  intros Hwf. unfold roots. rewrite in_map_iff. split.
  - intros [[k info] [Hk Hin]]. cbn [fst] in Hk. subst k.
    apply filter_In in Hin as [Hin He]. cbn [snd] in He.
    exists info. split; [now apply In_get|].
    destruct (get_dependencies info); [reflexivity | discriminate].
  - intros (info & Hget & He). exists (x, info). split; [reflexivity|].
    apply filter_In. split; [now apply get_Some_In|].
    cbn [snd]. now rewrite He.
Qed.

Lemma roots_keys (q : task_queue) : incl (roots q) (Dict.keys q).
Proof.
  intros x Hx. unfold roots in Hx. apply in_map_iff in Hx as [item [<- Hin]].
  apply filter_In in Hin as [Hin _]. unfold Dict.keys. now apply in_map.
Qed.

(** ** Execution paths: the always tasks *)

Lemma collected_refl (q : task_queue) (P : string -> Prop)
    (always : list string) :
  NoDup always -> collected q P always always.
Proof.
  intros Hnd. split; [assumption|]. exists [].
  split; [now rewrite app_nil_r | intros x []].
Qed.

Lemma collected_incl (q : task_queue) (P : string -> Prop)
    (always always' : list string) :
  collected q P always always' -> incl always always'.
Proof.
  intros (_ & added & -> & _) x Hx. apply in_app_iff. now left.
Qed.

Lemma collected_trans (q : task_queue) (P : string -> Prop)
    (a a1 a2 : list string) :
  collected q P a a1 -> collected q P a1 a2 -> collected q P a a2.
Proof.
  intros (_ & add1 & E1 & H1) (Hnd & add2 & E2 & H2).
  split; [assumption|]. exists (add1 ++ add2). split.
  - now rewrite E2, E1, app_assoc.
  - intros x Hx. apply in_app_iff in Hx as [Hx | Hx]; auto.
Qed.

Lemma collected_weaken (q : task_queue) (P P' : string -> Prop)
    (a a' : list string) :
  (forall x, P x -> P' x) -> collected q P a a' -> collected q P' a a'.
Proof.
  intros HP (Hnd & added & E & H). split; [assumption|].
  exists added. split; [assumption|].
  intros x Hx. destruct (H x Hx). auto.
Qed.

Lemma always_loop_collected (q : task_queue)
    (trace : string -> list string -> outcome (list string))
    (task_id : string) :
  (forall d a a',
     NoDup a -> trace d a = Done a' ->
     collected q (clos_refl_trans string (feeds q) d) a a' /\
     forall x, clos_refl_trans string (feeds q) d x ->
               has_condition q ConditionType.ALWAYS x -> In x a') ->
  forall ids a a',
    NoDup a ->
    always_loop trace q task_id ids a = Done a' ->
    collected q (clos_refl_trans string (feeds q) task_id) a a' /\
    forall d x,
      In d ids -> feeds q task_id d ->
      clos_refl_trans string (feeds q) d x ->
      has_condition q ConditionType.ALWAYS x -> In x a'.
Proof.
  intros IH. induction ids as [|d rest IHids]; intros a a' Hnd Hrun.
  - cbn [always_loop] in Hrun. injection Hrun as <-.
    split; [now apply collected_refl | intros ? ? []].
  - cbn [always_loop] in Hrun.
    destruct (Dict.get q d) as [info|] eqn:Hget; [|discriminate].
    destruct (mem task_id (get_dependencies info)) eqn:Hdep.
    + apply mem_In in Hdep.
      destruct (trace d a) as [a1|e] eqn:Ht; [|discriminate].
      destruct (IH d a a1 Hnd Ht) as [Hc1 Hall1].
      assert (Hnd1 : NoDup a1) by apply Hc1.
      destruct (IHids a1 a' Hnd1 Hrun) as [Hc2 Hall2].
      split.
      * apply (collected_trans q _ a a1 a'); [|assumption].
        apply (collected_weaken q (clos_refl_trans string (feeds q) d));
          [|assumption].
        intros x Hx. apply rt_trans with d; [|assumption].
        apply rt_step. exists info. auto.
      * intros d' x [<- | Hin] Hf Hreach Hcond.
        -- apply (collected_incl q _ a1 a' Hc2). now apply Hall1.
        -- now apply (Hall2 d' x).
    + apply mem_false in Hdep.
      destruct (IHids a a' Hnd Hrun) as [Hc Hall].
      split; [assumption|].
      intros d' x [<- | Hin] Hf Hreach Hcond.
      * destruct Hf as (info' & Hget' & Hd). rewrite Hget in Hget'.
        injection Hget' as <-. contradiction.
      * now apply (Hall d' x).
Qed.

Lemma trace_always_tasks_collected (q : task_queue) (limit : nat) :
  forall task_id a a',
    NoDup a ->
    trace_always_tasks limit q task_id a = Done a' ->
    collected q (clos_refl_trans string (feeds q) task_id) a a' /\
    forall x, clos_refl_trans string (feeds q) task_id x ->
              has_condition q ConditionType.ALWAYS x -> In x a'.
Proof.
  induction limit as [|limit IH]; intros t a a' Hnd Hrun; [discriminate|].
  cbn [trace_always_tasks] in Hrun.
  destruct (Dict.get q t) as [info|] eqn:Hget; [|discriminate].
  cbv zeta in Hrun.
  set (a1 := if String.eqb (get_condition info) ConditionType.ALWAYS
             then if negb (mem t a) then a ++ [t] else a
             else a) in Hrun.
  assert (H1 : collected q (clos_refl_trans string (feeds q) t) a a1 /\
               (get_condition info = ConditionType.ALWAYS -> In t a1)).
  { unfold a1.
    destruct (String.eqb (get_condition info) ConditionType.ALWAYS) eqn:Hc.
    - apply String.eqb_eq in Hc.
      destruct (mem t a) eqn:Hm; cbn [negb].
      + apply mem_In in Hm. split; [now apply collected_refl | auto].
      + apply mem_false in Hm. split.
        * split.
          -- apply NoDup_app; [assumption | | ].
             ++ constructor; [intros [] | constructor].
             ++ intros x Hx [<- | []]. contradiction.
          -- exists [t]. split; [reflexivity|].
             intros x [<- | []]. split; [apply rt_refl|].
             exists info. auto.
        * intros _. apply in_app_iff. right. now left.
    - apply String.eqb_neq in Hc.
      split; [now apply collected_refl | contradiction]. }
  destruct H1 as [Hc1 Hself].
  assert (Hnd1 : NoDup a1) by apply Hc1.
  destruct (always_loop_collected q _ t IH (Dict.keys q) a1 a' Hnd1 Hrun)
    as [Hc2 Hall].
  split; [now apply (collected_trans q _ a a1 a')|].
  intros x Hreach Hcond. apply clos_rt_rt1n in Hreach.
  destruct Hreach as [|d x Hstep Hrest].
  - apply (collected_incl q _ a1 a' Hc2). apply Hself.
    destruct Hcond as (info' & Hget' & Hc). rewrite Hget in Hget'.
    now injection Hget' as <-.
  - apply (Hall d x); [|assumption| |assumption].
    + destruct Hstep as (i & Hi & _). now apply get_Some_keys in Hi.
    + now apply clos_rt1n_rt.
Qed.

Lemma roots_loop_spec (q : task_queue) (limit : nat) :
  forall rs st a st' a',
    synced st -> NoDup (success_so_far st) -> NoDup a ->
    roots_loop limit q rs st a = Done (st', a') ->
    (grown q
       (fun x => exists r,
                   In r rs /\ clos_refl_trans string (success_edge q) r x)
       st st' /\
     incl rs (success_so_far st')) /\
    (collected q
       (fun x => exists r, In r rs /\ clos_refl_trans string (feeds q) r x)
       a a' /\
     forall r x,
       In r rs -> clos_refl_trans string (feeds q) r x ->
       has_condition q ConditionType.ALWAYS x -> In x a').
Proof.
  induction rs as [|r rest IH]; intros st a st' a' Hs Hnd Hnda Hrun.
  - cbn [roots_loop] in Hrun. injection Hrun as <- <-.
    split; split.
    + now apply grown_refl.
    + intros x [].
    + now apply collected_refl.
    + intros r x [].
  - cbn [roots_loop] in Hrun.
    destruct (trace_success_path limit q r st) as [st1|e] eqn:Hts;
      [|discriminate].
    destruct (trace_always_tasks limit q r a) as [a1|e] eqn:Hta;
      [|discriminate].
    destruct (trace_success_path_grown q limit r st st1 Hs Hnd Hts)
      as [Hg1 Hr].
    destruct (trace_always_tasks_collected q limit r a a1 Hnda Hta)
      as [Hc1 Hall1].
    assert (Hs1 : synced st1) by apply Hg1.
    assert (Hnd1 : NoDup (success_so_far st1)) by apply Hg1.
    assert (Hnda1 : NoDup a1) by apply Hc1.
    destruct (IH st1 a1 st' a' Hs1 Hnd1 Hnda1 Hrun)
      as [[Hg2 Hroots] [Hc2 Hall2]].
    split; split.
    + apply (grown_trans q _ st st1 st').
      * apply (grown_weaken q _ _ st st1) with (2 := Hg1).
        intros x Hx. exists r. split; [now left | assumption].
      * apply (grown_weaken q _ _ st1 st') with (2 := Hg2).
        intros x (r' & Hr' & Hx). exists r'. split; [now right | assumption].
    + intros x [<- | Hx]; [|now apply Hroots].
      now apply (grown_incl q _ st1 st' Hg2).
    + apply (collected_trans q _ a a1 a').
      * apply (collected_weaken q _ _ a a1) with (2 := Hc1).
        intros x Hx. exists r. split; [now left | assumption].
      * apply (collected_weaken q _ _ a1 a') with (2 := Hc2).
        intros x (r' & Hr' & Hx). exists r'. split; [now right | assumption].
    + intros r' x [<- | Hin] Hreach Hcond.
      * apply (collected_incl q _ a1 a' Hc2). now apply Hall1.
      * now apply (Hall2 r' x).
Qed.

Lemma get_execution_paths_run (limit : nat) (q : task_queue)
    (paths : ExecutionPaths.t) :
  get_execution_paths limit q = Done paths ->
  exists st,
    roots_loop limit q (roots q)
      {| visited_success := []; success_so_far := [] |} []
    = Done (st, ExecutionPaths.always_tasks paths) /\
    ExecutionPaths.success_path paths = success_so_far st /\
    ExecutionPaths.failure_paths paths = [].
Proof.
  unfold get_execution_paths.
  destruct (roots_loop limit q (roots q) _ []) as [[st a]|e];
    [|discriminate].
  intros [= <-]. exists st. auto.
Qed.

(** X23. When [get_execution_paths] returns, its success path holds no
    task twice and holds exactly the tasks that a task without
    dependencies reaches through tasks of condition success or always,
    each listing the one before it; states and results play no part. *)
Theorem get_execution_paths_success_path (limit : nat) (q : task_queue)
    (paths : ExecutionPaths.t) :
  Dict.wf q ->
  get_execution_paths limit q = Done paths ->
  NoDup (ExecutionPaths.success_path paths) /\
  forall x,
    In x (ExecutionPaths.success_path paths) <->
    exists root info,
      Dict.get q root = Some info /\ get_dependencies info = [] /\
      clos_refl_trans string (feeds_on_success q) root x.
Proof.
  intros Hwf Hrun.
  apply get_execution_paths_run in Hrun as (st & Hrun & -> & _).
  apply roots_loop_spec in Hrun as [[Hg Hroots] _];
    [ | intros x; cbn; tauto | constructor | constructor ].
  destruct Hg as (_ & Hnd & added & E & Hadded).
  cbn [success_so_far app] in E. split; [assumption|].
  intros x. split.
  - intros Hx. rewrite E in Hx.
    destruct (Hadded x Hx) as [(r & Hr & Hreach) _].
    apply (roots_iff q r Hwf) in Hr as (info & Hget & He).
    exists r, info. split; [assumption|]. split; [assumption|].
    apply (clos_refl_trans_ext (success_edge q)); [|assumption].
    intros a b. now apply success_edge_feeds.
  - intros (r & info & Hget & He & Hreach).
    assert (Hr : In r (success_so_far st)).
    { apply Hroots. apply roots_iff; eauto. }
    clear Hget He. apply clos_rt_rt1n in Hreach.
    induction Hreach as [|a b c Hstep _ IH]; [assumption|].
    apply IH. rewrite E in Hr. destruct (Hadded a Hr) as [_ Hclosed].
    apply Hclosed. now apply success_edge_feeds.
Qed.

Lemma get_execution_paths_success_path_witness :
  let paths :=
    {| ExecutionPaths.success_path := ["A"; "B"; "D"; "E"];
       ExecutionPaths.failure_paths := [];
       ExecutionPaths.always_tasks := ["A"; "D"; "E"] |} in
  Dict.wf queue_handlers /\
  get_execution_paths 4 queue_handlers = Done paths /\
  NoDup (ExecutionPaths.success_path paths) /\
  forall x,
    In x (ExecutionPaths.success_path paths) <->
    exists root info,
      Dict.get queue_handlers root = Some info /\
      get_dependencies info = [] /\
      clos_refl_trans string (feeds_on_success queue_handlers) root x.
Proof.
  assert (Hwf : Dict.wf queue_handlers) by distinct_by_computation.
  split; [exact Hwf|]. split; [reflexivity|].
  exact (get_execution_paths_success_path 4 queue_handlers _ Hwf eq_refl).
Defined.

(** X24. When [get_execution_paths] returns, its always tasks hold no
    task twice and hold exactly the tasks of condition always (the
    default) that are, or depend directly or through other tasks of any
    condition on, a task without dependencies; and its failure paths are
    empty whatever the queue. *)
Theorem get_execution_paths_always_tasks (limit : nat) (q : task_queue)
    (paths : ExecutionPaths.t) :
  Dict.wf q ->
  get_execution_paths limit q = Done paths ->
  ExecutionPaths.failure_paths paths = [] /\
  NoDup (ExecutionPaths.always_tasks paths) /\
  forall x,
    In x (ExecutionPaths.always_tasks paths) <->
    has_condition q ConditionType.ALWAYS x /\
    exists root info,
      Dict.get q root = Some info /\ get_dependencies info = [] /\
      clos_refl_trans string (feeds q) root x.
Proof.
  intros Hwf Hrun.
  apply get_execution_paths_run in Hrun as (st & Hrun & _ & Hfail).
  split; [assumption|].
  apply roots_loop_spec in Hrun as [_ [Hc Hall]];
    [ | intros x; cbn; tauto | constructor | constructor ].
  destruct Hc as (Hnd & added & E & Hadded). cbn [app] in E.
  split; [assumption|]. intros x. split.
  - intros Hx. rewrite E in Hx.
    destruct (Hadded x Hx) as [(r & Hr & Hreach) Hcond].
    split; [assumption|].
    apply (roots_iff q r Hwf) in Hr as (info & Hget & He).
    exists r, info. auto.
  - intros [Hcond (r & info & Hget & He & Hreach)].
    apply (Hall r x); [|assumption|assumption].
    apply roots_iff; eauto.
Qed.

Lemma get_execution_paths_always_tasks_witness :
  let paths :=
    {| ExecutionPaths.success_path := ["A"; "B"; "D"; "E"];
       ExecutionPaths.failure_paths := [];
       ExecutionPaths.always_tasks := ["A"; "D"; "E"] |} in
  Dict.wf queue_handlers /\
  get_execution_paths 4 queue_handlers = Done paths /\
  ExecutionPaths.failure_paths paths = [] /\
  NoDup (ExecutionPaths.always_tasks paths) /\
  forall x,
    In x (ExecutionPaths.always_tasks paths) <->
    has_condition queue_handlers ConditionType.ALWAYS x /\
    exists root info,
      Dict.get queue_handlers root = Some info /\
      get_dependencies info = [] /\
      clos_refl_trans string (feeds queue_handlers) root x.
Proof.
  assert (Hwf : Dict.wf queue_handlers) by distinct_by_computation.
  split; [exact Hwf|]. split; [reflexivity|].
  exact (get_execution_paths_always_tasks 4 queue_handlers _ Hwf eq_refl).
Defined.

(** ** Execution paths: depth of the recursion *)

Lemma filter_length_mono {A : Type} (f g : A -> bool) (l : list A) :
  (forall x, In x l -> f x = true -> g x = true) ->
  List.length (filter f l) <= List.length (filter g l).
Proof.
  induction l as [|x l IH]; intros H; [apply Nat.le_refl|].
  cbn [filter].
  assert (IH' : List.length (filter f l) <= List.length (filter g l))
    by (apply IH; intros y Hy; apply H; now right).
  destruct (f x) eqn:Hf.
  - rewrite (H x (or_introl eq_refl) Hf). cbn [List.length]. lia.
  - destruct (g x); cbn [List.length]; lia.
Qed.

Lemma unvisited_incl (q : task_queue) (v v' : list string) :
  incl v v' ->
  List.length (unvisited q v') <= List.length (unvisited q v).
Proof.
  intros Hincl. apply filter_length_mono. intros x _ Hx.
  apply negb_true_iff in Hx. apply negb_true_iff.
  apply mem_false in Hx. apply mem_false. auto.
Qed.

Lemma unvisited_visit (q : task_queue) (v : list string) (t : string) :
  In t (Dict.keys q) -> ~ In t v ->
  List.length (unvisited q (t :: v)) < List.length (unvisited q v).
Proof.
  unfold unvisited. intros Hin Hout.
  induction (Dict.keys q) as [|k ks IH]; [destruct Hin|].
  cbn [filter].
  assert (Hle : List.length (filter (fun k => negb (mem k (t :: v))) ks)
                <= List.length (filter (fun k => negb (mem k v)) ks)).
  { apply filter_length_mono. intros x _ Hx.
    apply negb_true_iff in Hx. apply negb_true_iff.
    apply mem_false in Hx. apply mem_false.
    intros H. apply Hx. now right. }
  destruct (String.eqb k t) eqn:E.
  - apply String.eqb_eq in E. subst k.
    assert (H1 : mem t (t :: v) = true) by (apply mem_In; now left).
    assert (H2 : mem t v = false) by now apply mem_false.
    rewrite H1, H2. cbn [negb List.length]. lia.
  - apply String.eqb_neq in E. destruct Hin as [-> | Hin]; [congruence|].
    specialize (IH Hin).
    destruct (mem k v) eqn:Hk.
    + assert (H1 : mem k (t :: v) = true).
      { apply mem_In. right. now apply mem_In. }
      rewrite H1. cbn [negb]. exact IH.
    + assert (H1 : mem k (t :: v) = false).
      { apply mem_false. apply mem_false in Hk.
        intros [H | H]; [congruence | contradiction]. }
      rewrite H1. cbn [negb List.length]. lia.
Qed.

Lemma success_loop_returns (q : task_queue)
    (trace : string -> success_trace -> outcome success_trace)
    (task_id : string) (limit : nat) :
  (forall d st,
     In d (Dict.keys q) ->
     List.length (unvisited q (visited_success st)) < limit ->
     exists st',
       trace d st = Done st' /\
       incl (visited_success st) (visited_success st')) ->
  forall items st,
    incl items q ->
    List.length (unvisited q (visited_success st)) < limit ->
    exists st',
      success_loop trace task_id items st = Done st' /\
      incl (visited_success st) (visited_success st').
Proof.
  intros IH. induction items as [|[d info] rest IHitems]; intros st Hincl Hlt.
  - exists st. split; [reflexivity | apply incl_refl].
  - rewrite success_loop_cons.
    assert (Hrest : incl rest q) by (intros x Hx; apply Hincl; now right).
    destruct (follows task_id (d, info)); [|now apply IHitems].
    assert (Hd : In d (Dict.keys q)).
    { unfold Dict.keys. apply in_map_iff. exists (d, info).
      split; [reflexivity|]. apply Hincl. now left. }
    destruct (IH d st Hd Hlt) as (st1 & -> & Hv1).
    assert (Hlt1 : List.length (unvisited q (visited_success st1)) < limit).
    { eapply Nat.le_lt_trans; [apply unvisited_incl; eassumption|].
      assumption. }
    destruct (IHitems st1 Hrest Hlt1) as (st' & Hrun & Hv2).
    exists st'. split; [assumption|].
    intros x Hx. apply Hv2. now apply Hv1.
Qed.

Lemma trace_success_path_returns (q : task_queue) (limit : nat) :
  forall task_id st,
    In task_id (Dict.keys q) ->
    List.length (unvisited q (visited_success st)) < limit ->
    exists st',
      trace_success_path limit q task_id st = Done st' /\
      incl (visited_success st) (visited_success st').
Proof.
  induction limit as [|limit IH]; intros t st Hkey Hlt; [lia|].
  cbn [trace_success_path].
  destruct (mem t (visited_success st)) eqn:Hv.
  - exists st. split; [reflexivity | apply incl_refl].
  - apply mem_false in Hv.
    assert (Hlt1 := unvisited_visit q (visited_success st) t Hkey Hv).
    destruct (success_loop_returns q _ t limit IH q
                {| visited_success := t :: visited_success st;
                   success_so_far := success_so_far st ++ [t] |}
                (incl_refl q)) as (st' & Hrun & Hincl).
    + cbn [visited_success]. lia.
    + exists st'. split; [assumption|].
      intros x Hx. apply Hincl. cbn [visited_success]. now right.
Qed.

Lemma success_loop_no_key_error
    (trace : string -> success_trace -> outcome success_trace)
    (task_id : string) :
  (forall d st, trace d st <> Stopped KeyError) ->
  forall items st, success_loop trace task_id items st <> Stopped KeyError.
Proof.
  intros IH. induction items as [|[d info] rest IHitems]; intros st.
  - discriminate.
  - rewrite success_loop_cons. destruct (follows task_id (d, info)); [|auto].
    destruct (trace d st) as [st1|e] eqn:Ht; [auto|].
    intros [= ->]. exact (IH d st Ht).
Qed.

Lemma trace_success_path_no_key_error (q : task_queue) (limit : nat) :
  forall task_id st,
    trace_success_path limit q task_id st <> Stopped KeyError.
Proof.
  induction limit as [|limit IH]; intros t st; [discriminate|].
  cbn [trace_success_path].
  destruct (mem t (visited_success st)); [discriminate|].
  now apply success_loop_no_key_error.
Qed.

Lemma always_loop_no_key_error (q : task_queue)
    (trace : string -> list string -> outcome (list string))
    (task_id : string) :
  (forall d a, In d (Dict.keys q) -> trace d a <> Stopped KeyError) ->
  forall ids a,
    incl ids (Dict.keys q) ->
    always_loop trace q task_id ids a <> Stopped KeyError.
Proof.
  intros IH. induction ids as [|d rest IHids]; intros a Hincl.
  - discriminate.
  - cbn [always_loop].
    assert (Hd : In d (Dict.keys q)) by (apply Hincl; now left).
    assert (Hrest : incl rest (Dict.keys q))
      by (intros x Hx; apply Hincl; now right).
    destruct (keys_get q d Hd) as [info ->].
    destruct (mem task_id (get_dependencies info)); [|auto].
    destruct (trace d a) as [a1|e] eqn:Ht; [auto|].
    intros [= ->]. exact (IH d a Hd Ht).
Qed.

Lemma trace_always_tasks_no_key_error (q : task_queue) (limit : nat) :
  forall task_id a,
    In task_id (Dict.keys q) ->
    trace_always_tasks limit q task_id a <> Stopped KeyError.
Proof.
  induction limit as [|limit IH]; intros t a Hkey; [discriminate|].
  cbn [trace_always_tasks]. destruct (keys_get q t Hkey) as [info ->].
  apply always_loop_no_key_error; [assumption | apply incl_refl].
Qed.

Lemma roots_loop_no_key_error (q : task_queue) (limit : nat) :
  forall rs st a,
    incl rs (Dict.keys q) ->
    roots_loop limit q rs st a <> Stopped KeyError.
Proof.
  induction rs as [|r rest IH]; intros st a Hincl; [discriminate|].
  cbn [roots_loop].
  assert (Hr : In r (Dict.keys q)) by (apply Hincl; now left).
  assert (Hrest : incl rest (Dict.keys q))
    by (intros x Hx; apply Hincl; now right).
  destruct (trace_success_path limit q r st) as [st1|e] eqn:Hts.
  - destruct (trace_always_tasks limit q r a) as [a1|e] eqn:Hta; [auto|].
    intros [= ->]. exact (trace_always_tasks_no_key_error q limit r a Hr Hta).
  - intros [= ->]. exact (trace_success_path_no_key_error q limit r st Hts).
Qed.

Lemma always_loop_returns (q : task_queue)
    (trace : string -> list string -> outcome (list string))
    (task_id : string) :
  (forall d a, feeds q task_id d -> exists a', trace d a = Done a') ->
  forall ids a,
    incl ids (Dict.keys q) ->
    exists a', always_loop trace q task_id ids a = Done a'.
Proof.
  intros IH. induction ids as [|d rest IHids]; intros a Hincl.
  - now exists a.
  - cbn [always_loop].
    assert (Hd : In d (Dict.keys q)) by (apply Hincl; now left).
    assert (Hrest : incl rest (Dict.keys q))
      by (intros x Hx; apply Hincl; now right).
    destruct (keys_get q d Hd) as [info Hget]. rewrite Hget.
    destruct (mem task_id (get_dependencies info)) eqn:Hdep; [|auto].
    apply mem_In in Hdep.
    destruct (IH d a) as [a1 ->]; [exists info; auto|]. auto.
Qed.

Lemma trace_always_tasks_returns (q : task_queue) :
  acyclic_queue q ->
  forall limit task_id a ancestors,
    In task_id (Dict.keys q) ->
    NoDup ancestors -> incl ancestors (Dict.keys q) ->
    (forall y, In y ancestors -> clos_trans string (feeds q) y task_id) ->
    List.length (Dict.keys q) <= limit + List.length ancestors ->
    exists a', trace_always_tasks limit q task_id a = Done a'.
Proof.
  intros Hacyc.
  induction limit as [|limit IH]; intros t a anc Hkey Hnd Hincl Hanc Hlen.
  - exfalso.
    assert (Hout : ~ In t anc)
      by (intros H; exact (Hacyc t (Hanc t H))).
    assert (Hle : List.length (t :: anc) <= List.length (Dict.keys q)).
    { apply NoDup_incl_length; [now constructor|].
      intros x [<- | Hx]; auto. }
    cbn [List.length] in Hle. lia.
  - cbn [trace_always_tasks]. destruct (keys_get q t Hkey) as [info ->].
    cbv zeta. apply always_loop_returns; [|apply incl_refl].
    intros d a0 Hfeeds.
    assert (Hout : ~ In t anc)
      by (intros H; exact (Hacyc t (Hanc t H))).
    apply (IH d a0 (t :: anc)).
    + destruct Hfeeds as (i & Hi & _). now apply get_Some_keys in Hi.
    + now constructor.
    + intros x [<- | Hx]; auto.
    + intros y [<- | Hy]; [now apply t_step|].
      apply t_trans with t; [auto | now apply t_step].
    + cbn [List.length]. lia.
Qed.

Lemma roots_loop_returns (q : task_queue) (limit : nat) :
  acyclic_queue q ->
  List.length q < limit ->
  forall rs st a,
    incl rs (Dict.keys q) ->
    exists st' a', roots_loop limit q rs st a = Done (st', a').
Proof.
  intros Hacyc Hlt.
  assert (Hkeys : List.length (Dict.keys q) = List.length q)
    by (unfold Dict.keys; apply length_map).
  induction rs as [|r rest IH]; intros st a Hincl.
  - now exists st, a.
  - cbn [roots_loop].
    assert (Hr : In r (Dict.keys q)) by (apply Hincl; now left).
    assert (Hrest : incl rest (Dict.keys q))
      by (intros x Hx; apply Hincl; now right).
    destruct (trace_success_path_returns q limit r st Hr) as (st1 & -> & _).
    { eapply Nat.le_lt_trans; [|exact Hlt]. rewrite <- Hkeys.
      unfold unvisited. apply filter_length_le. }
    destruct (trace_always_tasks_returns q Hacyc limit r a [] Hr)
      as [a1 ->]; [constructor | intros x [] | intros y [] | |].
    + cbn [List.length]. lia.
    + now apply IH.
Qed.

(** X25. On a queue in which no task depends on itself, directly or
    through other tasks, [get_execution_paths] returns as soon as the
    interpreter allows a recursion one deeper than the number of
    tasks. *)
Theorem get_execution_paths_returns (q : task_queue) (limit : nat) :
  acyclic_queue q ->
  List.length q < limit ->
  exists paths, get_execution_paths limit q = Done paths.
Proof.
  intros Hacyc Hlt. unfold get_execution_paths.
  destruct (roots_loop_returns q limit Hacyc Hlt (roots q)
              {| visited_success := []; success_so_far := [] |} []
              (roots_keys q)) as (st & a & ->).
  eauto.
Qed.

Lemma ranked_queue_acyclic (q : task_queue) (rank : string -> nat) :
  (forall a b, feeds q a b -> rank a < rank b) -> acyclic_queue q.
Proof.
  intros Hrank x Hx.
  assert (H : forall a b, clos_trans string (feeds q) a b -> rank a < rank b).
  { intros a b Hab. induction Hab; [auto | lia]. }
  specialize (H x x Hx). lia.
Qed.

Lemma get_execution_paths_returns_witness :
  acyclic_queue queue_handlers /\
  exists paths, get_execution_paths 6 queue_handlers = Done paths.
Proof.
  assert (Hacyc : acyclic_queue queue_handlers).
  { apply (ranked_queue_acyclic queue_handlers handlers_rank).
    intros a b (info & Hget & Hin). apply get_Some_In in Hget.
    cbn in Hget.
    repeat (destruct Hget as [[= <- <-] | Hget];
            [cbn in Hin;
             repeat (destruct Hin as [<- | Hin]; [cbn; lia|]);
             destruct Hin|]).
    destruct Hget. }
  split; [exact Hacyc|].
  apply (get_execution_paths_returns queue_handlers 6 Hacyc).
  cbn. lia.
Defined.

Lemma always_loop_overflows (q : task_queue)
    (trace : string -> list string -> outcome (list string))
    (task_id : string) :
  (forall d a, In d (Dict.keys q) -> trace d a <> Stopped KeyError) ->
  forall ids a,
    incl ids (Dict.keys q) ->
    (exists d,
       In d ids /\ feeds q task_id d /\
       forall a0, trace d a0 = Stopped RecursionError) ->
    always_loop trace q task_id ids a = Stopped RecursionError.
Proof.
  intros Hnk. induction ids as [|d0 rest IH]; intros a Hincl Hbad.
  - destruct Hbad as (d & [] & _).
  - cbn [always_loop].
    assert (Hd0 : In d0 (Dict.keys q)) by (apply Hincl; now left).
    assert (Hrest : incl rest (Dict.keys q))
      by (intros x Hx; apply Hincl; now right).
    destruct (keys_get q d0 Hd0) as [info Hget]. rewrite Hget.
    destruct Hbad as (d & Hin & Hfeeds & Hover).
    destruct (mem task_id (get_dependencies info)) eqn:Hdep.
    + destruct (trace d0 a) as [a1|e] eqn:Ht.
      * destruct Hin as [<- | Hin]; [rewrite Hover in Ht; discriminate|].
        apply IH; [assumption|]. exists d. auto.
      * destruct e; [|reflexivity]. exfalso. exact (Hnk d0 a Hd0 Ht).
    + apply mem_false in Hdep. destruct Hin as [<- | Hin].
      * destruct Hfeeds as (info' & Hget' & Hd). rewrite Hget in Hget'.
        injection Hget' as <-. contradiction.
      * apply IH; [assumption|]. exists d. auto.
Qed.

Lemma clos_trans_first (R : string -> string -> Prop) (a b : string) :
  clos_trans string R a b ->
  exists d, R a d /\ clos_refl_trans string R d b.
Proof.
  intros H. apply clos_trans_t1n in H.
  induction H as [x y Hstep | x y z Hstep Hrest _].
  - exists y. split; [assumption | apply rt_refl].
  - exists y. split; [assumption|].
    apply clos_t_clos_rt. now apply clos_t1n_trans.
Qed.

Lemma clos_refl_trans_first (R : string -> string -> Prop) (a b : string) :
  clos_refl_trans string R a b ->
  a = b \/ exists d, R a d /\ clos_refl_trans string R d b.
Proof.
  intros H. apply clos_rt_rt1n in H.
  induction H as [x | x y z Hstep Hrest _]; [now left|].
  right. exists y. split; [assumption|]. now apply clos_rt1n_rt.
Qed.

Lemma trace_always_tasks_overflows (q : task_queue) (c : string) :
  clos_trans string (feeds q) c c ->
  forall limit task_id a,
    In task_id (Dict.keys q) ->
    clos_refl_trans string (feeds q) task_id c ->
    trace_always_tasks limit q task_id a = Stopped RecursionError.
Proof.
  intros Hcycle.
  induction limit as [|limit IH]; intros t a Hkey Hreach; [reflexivity|].
  cbn [trace_always_tasks]. destruct (keys_get q t Hkey) as [info ->].
  cbv zeta.
  assert (Hnext : exists d, feeds q t d /\
                            clos_refl_trans string (feeds q) d c).
  { destruct (clos_refl_trans_first _ _ _ Hreach) as [-> | H];
      [now apply clos_trans_first | exact H]. }
  destruct Hnext as (d & Hfeeds & Hd).
  assert (Hdkey : In d (Dict.keys q)).
  { destruct Hfeeds as (i & Hi & _). now apply get_Some_keys in Hi. }
  apply always_loop_overflows.
  - intros d' a0 Hd'. now apply trace_always_tasks_no_key_error.
  - apply incl_refl.
  - exists d. split; [assumption|]. split; [assumption|].
    intros a0. now apply IH.
Qed.

Lemma roots_loop_overflows (q : task_queue) (limit : nat) (c : string) :
  clos_trans string (feeds q) c c ->
  forall rs st a,
    incl rs (Dict.keys q) ->
    (exists r, In r rs /\ clos_refl_trans string (feeds q) r c) ->
    roots_loop limit q rs st a = Stopped RecursionError.
Proof.
  intros Hcycle. induction rs as [|r0 rest IH]; intros st a Hincl Hbad.
  - destruct Hbad as (r & [] & _).
  - cbn [roots_loop].
    assert (Hr0 : In r0 (Dict.keys q)) by (apply Hincl; now left).
    assert (Hrest : incl rest (Dict.keys q))
      by (intros x Hx; apply Hincl; now right).
    destruct (trace_success_path limit q r0 st) as [st1|e] eqn:Hts.
    + destruct Hbad as (r & [<- | Hin] & Hreach).
      * now rewrite (trace_always_tasks_overflows q c Hcycle limit r0 a).
      * destruct (trace_always_tasks limit q r0 a) as [a1|e] eqn:Hta.
        -- apply IH; [assumption|]. exists r. auto.
        -- destruct e; [|reflexivity]. exfalso.
           exact (trace_always_tasks_no_key_error q limit r0 a Hr0 Hta).
    + destruct e; [|reflexivity]. exfalso.
      exact (trace_success_path_no_key_error q limit r0 st Hts).
Qed.

(** X26. When a task without dependencies reaches a cycle of
    dependencies, [get_execution_paths] returns at no recursion limit:
    the tracer of always tasks, which keeps no visited set, recurses
    until the interpreter stops it with a RecursionError. *)
Theorem get_execution_paths_overflows_on_cycle (q : task_queue)
    (root c : string) (info : task) :
  Dict.wf q ->
  Dict.get q root = Some info -> get_dependencies info = [] ->
  clos_refl_trans string (feeds q) root c ->
  clos_trans string (feeds q) c c ->
  forall limit, get_execution_paths limit q = Stopped RecursionError.
Proof.
  intros Hwf Hget He Hreach Hcycle limit. unfold get_execution_paths.
  rewrite (roots_loop_overflows q limit c Hcycle (roots q)); [reflexivity| |].
  - apply roots_keys.
  - exists root. split; [|assumption]. apply roots_iff; eauto.
Qed.

Lemma get_execution_paths_overflows_on_cycle_witness :
  Dict.wf queue_root_then_cycle /\
  valid (validate_conditional_graph queue_root_then_cycle) = true /\
  forall limit,
    get_execution_paths limit queue_root_then_cycle
    = Stopped RecursionError.
Proof.
  assert (Hwf : Dict.wf queue_root_then_cycle) by distinct_by_computation.
  split; [exact Hwf|]. split; [reflexivity|].
  apply (get_execution_paths_overflows_on_cycle queue_root_then_cycle
           "R" "A" _ Hwf eq_refl eq_refl).
  - apply rt_step. eexists. split; [reflexivity|]. now left.
  - apply t_trans with "B"; apply t_step; eexists;
      (split; [reflexivity|]); cbn; auto.
Defined.

(** X27. No lookup [task_queue[task_id]] of [get_execution_paths] fails:
    whatever the queue, the function raises no KeyError, because every ID
    it looks up was read from the queue's keys. *)
Theorem get_execution_paths_lookups_succeed (q : task_queue) (limit : nat) :
  get_execution_paths limit q <> Stopped KeyError.
Proof.
  unfold get_execution_paths.
  destruct (roots_loop limit q (roots q) _ []) as [[st a]|e] eqn:Hrun;
    [discriminate|].
  intros [= ->].
  exact (roots_loop_no_key_error q limit (roots q) _ [] (roots_keys q) Hrun).
Qed.
